(** * Edge IndexedDB migration (sync-edge-indexeddb.js): key and value codecs,
      schema map and the scan / write loops, embedded from the JavaScript
      source and verified against the design document. *)

From Stdlib Require Import String.
From Stdlib Require Import ZArith List Bool Arith Lia.
From Stdlib Require Import Strings.Byte.
From Equations Require Import Equations.
Import ListNotations.

Local Open Scope Z_scope.

(* ===================================================================== *)
(** ** JavaScript values used by the source *)
(* ===================================================================== *)

(** The bitwise operators of JavaScript work on 32-bit signed integers:
    both operands go through ToInt32, the shift count is taken modulo 32,
    and the result is again an int32. *)
Module JsInt.

Definition toInt32 (z : Z) : Z := (z + 2 ^ 31) mod 2 ^ 32 - 2 ^ 31.

(** [a & b] *)
Definition and (a b : Z) : Z := toInt32 (Z.land (toInt32 a) (toInt32 b)).

(** [a | b] *)
Definition or (a b : Z) : Z := toInt32 (Z.lor (toInt32 a) (toInt32 b)).

(** [a << s] *)
Definition shl (a s : Z) : Z := toInt32 (Z.shiftl (toInt32 a) (s mod 32)).

End JsInt.

(** A Node.js [Buffer] is a sequence of bytes. *)
Definition Buffer := list byte.

Definition byteZ (b : byte) : Z := Z.of_N (Byte.to_N b).

(** [buf[i]]: the element, or [undefined] (here [None]) outside the buffer. *)
Definition buffer_get (buf : Buffer) (i : nat) : option byte := nth_error buf i.

(** The number an element read is used as by a bitwise operator:
    [undefined] converts to 0. *)
Definition elemToInt (x : option byte) : Z :=
  match x with Some b => byteZ b | None => 0 end.

(** [buf.slice(start)] *)
Definition buffer_slice (buf : Buffer) (start : nat) : Buffer := skipn start buf.

(** A JavaScript string is a sequence of UTF-16 code units. *)
Definition jsstring := list Z.

(** [str.charCodeAt(i)]: [None] stands for NaN. *)
Definition charCodeAt (str : jsstring) (i : nat) : option Z := nth_error str i.

(** [x !== 0] for the result of charCodeAt (NaN is not 0). *)
Definition notZero (x : option Z) : bool :=
  match x with Some c => negb (c =? 0) | None => true end.

(** [str.startsWith(c)] for a one-character string [c]. *)
Definition startsWithChar (str : jsstring) (c : Z) : bool :=
  match str with x :: _ => x =? c | [] => false end.

(** Exceptions and the completion of a computation that may throw. *)
Inductive JsError : Type :=
| RangeError_OUT_OF_RANGE
| SyntaxError
| DOMException (name : string).

Inductive Completion (A : Type) : Type :=
| Normal (a : A)
| Throw (e : JsError).
Arguments Normal {A} a.
Arguments Throw {A} e.

Definition bind {A B} (m : Completion A) (k : A -> Completion B) : Completion B :=
  match m with Normal a => k a | Throw e => Throw e end.

(** [try { m } catch (e) { handler e }] *)
Definition try_catch {A} (m : Completion A) (handler : JsError -> Completion A)
  : Completion A :=
  match m with Normal a => Normal a | Throw e => handler e end.

Declare Scope js_scope.
Delimit Scope js_scope with js.
Notation "x <- m ;; k" := (bind m (fun x => k))
  (at level 61, m at next level, right associativity) : js_scope.

(* ===================================================================== *)
(** ** Buffer.toString('utf8') *)
(* ===================================================================== *)

(** The UTF-8 decoder of the runtime, as the WHATWG decoding algorithm:
    every maximal ill-formed subsequence becomes U+FFFD, a byte order mark
    is kept.  The decoded code points are then written as UTF-16. *)
Module Utf8.

Record State := mkState {
  needed : nat;       (* continuation bytes still expected *)
  codePoint : Z;      (* bits collected so far *)
  lower : Z;          (* bounds for the next continuation byte *)
  upper : Z
}.

Definition initial : State := mkState 0 0 0x80 0xBF.

Inductive Step := Emit (cp : Z) | Continue (st : State).

(** A byte met when no sequence is open. *)
Definition lead (b : Z) : Step :=
  if b <=? 0x7F then Emit b
  else if (0xC2 <=? b) && (b <=? 0xDF) then
    Continue (mkState 1 (Z.land b 0x1F) 0x80 0xBF)
  else if (0xE0 <=? b) && (b <=? 0xEF) then
    Continue (mkState 2 (Z.land b 0xF)
                      (if b =? 0xE0 then 0xA0 else 0x80)
                      (if b =? 0xED then 0x9F else 0xBF))
  else if (0xF0 <=? b) && (b <=? 0xF4) then
    Continue (mkState 3 (Z.land b 0x7)
                      (if b =? 0xF0 then 0x90 else 0x80)
                      (if b =? 0xF4 then 0x8F else 0xBF))
  else Emit 0xFFFD.

Fixpoint decode (st : State) (bytes : list byte) : list Z :=
  match bytes with
  | [] => match needed st with O => [] | S _ => [0xFFFD] end
  | x :: rest =>
    let b := byteZ x in
    match needed st with
    | O =>
      match lead b with
      | Emit cp => cp :: decode initial rest
      | Continue st' => decode st' rest
      end
    | S n =>
      if (lower st <=? b) && (b <=? upper st) then
        let cp := Z.lor (Z.shiftl (codePoint st) 6) (Z.land b 0x3F) in
        match n with
        | O => cp :: decode initial rest
        | S _ => decode (mkState n cp 0x80 0xBF) rest
        end
      else
        (* the open sequence is ill-formed; the byte starts over *)
        0xFFFD ::
        match lead b with
        | Emit cp => cp :: decode initial rest
        | Continue st' => decode st' rest
        end
    end
  end.

(** UTF-16 code units of one code point. *)
Definition utf16 (cp : Z) : list Z :=
  if cp <? 0x10000 then [cp]
  else [0xD800 + (cp - 0x10000) / 0x400; 0xDC00 + (cp - 0x10000) mod 0x400].

Definition toString (buf : Buffer) : jsstring :=
  flat_map utf16 (decode initial buf).

End Utf8.

(* ===================================================================== *)
(** ** KeyCodec: parseIndexedDbKey *)
(* ===================================================================== *)

(** An IEEE-754 binary64 number, kept as the 64 bits of its image. *)
Inductive Double : Type := DoubleOfBits (bits : Z).

(** The unsigned integer whose big-endian image is [bytes]. *)
Definition bigEndian (bytes : list byte) : Z :=
  fold_left (fun acc b => acc * 256 + byteZ b) bytes 0.

(** [buf.readDoubleBE(offset)]: needs the eight bytes from [offset] inside
    the buffer and throws a RangeError otherwise. *)
Definition readDoubleBE (buf : Buffer) (offset : nat) : Completion Double :=
  match buffer_get buf offset, buffer_get buf (offset + 7) with
  | Some _, Some _ => Normal (DoubleOfBits (bigEndian (firstn 8 (skipn offset buf))))
  | _, _ => Throw RangeError_OUT_OF_RANGE
  end.

(** The decoded user key: a string, a number or the raw buffer. *)
Inductive UserKey : Type :=
| KeyString (str : jsstring)
| KeyNumber (d : Double)
| KeyBuffer (buf : Buffer).

(** The record parseIndexedDbKey returns; [userKey = None] is [null]. *)
Record CompositeKey := mkCompositeKey {
  databaseId : Z;
  objectStoreId : Z;
  indexId : Z;
  userKey : option UserKey
}.

(** The variables of one varint loop.  [reads] lists, oldest first, the
    offsets at which the loop has indexed the buffer. *)
Record VarintState := mkVarint {
  vs_offset : nat;
  vs_value : Z;
  vs_shift : Z;
  vs_reads : list nat
}.

(** One run of the loop body: read [keyBuffer[offset++]], merge its low
    seven bits into the value; the boolean says whether the loop breaks. *)
Definition varintBody (keyBuffer : Buffer) (st : VarintState) : VarintState * bool :=
  let byte := elemToInt (buffer_get keyBuffer (vs_offset st)) in
  let value := JsInt.or (vs_value st) (JsInt.shl (JsInt.and byte 0x7F) (vs_shift st)) in
  let reads := vs_reads st ++ [vs_offset st] in
  if JsInt.and byte 0x80 =? 0
  then (mkVarint (S (vs_offset st)) value (vs_shift st) reads, true)
  else (mkVarint (S (vs_offset st)) value (vs_shift st + 7) reads, false).

Definition inspect {A} (a : A) : {b : A | a = b} := exist _ a eq_refl.

(** [while (offset < keyBuffer.length) { ...; if (...) break; shift += 7; }]
    The loop is defined by recursion on the number of bytes left after the
    offset, which every turn decreases: it ends on every buffer. *)
Equations? readVarint (keyBuffer : Buffer) (st : VarintState) : VarintState
  by wf (length keyBuffer - vs_offset st)%nat lt :=
readVarint keyBuffer st with inspect (vs_offset st <? length keyBuffer)%nat := {
  | exist _ false _ => st
  | exist _ true Hlt with inspect (varintBody keyBuffer st) := {
    | exist _ (st', true) _ => st'
    | exist _ (st', false) Hbody => readVarint keyBuffer st' } }.
Proof.
  apply Nat.ltb_lt in Hlt.
  unfold varintBody in Hbody.
  destruct (JsInt.and _ 128 =? 0); inversion Hbody; subst; simpl; lia.
Qed.

(** A varint loop started at [offset] with a fresh value and shift. *)
Definition varintAt (keyBuffer : Buffer) (offset : nat) (reads : list nat) : VarintState :=
  readVarint keyBuffer (mkVarint offset 0 0 reads).

Local Open Scope js_scope.

(** The inner [try] block: string first, then number, then the buffer. *)
Definition decodeUserKey (userKeyBuffer : Buffer) : Completion UserKey :=
  let str := Utf8.toString userKeyBuffer in
  if (0 <? length str)%nat && notZero (charCodeAt str 0) then
    Normal (KeyString str)
  else if (length userKeyBuffer <=? 8)%nat then
    d <- readDoubleBE userKeyBuffer 0 ;; Normal (KeyNumber d)
  else
    Normal (KeyBuffer userKeyBuffer).

(** The state after the three varint loops. *)
Definition readKeyPrefix (keyBuffer : Buffer) : VarintState * VarintState * VarintState :=
  let r1 := varintAt keyBuffer 0 [] in
  let r2 := varintAt keyBuffer (vs_offset r1) (vs_reads r1) in
  let r3 := varintAt keyBuffer (vs_offset r2) (vs_reads r2) in
  (r1, r2, r3).

(** [keyBuffer.slice(offset)] after the third loop. *)
Definition userKeyBuffer (keyBuffer : Buffer) : Buffer :=
  let '(_, _, r3) := readKeyPrefix keyBuffer in
  buffer_slice keyBuffer (vs_offset r3).

(** The body of the outer [try]. *)
Definition parseIndexedDbKey_try (keyBuffer : Buffer) : Completion CompositeKey :=
  let '(r1, r2, r3) := readKeyPrefix keyBuffer in
  let userKeyBuffer := buffer_slice keyBuffer (vs_offset r3) in
  userKey <-
    (if (0 <? length userKeyBuffer)%nat then
       try_catch (k <- decodeUserKey userKeyBuffer ;; Normal (Some k))
                 (fun _ => Normal (Some (KeyBuffer userKeyBuffer)))
     else Normal None) ;;
  Normal (mkCompositeKey (vs_value r1) (vs_value r2) (vs_value r3) userKey).

(** parseIndexedDbKey: the record, or [null] ([None]) from the outer
    [catch]. *)
Definition parseIndexedDbKey (keyBuffer : Buffer) : Completion (option CompositeKey) :=
  try_catch (r <- parseIndexedDbKey_try keyBuffer ;; Normal (Some r))
            (fun _ => Normal None).

(** The offsets the three loops have indexed, in order. *)
Definition parseIndexedDbKey_reads (keyBuffer : Buffer) : list nat :=
  let '(_, _, r3) := readKeyPrefix keyBuffer in vs_reads r3.

(* ===================================================================== *)
(** ** ValueCodec: decodeIndexedDbValue *)
(* ===================================================================== *)

(** What decodeIndexedDbValue returns: the value JSON.parse built, or the
    buffer it was given. *)
Inductive DecodedValue (JSValue : Type) : Type :=
| Structured (v : JSValue)
| Opaque (raw : Buffer).
Arguments Structured {JSValue} v.
Arguments Opaque {JSValue} raw.

(** [Buffer.isBuffer(decodedValue)] *)
Definition isBuffer {JSValue} (d : DecodedValue JSValue) : bool :=
  match d with Opaque _ => true | Structured _ => false end.

Definition char_lbrace : Z := 0x7B.
Definition char_rbrace : Z := 0x7D.
Definition char_lbracket : Z := 0x5B.
Definition char_rbracket : Z := 0x5D.

Section ValueCodec.

(** JSON.parse belongs to the runtime: it returns a value or throws a
    SyntaxError. *)
Context {JSValue : Type}.
Variable JSON_parse : jsstring -> Completion JSValue.

(** The body of the outer [try]; [None] means that no [return] was
    reached inside the [if]. *)
Definition decodeIndexedDbValue_try (valueBuffer : Buffer)
  : Completion (DecodedValue JSValue) :=
  let str := Utf8.toString valueBuffer in
  returned <-
    (if startsWithChar str char_lbrace || startsWithChar str char_lbracket then
       try_catch (v <- JSON_parse str ;; Normal (Some (Structured v)))
                 (fun _ => Normal None)
     else Normal None) ;;
  match returned with
  | Some d => Normal d
  | None => Normal (Opaque valueBuffer)
  end.

Definition decodeIndexedDbValue (valueBuffer : Buffer)
  : Completion (DecodedValue JSValue) :=
  try_catch (decodeIndexedDbValue_try valueBuffer)
            (fun _ => Normal (Opaque valueBuffer)).

End ValueCodec.

(* ===================================================================== *)
(** ** SchemaMap: getObjectStoreName *)
(* ===================================================================== *)

(** The object literal [mapping].  Its keys are the property names "1" to
    "7"; an integer id names one of them exactly when it is that number. *)
Definition mapping : list (Z * string) :=
  [ (1, "dictionaries"%string); (2, "terms"%string); (3, "kanji"%string);
    (4, "termMeta"%string); (5, "kanjiMeta"%string); (6, "tagMeta"%string);
    (7, "media"%string) ].

Fixpoint assoc {K V} (eqb : K -> K -> bool) (k : K) (l : list (K * V)) : option V :=
  match l with
  | [] => None
  | (k', v) :: rest => if eqb k k' then Some v else assoc eqb k rest
  end.

(** Truthiness of a string: the empty string is falsy. *)
Definition truthyString (s : string) : bool := negb (String.eqb s "").

(** [mapping[objectStoreId] || null] *)
Definition getObjectStoreName (objectStoreId : Z) : option string :=
  match assoc Z.eqb objectStoreId mapping with
  | Some name => if truthyString name then Some name else None
  | None => None
  end.

(* ===================================================================== *)
(** ** str.match(/\{.*\}|\[.*\]/) *)
(* ===================================================================== *)

Module Regex.

(** [.] matches every code unit except the line terminators. *)
Definition isLineTerminator (c : Z) : bool :=
  (c =? 0x0A) || (c =? 0x0D) || (c =? 0x2028) || (c =? 0x2029).

(** What a greedy [.*] takes at most: the characters up to the first line
    terminator. *)
Fixpoint dotRun (s : jsstring) : jsstring :=
  match s with
  | c :: t => if isLineTerminator c then [] else c :: dotRun t
  | [] => []
  end.

(** [.*] followed by the literal [close]: backtracking gives up characters
    from the end of the run until [close] is found, so the result is the
    longest prefix of the run that ends with [close]. *)
Fixpoint upToLast (close : Z) (run : jsstring) : option jsstring :=
  match run with
  | [] => None
  | c :: t =>
    match upToLast close t with
    | Some m => Some (c :: m)
    | None => if c =? close then Some [c] else None
    end
  end.

(** One alternative, [open .* close], tried at the start of [s]. *)
Definition bracketed (open close : Z) (s : jsstring) : option jsstring :=
  match s with
  | c :: t =>
    if c =? open then option_map (cons c) (upToLast close (dotRun t)) else None
  | [] => None
  end.

(** The alternation at one position: the first alternative first. *)
Definition matchHere (s : jsstring) : option jsstring :=
  match bracketed char_lbrace char_rbrace s with
  | Some m => Some m
  | None => bracketed char_lbracket char_rbracket s
  end.

(** The search of a non-global regular expression: the first position,
    from the left, at which the pattern matches.  The result is
    [jsonMatch[0]], or [None] for a [null] match. *)
Fixpoint search (s : jsstring) : option jsstring :=
  match matchHere s with
  | Some m => Some m
  | None => match s with [] => None | _ :: t => search t end
  end.

End Regex.

(* ===================================================================== *)
(** ** Migrator: syncEdgeIndexedDb *)
(* ===================================================================== *)

(** What the scan buffers per entry: [{key: parsed.userKey, value}]. *)
Record Entry (JSValue : Type) := mkEntry {
  entry_key : option UserKey;
  entry_value : DecodedValue JSValue
}.
Arguments mkEntry {JSValue} _ _.
Arguments entry_key {JSValue} _.
Arguments entry_value {JSValue} _.

(** The console lines the claims are concerned with. *)
Inductive LogLine : Type :=
| LogUnmapped (objectStoreId databaseId indexId : Z)
| LogParseFailed (keyBuffer : Buffer)
| WarnEntry (storeName : string) (e : JsError)
| WarnStore (storeName : string) (e : JsError).

Definition objectStores : list string :=
  [ "dictionaries"; "terms"; "kanji"; "termMeta"; "kanjiMeta"; "tagMeta"; "media" ]%string.

(** The variables of the scan.  [entriesByStore] is an object whose
    properties are in insertion order, hence an association list.  (The
    [sampleKeys] array, filled and printed for debugging only, is left
    out.) *)
Record ScanState (JSValue : Type) := mkScan {
  entriesByStore : list (string * list (Entry JSValue));
  totalEntries : nat;
  parsedEntries : nat;
  console : list LogLine
}.
Arguments mkScan {JSValue} _ _ _ _.
Arguments entriesByStore {JSValue} _.
Arguments totalEntries {JSValue} _.
Arguments parsedEntries {JSValue} _.
Arguments console {JSValue} _.

(** The source store once opened: the keys and values the iterator yields,
    as the buffers the loop body makes of them, and the error the reading
    (or the closing of the store) ends with if it fails. *)
Record Source := mkSource {
  src_entries : list (Buffer * Buffer);
  src_error : option JsError
}.

(** What syncEdgeIndexedDb finds around it. *)
Record Env := mkEnv {
  (** [new EdgeStorageAccess().getIndexedDbPath()]: the path ([None] for
      [null]), or the exception of the constructor, which no [try] of
      syncEdgeIndexedDb encloses. *)
  env_indexedDbPath : Completion (option string);
  env_existsSync : string -> bool;
  env_importLevel : Completion bool;   (* import('level'); is Level a function? *)
  env_openLevel : Completion Source;   (* new Level(...); db.open() *)
  env_openClassic : Completion Source  (* new ClassicLevel(...); db.open() *)
}.

(** How a promise ends. *)
Inductive Settled (A : Type) : Type :=
| Fulfilled (a : A)
| Rejected (e : JsError)
| Unsettled.                           (* neither resolved nor rejected, ever *)
Arguments Fulfilled {A} a.
Arguments Rejected {A} e.
Arguments Unsettled {A}.

(** What becomes of the request of [indexedDB.open]. *)
Inductive OpenOutcome : Type :=
| OpenSuccess                          (* request.onsuccess is called *)
| OpenError                            (* request.onerror is called *)
| OpenSilent.                          (* neither is called (the request stays
                                          blocked) *)

(** How the promise awaited after the writes of a store is settled. *)
Inductive TxOutcome : Type :=
| TxComplete                           (* transaction.oncomplete: resolveTx() *)
| TxError (error : option JsError)     (* transaction.onerror:
                                          rejectTx(transaction.error), [None]
                                          when transaction.error is null *)
| TxSilent.                            (* neither is called (the transaction is
                                          aborted without an error event) *)

(** How one turn of the loop over the stores ends. *)
Inductive Flow : Type :=
| GoOn                                 (* to the next store *)
| ThrownOut                            (* an exception leaves the loop, to the
                                          [catch] around the scan and the
                                          writes *)
| Waiting.                             (* the awaited promise is never settled *)

Section Migrator.

Context {JSValue : Type}.
Variable JSON_parse : jsstring -> Completion JSValue.

(** The target database (fake-indexeddb).  Each operation yields the new
    state of the database and says whether the call threw. *)
Context {Idb : Type}.
(** [indexedDB.open('dict', 60)], which may create or upgrade the
    database, and what becomes of its request. *)
Variable indexedDB_open : Idb -> Idb * Completion OpenOutcome.
Variable idb_transaction : Idb -> string -> Idb * Completion unit.
(** put and add return a request, which the loop drops: [Normal] says that
    the call returned, not that the request succeeds. *)
Variable store_put : Idb -> string -> DecodedValue JSValue -> UserKey -> Idb * Completion unit.
Variable store_add : Idb -> string -> DecodedValue JSValue -> Idb * Completion unit.
(** Awaiting the promise settled by [oncomplete] or [onerror]: the database
    once the transaction has ended (committed, or aborted by a request that
    failed), and how the promise was settled. *)
Variable tx_settled : Idb -> string -> Idb * TxOutcome.

Local Abbreviation Entry := (Entry JSValue).
Local Abbreviation ScanState := (ScanState JSValue).
Local Abbreviation DecodedValue := (DecodedValue JSValue).

(** *** Scanning *)

Definition initialScan : ScanState :=
  mkScan (map (fun storeName => (storeName, [])) objectStores) 0 0 [].

(** [entriesByStore[storeName].push(entry)] *)
Fixpoint pushEntry (storeName : string) (entry : Entry)
         (m : list (string * list Entry)) : list (string * list Entry) :=
  match m with
  | [] => []
  | (name, entries) :: rest =>
    if String.eqb storeName name
    then (name, entries ++ [entry]) :: rest
    else (name, entries) :: pushEntry storeName entry rest
  end.

(** The second attempt on a value that is still a buffer: the text
    matched by the regular expression is given to JSON.parse; when
    nothing matches or the parse throws, the buffer is kept. *)
Definition extractJson (decodedValue : DecodedValue) : Completion DecodedValue :=
  match decodedValue with
  | Opaque buf =>
    try_catch
      (let str := Utf8.toString buf in
       match Regex.search str with
       | Some jsonMatch0 => v <- JSON_parse jsonMatch0 ;; Normal (Structured v)
       | None => Normal decodedValue
       end)
      (fun _ => Normal decodedValue)
  | Structured _ => Normal decodedValue
  end.

(** The value stored for an entry: decodeIndexedDbValue, then the second
    attempt. *)
Definition decodeEntryValue (valueBuffer : Buffer) : Completion DecodedValue :=
  decodedValue <- decodeIndexedDbValue JSON_parse valueBuffer ;;
  extractJson decodedValue.

(** The body of the [for await] loop for one [key, value] pair. *)
Definition scanEntry (st : ScanState) (kv : Buffer * Buffer) : Completion ScanState :=
  let '(keyBuffer, valueBuffer) := kv in
  let total := S (totalEntries st) in
  parsed <- parseIndexedDbKey keyBuffer ;;
  match parsed with
  | Some parsed =>
    let storeName := getObjectStoreName (objectStoreId parsed) in
    match storeName, option_map (fun n => assoc String.eqb n (entriesByStore st)) storeName with
    | Some storeName, Some (Some _) =>
      decodedValue <- decodeEntryValue valueBuffer ;;
      Normal (mkScan (pushEntry storeName (mkEntry (userKey parsed) decodedValue)
                                (entriesByStore st))
                     total (S (parsedEntries st)) (console st))
    | _, _ =>
      if negb (objectStoreId parsed =? 0) && (total <=? 10)%nat then
        Normal (mkScan (entriesByStore st) total (parsedEntries st)
                       (console st ++ [LogUnmapped (objectStoreId parsed)
                                                   (databaseId parsed) (indexId parsed)]))
      else
        Normal (mkScan (entriesByStore st) total (parsedEntries st) (console st))
    end
  | None =>
    if (total <=? 10)%nat then
      Normal (mkScan (entriesByStore st) total (parsedEntries st)
                     (console st ++ [LogParseFailed keyBuffer]))
    else
      Normal (mkScan (entriesByStore st) total (parsedEntries st) (console st))
  end.

(** The loop over what the iterator yields. *)
Fixpoint scanEntries (st : ScanState) (entries : list (Buffer * Buffer))
  : Completion ScanState :=
  match entries with
  | [] => Normal st
  | kv :: rest => st' <- scanEntry st kv ;; scanEntries st' rest
  end.

(** The whole iteration: the entries, then the error of the iterator if
    it has one. *)
Definition scanSource (src : Source) : Completion ScanState :=
  st <- scanEntries initialScan (src_entries src) ;;
  match src_error src with
  | Some e => Throw e
  | None => Normal st
  end.

(** *** Writing *)

Record WriteState := mkWrite {
  idb : Idb;
  syncedCount : nat;
  warnings : list LogLine
}.

(** [store.put(entry.value, entry.key)] when the key is neither [null] nor
    [undefined], [store.add(entry.value)] otherwise. *)
Definition putOrAdd (storeName : string) (db : Idb) (entry : Entry) : Idb * Completion unit :=
  match entry_key entry with
  | Some key => store_put db storeName (entry_value entry) key
  | None => store_add db storeName (entry_value entry)
  end.

(** The body of the loop over the entries of one store, with its
    [try]/[catch]. *)
Definition writeEntry (storeName : string) (ws : WriteState) (entry : Entry) : WriteState :=
  let '(idb', r) := putOrAdd storeName (idb ws) entry in
  match r with
  | Normal _ => mkWrite idb' (S (syncedCount ws)) (warnings ws)
  | Throw e => mkWrite idb' (syncedCount ws) (warnings ws ++ [WarnEntry storeName e])
  end.

Definition writeEntries (storeName : string) (ws : WriteState) (entries : list Entry)
  : WriteState :=
  fold_left (writeEntry storeName) entries ws.

(** One turn of the loop over [Object.entries(entriesByStore)].  The
    [catch] of the turn reads [error.message]: when the promise was rejected
    with [null], this throws, out of the loop. *)
Definition syncStore (ws : WriteState) (store : string * list Entry) : WriteState * Flow :=
  let '(storeName, entries) := store in
  if (length entries =? 0)%nat then (ws, GoOn)
  else
    let '(idb1, opened) := idb_transaction (idb ws) storeName in
    match opened with
    | Throw e =>
      (mkWrite idb1 (syncedCount ws) (warnings ws ++ [WarnStore storeName e]), GoOn)
    | Normal _ =>
      let ws2 := writeEntries storeName (mkWrite idb1 (syncedCount ws) (warnings ws)) entries in
      let '(idb3, settled) := tx_settled (idb ws2) storeName in
      match settled with
      | TxComplete => (mkWrite idb3 (syncedCount ws2) (warnings ws2), GoOn)
      | TxError (Some e) =>
        (mkWrite idb3 (syncedCount ws2) (warnings ws2 ++ [WarnStore storeName e]), GoOn)
      | TxError None => (mkWrite idb3 (syncedCount ws2) (warnings ws2), ThrownOut)
      | TxSilent => (mkWrite idb3 (syncedCount ws2) (warnings ws2), Waiting)
      end
    end.

(** The loop over the stores: it ends with the last store, or with the
    first turn that does not go on. *)
Fixpoint syncStores (ws : WriteState) (stores : list (string * list Entry))
  : WriteState * Flow :=
  match stores with
  | [] => (ws, GoOn)
  | store :: rest =>
    let '(ws', flow) := syncStore ws store in
    match flow with
    | GoOn => syncStores ws' rest
    | _ => (ws', flow)
    end
  end.

(** *** The whole operation *)

(** Truthiness of the path: [null] and the empty string are falsy. *)
Definition truthyPath (p : option string) : bool :=
  match p with Some s => truthyString s | None => false end.

Definition pathExists (env : Env) (indexedDbPath : option string) : bool :=
  match indexedDbPath with
  | Some p => env_existsSync env p
  | None => false
  end.

(** Opening the source: level first, classic-level when that throws. *)
Definition openSource (env : Env) : Completion Source :=
  try_catch (env_openLevel env) (fun _ => env_openClassic env).

(** [request.onsuccess]: scan, write, [resolve(syncedCount > 0)]; any
    exception on the way resolves [false].  The second component is what
    [resolve] is called with, [None] when it is never called. *)
Definition onTargetOpen (src : Source) (idb0 : Idb) : WriteState * option bool :=
  match scanSource src with
  | Normal st =>
    let '(ws, flow) := syncStores (mkWrite idb0 0 (console st)) (entriesByStore st) in
    match flow with
    | GoOn => (ws, Some (0 <? syncedCount ws)%nat)
    | ThrownOut => (ws, Some false)
    | Waiting => (ws, None)
    end
  | Throw _ => (mkWrite idb0 0 [], Some false)
  end.

(** How the promise of syncEdgeIndexedDb ends, and the target database
    afterwards. *)
Definition syncEdgeIndexedDb (env : Env) (idb0 : Idb) : Idb * Settled bool :=
  match env_indexedDbPath env with
  | Throw e => (idb0, Rejected e)          (* the constructor threw *)
  | Normal indexedDbPath =>
    if negb (truthyPath indexedDbPath) || negb (pathExists env indexedDbPath) then
      (idb0, Fulfilled false)
    else
      match env_importLevel env with
      | Throw _ => (idb0, Fulfilled false)
      | Normal false => (idb0, Fulfilled false)
      | Normal true =>
        match openSource env with
        | Throw _ => (idb0, Fulfilled false)      (* the outer [catch] *)
        | Normal src =>
          (* the promise made around indexedDB.open is returned as it is: an
             exception of the call rejects it *)
          let '(idb1, opened) := indexedDB_open idb0 in
          match opened with
          | Throw e => (idb1, Rejected e)
          | Normal OpenError => (idb1, Fulfilled false)
          | Normal OpenSilent => (idb1, Unsettled)
          | Normal OpenSuccess =>
            let '(ws, result) := onTargetOpen src idb1 in
            (idb ws, match result with
                     | Some synced => Fulfilled synced
                     | None => Unsettled
                     end)
          end
        end
      end
  end.

End Migrator.

Arguments WriteState : clear implicits.

(* ===================================================================== *)
(** ** JSON.parse *)
(* ===================================================================== *)

(** A model of the JSON.parse of the runtime, after the JSON grammar of
    ECMA-404, used where a claim names a concrete JSON text.  A number is
    kept as the decimal it is written as, [(-1)^negative * digits *
    10^exp10]; the members of an object are kept in the order of the text. *)
Module Json.

#[local] Set Warnings "-register-all".

Inductive value : Type :=
| JNull
| JBool (b : bool)
| JNumber (negative : bool) (digits : Z) (exp10 : Z)
| JString (s : jsstring)
| JArray (items : list value)
| JObject (members : list (jsstring * value)).

Definition isWs (c : Z) : bool :=
  (c =? 0x20) || (c =? 0x09) || (c =? 0x0A) || (c =? 0x0D).

Fixpoint skipWs (s : jsstring) : jsstring :=
  match s with
  | c :: t => if isWs c then skipWs t else s
  | [] => []
  end.

Definition isDigit (c : Z) : bool := (0x30 <=? c) && (c <=? 0x39).

Definition hexDigit (c : Z) : option Z :=
  if isDigit c then Some (c - 0x30)
  else if (0x41 <=? c) && (c <=? 0x46) then Some (c - 0x41 + 10)
  else if (0x61 <=? c) && (c <=? 0x66) then Some (c - 0x61 + 10)
  else None.

Definition hex4 (a b c d : Z) : option Z :=
  match hexDigit a, hexDigit b, hexDigit c, hexDigit d with
  | Some a, Some b, Some c, Some d => Some (((a * 16 + b) * 16 + c) * 16 + d)
  | _, _, _, _ => None
  end.

(** The character a one-letter escape stands for. *)
Definition escape (c : Z) : option Z :=
  if c =? 0x22 then Some 0x22            (* quotation mark *)
  else if c =? 0x5C then Some 0x5C       (* reverse solidus *)
  else if c =? 0x2F then Some 0x2F       (* solidus *)
  else if c =? 0x62 then Some 0x08       (* b: backspace *)
  else if c =? 0x66 then Some 0x0C       (* f: form feed *)
  else if c =? 0x6E then Some 0x0A       (* n: line feed *)
  else if c =? 0x72 then Some 0x0D       (* r: carriage return *)
  else if c =? 0x74 then Some 0x09       (* t: tab *)
  else None.

Definition consChar (c : Z) (r : option (jsstring * jsstring)) : option (jsstring * jsstring) :=
  match r with Some (str, rest) => Some (c :: str, rest) | None => None end.

(** The characters of a string after its opening quote, up to the closing
    one. *)
Fixpoint parseChars (s : jsstring) : option (jsstring * jsstring) :=
  match s with
  | [] => None
  | c :: t =>
    if c =? 0x22 then Some ([], t)
    else if c =? 0x5C then
      match t with
      | e :: t' =>
        if e =? 0x75 then
          match t' with
          | h1 :: h2 :: h3 :: h4 :: t'' =>
            match hex4 h1 h2 h3 h4 with
            | Some u => consChar u (parseChars t'')
            | None => None
            end
          | _ => None
          end
        else
          match escape e with
          | Some x => consChar x (parseChars t')
          | None => None
          end
      | [] => None
      end
    else if c <? 0x20 then None
    else consChar c (parseChars t)
  end.

(** A run of digits: its value after [acc], how many there are, the rest. *)
Fixpoint readDigits (s : jsstring) (acc : Z) (count : Z) : Z * Z * jsstring :=
  match s with
  | c :: t => if isDigit c then readDigits t (acc * 10 + (c - 0x30)) (count + 1)
              else (acc, count, s)
  | [] => (acc, count, [])
  end.

Definition parseFraction (s : jsstring) (int : Z) : option (Z * Z * jsstring) :=
  match s with
  | c :: t =>
    if c =? 0x2E then
      let '(digits, count, rest) := readDigits t int 0 in
      if count =? 0 then None else Some (digits, count, rest)
    else Some (int, 0, s)
  | [] => Some (int, 0, [])
  end.

Definition parseExponent (s : jsstring) : option (Z * jsstring) :=
  match s with
  | c :: t =>
    if (c =? 0x65) || (c =? 0x45) then
      let '(neg, t') :=
        match t with
        | sign :: u => if sign =? 0x2D then (true, u)
                       else if sign =? 0x2B then (false, u) else (false, t)
        | [] => (false, t)
        end in
      let '(e, count, rest) := readDigits t' 0 0 in
      if count =? 0 then None else Some (if neg then - e else e, rest)
    else Some (0, s)
  | [] => Some (0, [])
  end.

Definition parseNumber (s : jsstring) : option (value * jsstring) :=
  let '(negative, s1) :=
    match s with
    | c :: t => if c =? 0x2D then (true, t) else (false, s)
    | [] => (false, s)
    end in
  match s1 with
  | c :: t =>
    if isDigit c then
      let '(int, _, s2) := if c =? 0x30 then (0, 1, t) else readDigits s1 0 0 in
      match parseFraction s2 int with
      | Some (digits, fracCount, s3) =>
        match parseExponent s3 with
        | Some (e, rest) => Some (JNumber negative digits (e - fracCount), rest)
        | None => None
        end
      | None => None
      end
    else None
  | [] => None
  end.

(** [s] starts with the code units [word]: what follows them. *)
Fixpoint stripPrefix (word s : jsstring) : option jsstring :=
  match word, s with
  | [], _ => Some s
  | w :: word', c :: t => if c =? w then stripPrefix word' t else None
  | _ :: _, [] => None
  end.

Definition word_true : jsstring := [0x74; 0x72; 0x75; 0x65].
Definition word_false : jsstring := [0x66; 0x61; 0x6C; 0x73; 0x65].
Definition word_null : jsstring := [0x6E; 0x75; 0x6C; 0x6C].

Fixpoint parseValue (fuel : nat) (s : jsstring) : option (value * jsstring) :=
  match fuel with
  | O => None
  | S fuel' =>
    match skipWs s with
    | [] => None
    | c :: t =>
      if c =? char_lbrace then
        match skipWs t with
        | c' :: t' => if c' =? char_rbrace then Some (JObject [], t')
                      else parseMembers fuel' t []
        | [] => None
        end
      else if c =? char_lbracket then
        match skipWs t with
        | c' :: t' => if c' =? char_rbracket then Some (JArray [], t')
                      else parseElements fuel' t []
        | [] => None
        end
      else if c =? 0x22 then
        match parseChars t with
        | Some (str, rest) => Some (JString str, rest)
        | None => None
        end
      else
        match stripPrefix word_true (c :: t), stripPrefix word_false (c :: t),
              stripPrefix word_null (c :: t) with
        | Some rest, _, _ => Some (JBool true, rest)
        | _, Some rest, _ => Some (JBool false, rest)
        | _, _, Some rest => Some (JNull, rest)
        | _, _, _ => parseNumber (c :: t)
        end
    end
  end
with parseElements (fuel : nat) (s : jsstring) (acc : list value)
  : option (value * jsstring) :=
  match fuel with
  | O => None
  | S fuel' =>
    match parseValue fuel' s with
    | Some (v, rest) =>
      match skipWs rest with
      | c :: t => if c =? 0x2C then parseElements fuel' t (acc ++ [v])
                  else if c =? char_rbracket then Some (JArray (acc ++ [v]), t)
                  else None
      | [] => None
      end
    | None => None
    end
  end
with parseMembers (fuel : nat) (s : jsstring) (acc : list (jsstring * value))
  : option (value * jsstring) :=
  match fuel with
  | O => None
  | S fuel' =>
    match skipWs s with
    | q :: t =>
      if q =? 0x22 then
        match parseChars t with
        | Some (name, afterName) =>
          match skipWs afterName with
          | colon :: t' =>
            if colon =? 0x3A then
              match parseValue fuel' t' with
              | Some (v, rest) =>
                match skipWs rest with
                | c :: u => if c =? 0x2C then parseMembers fuel' u (acc ++ [(name, v)])
                            else if c =? char_rbrace then Some (JObject (acc ++ [(name, v)]), u)
                            else None
                | [] => None
                end
              | None => None
              end
            else None
          | [] => None
          end
        | None => None
        end
      else None
    | [] => None
    end
  end.

(** JSON.parse(text): the value, or a SyntaxError. *)
Definition parse (text : jsstring) : Completion value :=
  match parseValue (2 * length text + 2) text with
  | Some (v, rest) =>
    match skipWs rest with
    | [] => Normal v
    | _ :: _ => Throw SyntaxError
    end
  | None => Throw SyntaxError
  end.

End Json.

(* ===================================================================== *)
(** ** Definitions on the side of the design document *)
(* ===================================================================== *)

Definition byteOfZ (z : Z) : byte :=
  match Byte.of_N (Z.to_N z) with Some b => b | None => x00 end.

(** Modelled from the spec: the base-128 encoder of the round-trip property.
    The source has a decoder only; the design document describes the scheme
    as seven data bits per byte, low bits first, with the continuation bit
    set on every byte of a field but its last. *)
Fixpoint encodeVarint_go (fuel : nat) (n : Z) : list byte :=
  match fuel with
  | O => []
  | S fuel' =>
    if n <? 128 then [byteOfZ n]
    else byteOfZ (n mod 128 + 128) :: encodeVarint_go fuel' (n / 128)
  end.

Definition encodeVarint (n : Z) : list byte :=
  encodeVarint_go (S (Z.to_nat (Z.log2 n))) n.

(** The fields of a key, one after the other. *)
Definition encodeFields (fields : list Z) : Buffer :=
  flat_map encodeVarint fields.

(** A byte whose continuation bit is set. *)
Definition continues (b : byte) : Prop := 128 <= byteZ b.

(** A field that is ended: bytes with the continuation bit set, then one
    without it. *)
Definition completeField (f : list byte) : Prop :=
  exists body last, f = body ++ [last] /\ Forall continues body /\ byteZ last < 128.

(** What a varint loop has accumulated after the bytes [bytes], none of
    which ended the field. *)
Fixpoint accumulate (bytes : list byte) (value shift : Z) : Z :=
  match bytes with
  | [] => value
  | b :: rest =>
    accumulate rest
      (JsInt.or value (JsInt.shl (JsInt.and (byteZ b) 0x7F) shift)) (shift + 7)
  end.

(** The number whose base-128 digits, low digit first, are the low seven
    bits of [bytes]. *)
Fixpoint base128 (bytes : list byte) : Z :=
  match bytes with
  | [] => 0
  | b :: rest => byteZ b mod 128 + 128 * base128 rest
  end.

(** The three ids of a decoded key. *)
Definition ids (r : CompositeKey) : list Z :=
  [databaseId r; objectStoreId r; indexId r].

(** Whether decodeIndexedDbValue tries JSON.parse on the text. *)
Definition braced (str : jsstring) : bool :=
  startsWithChar str char_lbrace || startsWithChar str char_lbracket.

(** What ends the run of a greedy [.*]: the end of the text or a line
    terminator. *)
Definition stopsRun (rest : jsstring) : Prop :=
  rest = [] \/ exists c r, rest = c :: r /\ Regex.isLineTerminator c = true.

(** Two scan states with the same buffers and the same count of buffered
    entries. *)
Definition sameBuffers {JSValue} (st1 st2 : ScanState JSValue) : Prop :=
  entriesByStore st1 = entriesByStore st2 /\ parsedEntries st1 = parsedEntries st2.

(** Two write states with the same target database and the same count of
    synced entries. *)
Definition sameWrites {Idb} (ws1 ws2 : WriteState Idb) : Prop :=
  idb ws1 = idb ws2 /\ syncedCount ws1 = syncedCount ws2.

(** The varint loop told on the bytes from the current offset on: the value
    and the number of bytes taken. *)
Fixpoint varintOf (bytes : list byte) (value shift : Z) : Z * nat :=
  match bytes with
  | [] => (value, 0%nat)
  | b :: rest =>
    let value' := JsInt.or value (JsInt.shl (JsInt.and (byteZ b) 0x7F) shift) in
    if byteZ b <? 128 then (value', 1%nat)
    else let '(v, n) := varintOf rest value' (shift + 7) in (v, S n)
  end.

(** The three fields of a key told on its bytes, and the number of bytes
    they take together. *)
Definition prefixOf (keyBuffer : Buffer) : Z * Z * Z * nat :=
  let '(v1, n1) := varintOf keyBuffer 0 0 in
  let '(v2, n2) := varintOf (skipn n1 keyBuffer) 0 0 in
  let '(v3, n3) := varintOf (skipn (n1 + n2) keyBuffer) 0 0 in
  (v1, v2, v3, (n1 + n2 + n3)%nat).

(** The user key the code gives for the bytes left after the three fields. *)
Definition remainderKey (remainder : Buffer) : option UserKey :=
  match remainder with
  | [] => None
  | b :: _ =>
    if byteZ b =? 0 then
      if (length remainder =? 8)%nat
      then Some (KeyNumber (DoubleOfBits (bigEndian remainder)))
      else Some (KeyBuffer remainder)
    else Some (KeyString (Utf8.toString remainder))
  end.


(* ===================================================================== *)
(** ** Definitions for the further properties of the scan and the writes *)
(* ===================================================================== *)

(** Whether the key of a pair names a store of the schema map. *)
Definition isMapped (kv : Buffer * Buffer) : bool :=
  match parseIndexedDbKey (fst kv) with
  | Normal (Some parsed) =>
    match getObjectStoreName (objectStoreId parsed) with
    | Some _ => true
    | None => false
    end
  | _ => false
  end.

(** What the scan buffers for a pair, and under which store name; [None]
    when the id of its key has no name. *)
Definition bufferedEntry {JSValue} (JSON_parse : jsstring -> Completion JSValue)
           (kv : Buffer * Buffer) : option (string * Entry JSValue) :=
  match parseIndexedDbKey (fst kv) with
  | Normal (Some parsed) =>
    match getObjectStoreName (objectStoreId parsed),
          decodeEntryValue JSON_parse (snd kv) with
    | Some name, Normal d => Some (name, mkEntry (userKey parsed) d)
    | _, _ => None
    end
  | _ => None
  end.

(** The entries of a source that belong to the store [storeName], in the
    order of the source. *)
Definition entriesFor {JSValue} (JSON_parse : jsstring -> Completion JSValue)
           (storeName : string) (entries : list (Buffer * Buffer))
  : list (Entry JSValue) :=
  flat_map (fun kv =>
              match bufferedEntry JSON_parse kv with
              | Some (name, e) => if String.eqb storeName name then [e] else []
              | None => []
              end) entries.

(** The number of entries in all the buffers together. *)
Definition entryCount {E} (stores : list (string * list E)) : nat :=
  list_sum (map (fun store => length (snd store)) stores).

(* ===================================================================== *)
(** ** EdgeStorageAccess (edge-storage-access.js) *)
(* ===================================================================== *)

Module EdgeStorage.

(** What the class sees of the machine it runs on. *)
Record Machine := mkMachine {
  env_LOCALAPPDATA : option string;                 (* process.env.LOCALAPPDATA *)
  homedir : string;                                 (* os.homedir() *)
  existsSync : string -> bool;
  readdirSync : string -> Completion (list string);
  (** [JSON.parse(readFileSync(path, 'utf8')).name] as far as the test made
      on it goes: [Some name] for a string, [None] for a falsy value that is
      no string; [Throw] when the file cannot be read or parsed, the
      manifest is null, or the name is a value without toLowerCase. *)
  manifestName : string -> Completion (option string)
}.

(** The object: its three fields, [None] for [null]. *)
Record EdgeStorageAccess := mkEdgeStorageAccess {
  _extensionId : option string;
  _storagePath : option string;
  _indexedDbPath : option string
}.

Section Paths.

(** [path.join] and [String.prototype.toLowerCase] belong to the runtime. *)
Variable join : list string -> string.
Variable toLowerCase : string -> string.

Variable m : Machine.

(** [str.startsWith(prefix)] *)
Definition startsWith (prefix str : string) : bool := String.prefix prefix str.

(** [str.includes(sub)] *)
Fixpoint includes (sub str : string) : bool :=
  String.prefix sub str ||
  match str with
  | String _ rest => includes sub rest
  | EmptyString => false
  end.

Definition char_dash : Ascii.ascii := Ascii.ascii_of_nat 45.
Definition char_underscore : Ascii.ascii := Ascii.ascii_of_nat 95.

(** [extId.replace(/-/g, '_')] *)
Fixpoint replaceDashes (s : string) : string :=
  match s with
  | EmptyString => EmptyString
  | String c rest =>
    String (if Ascii.eqb c char_dash then char_underscore else c) (replaceDashes rest)
  end.

(** [process.env.LOCALAPPDATA || join(homedir(), 'AppData', 'Local')] *)
Definition localAppData : string :=
  match env_LOCALAPPDATA m with
  | Some s => if truthyString s then s else join [homedir m; "AppData"; "Local"]%string
  | None => join [homedir m; "AppData"; "Local"]%string
  end.

Definition edgeExtensionsPath : string :=
  join [localAppData; "Microsoft"; "Edge"; "User Data"; "Default"; "Extensions"]%string.

Definition storagePathOf (extId : string) : string :=
  join [localAppData; "Microsoft"; "Edge"; "User Data"; "Default";
        "Local Extension Settings"; extId]%string.

Definition indexedDbPathOf (extId : string) : string :=
  join [localAppData; "Microsoft"; "Edge"; "User Data"; "Default"; "IndexedDB";
        ("chrome-extension_" ++ replaceDashes extId ++ "_0.indexeddb.leveldb")%string]%string.

(** The [try] block on one manifest: does its name, in lower case, include
    "yomitan"?  Every exception is caught and counts as no. *)
Definition isYomitanManifest (manifestPath : string) : bool :=
  match manifestName m manifestPath with
  | Normal (Some name) => truthyString name && includes "yomitan" (toLowerCase name)
  | Normal None => false
  | Throw _ => false
  end.

(** The loop over the versions of one extension: does one of them have a
    manifest of Yomitan? *)
Definition hasYomitanManifest (extPath : string) (versions : list string) : bool :=
  existsb (fun version =>
             let manifestPath := join [extPath; version; "manifest.json"%string] in
             existsSync m manifestPath && isYomitanManifest manifestPath)
          versions.

(** The loop over the entries of the extensions directory: the first
    extension with a manifest of Yomitan; an exception of readdirSync is not
    caught. *)
Fixpoint findIn (extensionDirs : list string) : Completion (option string) :=
  match extensionDirs with
  | [] => Normal None
  | extId :: rest =>
    let extPath := join [edgeExtensionsPath; extId] in
    if negb (existsSync m extPath) || startsWith "." extId then findIn rest
    else
      (versions <- readdirSync m extPath ;;
       if hasYomitanManifest extPath versions then Normal (Some extId)
       else findIn rest)%js
  end.

(** [new EdgeStorageAccess()]: the constructor with _findExtensionId. *)
Definition construct : Completion EdgeStorageAccess :=
  if negb (existsSync m edgeExtensionsPath) then
    Normal (mkEdgeStorageAccess None None None)
  else
    (extensionDirs <- readdirSync m edgeExtensionsPath ;;
     found <- findIn extensionDirs ;;
     match found with
     | Some extId =>
       Normal (mkEdgeStorageAccess (Some extId) (Some (storagePathOf extId))
                                   (Some (indexedDbPathOf extId)))
     | None => Normal (mkEdgeStorageAccess None None None)
     end)%js.

Definition getExtensionId (es : EdgeStorageAccess) : option string := _extensionId es.

(** [!this._extensionId]: [null] and the empty string are falsy. *)
Definition getIndexedDbPath (es : EdgeStorageAccess) : option string :=
  match _extensionId es with
  | Some extId => if truthyString extId then Some (indexedDbPathOf extId) else None
  | None => None
  end.

Definition isAvailable (es : EdgeStorageAccess) : bool :=
  match _extensionId es, _storagePath es with
  | Some _, Some storagePath => existsSync m storagePath
  | _, _ => false
  end.

Definition isIndexedDbAvailable (es : EdgeStorageAccess) : bool :=
  match getIndexedDbPath es with
  | Some path => existsSync m path
  | None => false
  end.

(** For the statements: what makes the loop of _findExtensionId go on to
    the next entry of the extensions directory. *)
Definition passedBy (extId : string) : Prop :=
  let extPath := join [edgeExtensionsPath; extId] in
  existsSync m extPath = false \/
  startsWith "." extId = true \/
  exists versions,
    readdirSync m extPath = Normal versions /\
    hasYomitanManifest extPath versions = false.

End Paths.

(** syncEdgeIndexedDb on a machine: the path it works with is the one
    getIndexedDbPath gives for the object constructed there, and an
    exception of the constructor rejects the promise. *)
Definition syncEdgeIndexedDb_from {JSValue Idb : Type}
           (join : list string -> string) (toLowerCase : string -> string)
           (m : Machine)
           (JSON_parse : jsstring -> Completion JSValue)
           (indexedDB_open : Idb -> Idb * Completion OpenOutcome)
           (idb_transaction : Idb -> string -> Idb * Completion unit)
           (store_put : Idb -> string -> DecodedValue JSValue -> UserKey -> Idb * Completion unit)
           (store_add : Idb -> string -> DecodedValue JSValue -> Idb * Completion unit)
           (tx_settled : Idb -> string -> Idb * TxOutcome)
           (importLevel : Completion bool)
           (openLevel openClassic : Completion Source)
           (idb0 : Idb) : Idb * Settled bool :=
  syncEdgeIndexedDb JSON_parse indexedDB_open idb_transaction store_put store_add tx_settled
    (mkEnv (edgeStorage <- construct join toLowerCase m ;;
            Normal (getIndexedDbPath join m edgeStorage))%js
           (existsSync m) importLevel openLevel openClassic)
    idb0.

(** For the examples: a join with slashes, and a machine with one
    extension, whose manifest names Yomitan. *)
Definition slashJoin (parts : list string) : string := String.concat "/" parts.

Definition oneExtension : Machine :=
  mkMachine (Some "L"%string) "H"%string
    (fun _ => true)
    (fun p => if String.eqb p "L/Microsoft/Edge/User Data/Default/Extensions"
              then Normal ["a-b"%string] else Normal ["1.0"%string])
    (fun _ => Normal (Some "yomitan"%string)).

End EdgeStorage.

(* ===================================================================== *)
(** ** YomitanServer (yomitan-server.js) and its endpoints (index.js) *)
(* ===================================================================== *)

Module Server.

(** What is thrown here carries a message. *)
Inductive Thrown : Type :=
| Error (message : string)
| TypeError (message : string).

Definition messageOf (e : Thrown) : string :=
  match e with Error msg => msg | TypeError msg => msg end.

Inductive Result (A : Type) : Type :=
| Ok (a : A)
| Raise (e : Thrown).
Arguments Ok {A} a.
Arguments Raise {A} e.

(** The code units of a string literal of the source (ASCII). *)
Definition units (s : string) : jsstring :=
  map byteZ (String.list_byte_of_string s).

Fixpoint jsstring_eqb (a b : jsstring) : bool :=
  match a, b with
  | [], [] => true
  | x :: a', y :: b' => (x =? y) && jsstring_eqb a' b'
  | _, _ => false
  end.

(** The property [name] of an object built by JSON.parse: of members with
    the same name the last one stays. *)
Fixpoint lookupLast (name : jsstring) (members : list (jsstring * Json.value))
  : option Json.value :=
  match members with
  | [] => None
  | (k, v) :: rest =>
    match lookupLast name rest with
    | Some v' => Some v'
    | None => if jsstring_eqb k name then Some v else None
    end
  end.

(** [value.name] for one of the names the server reads; [None] is
    [undefined].  Arrays, strings, numbers and booleans have no such
    property. *)
Definition property (name : string) (value : Json.value) : option Json.value :=
  match value with
  | Json.JObject members => lookupLast (units name) members
  | _ => None
  end.

(** [x === 'literal'] *)
Definition isString (literal : string) (x : option Json.value) : bool :=
  match x with
  | Some (Json.JString s) => jsstring_eqb s (units literal)
  | _ => false
  end.

(** Whether the double of the decimal [digits * 10^exp10] is zero: the
    decimal is 0, or at most 2^-1075, half of the least positive double. *)
Definition roundsToZero (digits exp10 : Z) : bool :=
  (digits <=? 0) || ((exp10 <? 0) && (digits * 2 ^ 1075 <=? 10 ^ (- exp10))).

(** Truthiness, for [x || y]. *)
Definition truthy (x : option Json.value) : bool :=
  match x with
  | None => false
  | Some Json.JNull => false
  | Some (Json.JBool b) => b
  | Some (Json.JNumber _ digits exp10) => negb (roundsToZero digits exp10)
  | Some (Json.JString s) => negb (length s =? 0)%nat
  | Some (Json.JArray _) => true
  | Some (Json.JObject _) => true
  end.

(** The [error] member of a response. *)
Record RpcError := mkRpcError {
  code : Z;
  message : string;
  data : option string          (* [None]: no [data] member *)
}.

Inductive Body : Type :=
| ResultOf (result : Json.value)
| ErrorOf (error : RpcError).

(** A response object: [{jsonrpc, id, result}] or [{jsonrpc, id, error}]. *)
Record Response := mkResponse {
  jsonrpc : string;
  id : option Json.value;        (* [None]: [undefined] *)
  body : Body
}.

(** The methods that handleRequest dispatches to, as they answer once the
    backend is there: they work on the backend and the dictionary database,
    which are outside this file. *)
Record Handlers := mkHandlers {
  handleParseText : option Json.value -> Result Json.value;
  handleFindTerms : option Json.value -> Result Json.value;
  handleFindKanji : option Json.value -> Result Json.value;
  handleGetDictionaryInfo : Result Json.value;
  handleImportDictionary : option Json.value -> Result Json.value;
  handleDeleteDictionary : option Json.value -> Result Json.value;
  handleImportDictionaryCollection : option Json.value -> Result Json.value
}.

Definition member (name : string) (v : Json.value) : jsstring * Json.value :=
  (units name, v).

(** The object handleInitialize returns. *)
Definition handleInitialize : Result Json.value :=
  Ok (Json.JObject
        [ member "serverInfo"
            (Json.JObject [ member "name" (Json.JString (units "yomitan-server"));
                            member "version" (Json.JString (units "1.0.0")) ]);
          member "capabilities"
            (Json.JObject [ member "parseTextProvider" (Json.JBool true);
                            member "findTermsProvider" (Json.JBool true);
                            member "findKanjiProvider" (Json.JBool true);
                            member "dictionaryImportProvider" (Json.JBool true);
                            member "dictionaryExportProvider" (Json.JBool false) ]) ]).

(** The [switch] on the method: [None] for the default case. *)
Definition dispatch (h : Handlers) (method params : option Json.value)
  : option (Result Json.value) :=
  if isString "initialize" method then Some handleInitialize
  else if isString "parseText" method then Some (handleParseText h params)
  else if isString "findTerms" method then Some (handleFindTerms h params)
  else if isString "findKanji" method then Some (handleFindKanji h params)
  else if isString "getDictionaryInfo" method then Some (handleGetDictionaryInfo h)
  else if isString "importDictionary" method then Some (handleImportDictionary h params)
  else if isString "deleteDictionary" method then Some (handleDeleteDictionary h params)
  else if isString "importDictionaryCollection" method
       then Some (handleImportDictionaryCollection h params)
  else None.

(** handleRequest.  [hasBackend] says whether [this._backend] is set;
    [request] is [None] for [undefined]. *)
Definition handleRequest (hasBackend : bool) (h : Handlers)
           (request : option Json.value) : Result Response :=
  if negb hasBackend then Raise (Error "Server not initialized")
  else
    match request with
    | None => Raise (TypeError "Cannot destructure 'request' as it is undefined.")
    | Some Json.JNull => Raise (TypeError "Cannot destructure 'request' as it is null.")
    | Some request =>
      let jsonrpc := property "jsonrpc" request in
      let id := property "id" request in
      let method := property "method" request in
      let params := property "params" request in
      if negb (isString "2.0" jsonrpc) then
        Ok (mkResponse "2.0" id (ErrorOf (mkRpcError (-32600) "Invalid Request" None)))
      else
        match dispatch h method params with
        | None =>
          Ok (mkResponse "2.0" id (ErrorOf (mkRpcError (-32601) "Method not found" None)))
        | Some (Ok result) => Ok (mkResponse "2.0" id (ResultOf result))
        | Some (Raise error) =>
          Ok (mkResponse "2.0" id
                (ErrorOf (mkRpcError (-32603) "Internal error" (Some (messageOf error)))))
        end
    end.

(** initialize: the backend is made and prepared; the sync of the Edge
    data runs inside a [try] of its own.  The first component says whether
    [this._backend] is set afterwards. *)
Definition initialize (newBackend prepare : Result unit) (hasIndexedDB : bool)
           (importSync : Result unit) (sync : Result bool) : bool * Result unit :=
  match newBackend with
  | Raise e => (false, Raise e)
  | Ok _ =>
    match prepare with
    | Raise e => (true, Raise e)
    | Ok _ =>
      let synced :=           (* the inner [try]: whatever it does is caught *)
        match importSync with
        | Raise _ => false
        | Ok _ => if hasIndexedDB then
                    match sync with Ok result => result | Raise _ => false end
                  else false
        end in
      (true, Ok tt)
    end
  end.

(** [app.post('/')] of index.js: the status and the object sent. *)
Definition postRoot (hasBackend : bool) (h : Handlers) (reqBody : option Json.value)
  : Z * Response :=
  match handleRequest hasBackend h reqBody with
  | Ok response => (200, response)
  | Raise error =>
    let id := match reqBody with
              | None => None
              | Some Json.JNull => None
              | Some b => property "id" b
              end in
    (500, mkResponse "2.0" (if truthy id then id else Some Json.JNull)
                     (ErrorOf (mkRpcError (-32603) "Internal error"
                                          (Some (messageOf error)))))
  end.

(** The message handler of the WebSocket endpoint of index.js: the object
    sent back for the text of a message.  JSON.parse belongs to the
    runtime. *)
Definition onMessage (JSON_parse : jsstring -> Completion Json.value)
           (hasBackend : bool) (h : Handlers) (text : jsstring) : Response :=
  let parseError :=
    mkResponse "2.0" (Some Json.JNull) (ErrorOf (mkRpcError (-32700) "Parse error" None)) in
  match JSON_parse text with
  | Throw _ => parseError
  | Normal request =>
    match handleRequest hasBackend h (Some request) with
    | Ok response => response
    | Raise _ => parseError
    end
  end.

End Server.

(** *** handleImportDictionaryCollection *)

Module Collection.
Import Server.

Definition nameOf (e : Thrown) : string :=
  match e with Error _ => "Error" | TypeError _ => "TypeError" end.

(** The quotation mark of the messages. *)
Definition quote : string := String (Ascii.ascii_of_nat 34) EmptyString.

(** [x ?? default] *)
Definition nullish (x : option Json.value) (default : Json.value) : Json.value :=
  match x with
  | None => default
  | Some Json.JNull => default
  | Some v => v
  end.

(** [x?.name] *)
Definition optionalProperty (name : string) (x : option Json.value)
  : option Json.value :=
  match x with
  | None => None
  | Some Json.JNull => None
  | Some v => property name v
  end.

(** What [fetch] resolves with, as far as the loop reads it. *)
Record FetchResponse := mkFetchResponse {
  ok : bool;
  status : string;               (* as the template prints it *)
  statusText : string;
  arrayBuffer : Result Buffer
}.

(** What importDictionary resolves with: [errors] ([None] when there is
    none) and whether [result] is truthy. *)
Record ImportResult := mkImportResult {
  result_errors : option (list Thrown);
  result_result : bool
}.

Record ImportDetails := mkImportDetails {
  prefixWildcardsSupported : Json.value;
  yomitanVersion : Json.value
}.

(** The object the handler returns; an error is given by its message and
    its name. *)
Record CollectionResult := mkCollectionResult {
  r_imported : nat;
  r_errors : list (string * string)
}.

Section ImportCollection.

(** The dictionary database, changed by every import. *)
Context {Db : Type}.
Variable readFileSync : jsstring -> Result jsstring.
(** parseJson is imported from core/json.js. *)
Variable parseJson : jsstring -> Result Json.value.
Variable isPrepared : Db -> bool.
Variable fetch : jsstring -> Result FetchResponse.
Variable importDictionary : Db -> Buffer -> ImportDetails -> Db * Result ImportResult.
(** How a template prints a value: the conversion to a string, which
    throws for an object that cannot be converted (one whose toString
    member is not a function). *)
Variable display : Json.value -> Result string.

Record Backend := mkBackend {
  _dictionaryDatabase : option Db
}.

(** The variables of the loop. *)
Record ImportState := mkImportState {
  database : Db;
  errors : list Thrown;
  imported : nat
}.

Definition pushError (st : ImportState) (e : Thrown) : ImportState :=
  mkImportState (database st) (errors st ++ [e]) (imported st).

(** [dictInfo.name || 'unknown'], printed. *)
Definition dictName (dictInfo : Json.value) : Result string :=
  if truthy (property "name" dictInfo)
  then match property "name" dictInfo with
       | Some v => display v
       | None => Ok "unknown"%string
       end
  else Ok "unknown"%string.

(** The body of the [try] for one dictionary. *)
Definition tryImport (importDetails : ImportDetails) (st : ImportState)
           (url : jsstring) : ImportState * Result unit :=
  match fetch url with
  | Raise e => (st, Raise e)
  | Ok response =>
    if negb (ok response) then
      (st, Raise (Error ("Failed to download dictionary: "
                           ++ status response ++ " " ++ statusText response)))
    else
      match arrayBuffer response with
      | Raise e => (st, Raise e)
      | Ok archiveBuffer =>
        let '(db', r) := importDictionary (database st) archiveBuffer importDetails in
        match r with
        | Raise e => (mkImportState db' (errors st) (imported st), Raise e)
        | Ok result =>
          match result_errors result with
          | Some (e :: es) =>
            (mkImportState db' (errors st ++ e :: es) (imported st), Ok tt)
          | _ =>
            if result_result result
            then (mkImportState db' (errors st) (S (imported st)), Ok tt)
            else (mkImportState db' (errors st) (imported st), Ok tt)
          end
        end
      end
  end.

(** Whether [dictInfo.downloadUrl] is a string that is not empty. *)
Definition usableUrl (dictInfo : Json.value) : option jsstring :=
  match property "downloadUrl" dictInfo with
  | Some (Json.JString url) => if (length url =? 0)%nat then None else Some url
  | _ => None
  end.

(** [!dictInfo.downloadUrl || typeof dictInfo.downloadUrl !== 'string'] *)
Definition missingDownloadUrl (dictInfo : Json.value) : bool :=
  match usableUrl dictInfo with
  | None => true
  | Some _ => false
  end.

(** One turn of the loop.  Reading a property of [null] throws outside the
    [try], and so does printing the name for a message. *)
Definition importOne (importDetails : ImportDetails) (st : ImportState)
           (dictInfo : Json.value) : ImportState * Result unit :=
  match dictInfo with
  | Json.JNull =>
    (st, Raise (TypeError "Cannot read properties of null (reading 'downloadUrl')"))
  | _ =>
    match usableUrl dictInfo with
    | None =>
      match dictName dictInfo with
      | Raise e => (st, Raise e)
      | Ok name =>
        (pushError st (Error ("Dictionary " ++ quote ++ name ++ quote
                                ++ " missing downloadUrl")), Ok tt)
      end
    | Some url =>
      let '(st', r) := tryImport importDetails st url in
      match r with
      | Ok _ => (st', Ok tt)
      | Raise error =>
        match dictName dictInfo with
        | Raise e => (st', Raise e)
        | Ok name =>
          (pushError st' (Error ("Failed to import dictionary " ++ quote
                                   ++ name ++ quote ++ ": "
                                   ++ messageOf error)), Ok tt)
        end
      end
    end
  end.

Fixpoint importLoop (importDetails : ImportDetails) (st : ImportState)
         (dictionaries : list Json.value) : ImportState * Result unit :=
  match dictionaries with
  | [] => (st, Ok tt)
  | dictInfo :: rest =>
    let '(st', r) := importOne importDetails st dictInfo in
    match r with
    | Ok _ => importLoop importDetails st' rest
    | Raise e => (st', Raise e)
    end
  end.

(** The collection file, read and parsed; a failure is wrapped. *)
Definition readCollection (filePath : jsstring) : Result Json.value :=
  let wrap (e : Thrown) :=
    Error ("Failed to read collection file: " ++ messageOf e) in
  match readFileSync filePath with
  | Raise e => Raise (wrap e)
  | Ok fileContent =>
    match parseJson fileContent with
    | Raise e => Raise (wrap e)
    | Ok collectionData => Ok collectionData
    end
  end.

(** The [dictionaries] of the collection: the collection itself when it is
    an array, else its [dictionaries] or, when that is falsy, [[]]; they
    have to be an array that is not empty. *)
Definition dictionariesOf (collectionData : Json.value)
  : Result (list Json.value) :=
  let nonEmpty (dictionaries : Json.value) :=
    match dictionaries with
    | Json.JArray (d :: ds) => Ok (d :: ds)
    | _ => Raise (Error "No dictionaries found in collection file")
    end in
  match collectionData with
  | Json.JArray _ => nonEmpty collectionData
  | Json.JObject _ =>
    if truthy (property "dictionaries" collectionData)
    then match property "dictionaries" collectionData with
         | Some dictionaries => nonEmpty dictionaries
         | None => nonEmpty (Json.JArray [])
         end
    else nonEmpty (Json.JArray [])
  | _ => nonEmpty (Json.JArray [])
  end.

(** [collectionData && typeof collectionData === 'object'] *)
Definition validCollection (collectionData : Json.value) : bool :=
  match collectionData with
  | Json.JArray _ => true
  | Json.JObject _ => true
  | _ => false
  end.

(** The [importDetails] made of [details]. *)
Definition importDetailsOf (details : option Json.value) : ImportDetails :=
  mkImportDetails
    (nullish (optionalProperty "prefixWildcardsSupported" details) (Json.JBool false))
    (nullish (optionalProperty "yomitanVersion" details) (Json.JString (units "1.0.0"))).

(** handleImportDictionaryCollection; beside the outcome, the database as
    it is afterwards. *)
Definition handleImportDictionaryCollection (_backend : option Backend)
           (params : option Json.value) : option Db * Result CollectionResult :=
  match _backend with
  | None => (None, Raise (Error "Server not initialized"))
  | Some backend =>
    let unchanged := _dictionaryDatabase backend in
    match params with
    | None =>
      (unchanged, Raise (TypeError "Cannot destructure 'params' as it is undefined."))
    | Some Json.JNull =>
      (unchanged, Raise (TypeError "Cannot destructure 'params' as it is null."))
    | Some params =>
      let details := property "details" params in
      match property "filePath" params with
      | Some (Json.JString filePath) =>
        if (length filePath =? 0)%nat
        then (unchanged, Raise (Error "filePath is required"))
        else
          match readCollection filePath with
          | Raise e => (unchanged, Raise e)
          | Ok collectionData =>
            if negb (validCollection collectionData)
            then (unchanged, Raise (Error "Invalid collection file format"))
            else
              match _dictionaryDatabase backend with
              | None => (unchanged, Raise (Error "Dictionary database not available"))
              | Some dictionaryDatabase =>
                if negb (isPrepared dictionaryDatabase)
                then (unchanged, Raise (Error "Dictionary database is not prepared"))
                else
                  match dictionariesOf collectionData with
                  | Raise e => (unchanged, Raise e)
                  | Ok dictionaries =>
                    let importDetails := importDetailsOf details in
                    let '(st, r) :=
                      importLoop importDetails
                                 (mkImportState dictionaryDatabase [] 0) dictionaries in
                    match r with
                    | Raise e => (Some (database st), Raise e)
                    | Ok _ =>
                      (Some (database st),
                       Ok (mkCollectionResult
                             (imported st)
                             (map (fun e => (messageOf e, nameOf e)) (errors st))))
                    end
                  end
              end
          end
      | _ => (unchanged, Raise (Error "filePath is required"))
      end
    end
  end.

End ImportCollection.

Arguments Backend : clear implicits.
Arguments ImportState : clear implicits.

End Collection.

(* ===================================================================== *)
(** * Verification *)
(* ===================================================================== *)

(** ** Bytes and 32-bit arithmetic *)

Lemma byteZ_range (b : byte) : 0 <= byteZ b < 256.
Proof.
  unfold byteZ. pose proof (Byte.to_N_bounded b). lia.
Qed.

Lemma toInt32_small z : - 2 ^ 31 <= z < 2 ^ 31 -> JsInt.toInt32 z = z.
Proof.
  intros H. unfold JsInt.toInt32. rewrite Z.mod_small; lia.
Qed.

Lemma and_0x7F (b : byte) : JsInt.and (byteZ b) 0x7F = byteZ b mod 128.
Proof. destruct b; reflexivity. Qed.

Lemma and_0x80 (b : byte) :
  (JsInt.and (byteZ b) 0x80 =? 0) = (byteZ b <? 128).
Proof. destruct b; reflexivity. Qed.

Lemma land_low_high acc x s :
  0 <= s -> 0 <= acc < 2 ^ s -> Z.land acc (x * 2 ^ s) = 0.
Proof.
  intros Hs Hacc. apply Z.bits_inj'. intros n Hn.
  rewrite Z.land_spec, Z.bits_0.
  destruct (Z.lt_ge_cases n s).
  - rewrite Z.mul_pow2_bits_low by lia. apply andb_false_r.
  - destruct (Z.eq_dec acc 0) as [->|Hne].
    + rewrite Z.bits_0. reflexivity.
    + rewrite (Z.bits_above_log2 acc n); [reflexivity | lia |].
      apply Z.lt_le_trans with s; [|lia]. apply Z.log2_lt_pow2; lia.
Qed.

Lemma lor_disjoint acc x s :
  0 <= s -> 0 <= acc < 2 ^ s -> Z.lor acc (x * 2 ^ s) = acc + x * 2 ^ s.
Proof.
  intros Hs Hacc. pose proof (land_low_high acc x s Hs Hacc) as H0.
  rewrite Z.add_nocarry_lxor by exact H0. symmetry. apply Z.lxor_lor. exact H0.
Qed.

Lemma or_shl_add acc x s :
  0 <= s < 32 -> 0 <= acc < 2 ^ s -> 0 <= x -> acc + x * 2 ^ s < 2 ^ 31 ->
  JsInt.or acc (JsInt.shl x s) = acc + x * 2 ^ s.
Proof.
  intros Hs Hacc Hx Hsum.
  assert (0 < 2 ^ s) by (apply Z.pow_pos_nonneg; lia).
  assert (0 <= x * 2 ^ s) by nia.
  assert (x < 2 ^ 31) by nia.
  unfold JsInt.or, JsInt.shl.
  rewrite (Z.mod_small s 32) by lia.
  rewrite (toInt32_small x) by lia.
  rewrite Z.shiftl_mul_pow2 by lia.
  rewrite (toInt32_small (x * 2 ^ s)) by lia.
  rewrite (toInt32_small (x * 2 ^ s)) by lia.
  rewrite (toInt32_small acc) by lia.
  rewrite lor_disjoint by lia.
  apply toInt32_small. lia.
Qed.

Lemma readVarint_step keyBuffer st :
  readVarint keyBuffer st =
  if (vs_offset st <? length keyBuffer)%nat then
    let '(st', stop) := varintBody keyBuffer st in
    if stop then st' else readVarint keyBuffer st'
  else st.
Proof.
  rewrite readVarint_equation_1. simpl.
  destruct (vs_offset st <? length keyBuffer)%nat; [|reflexivity].
  destruct (varintBody keyBuffer st) as [st' []]; reflexivity.
Qed.

Lemma skipn_cons_inv {A} (l : list A) : forall o x t,
  skipn o l = x :: t ->
  nth_error l o = Some x /\ skipn (S o) l = t /\ (o < length l)%nat.
Proof.
  induction l as [|y l IH]; intros o x t H.
  - destruct o; discriminate.
  - destruct o as [|o].
    + simpl in H. inversion H; subst. simpl. repeat split. lia.
    + simpl in H. apply IH in H. destruct H as (H1 & H2 & H3).
      simpl. repeat split; auto. lia.
Qed.

Lemma skipn_nil_inv {A} (l : list A) o : skipn o l = [] -> (length l <= o)%nat.
Proof.
  revert o. induction l; intros [|o] H; simpl in *; try lia; try discriminate.
  apply IHl in H. lia.
Qed.

Lemma readVarint_varintOf keyBuffer : forall suffix st,
  skipn (vs_offset st) keyBuffer = suffix ->
  let r := readVarint keyBuffer st in
  let vn := varintOf suffix (vs_value st) (vs_shift st) in
  vs_value r = fst vn /\ vs_offset r = (vs_offset st + snd vn)%nat /\
  vs_reads r = vs_reads st ++ seq (vs_offset st) (snd vn).
Proof.
  induction suffix as [|b suffix IH]; intros st Hsk; cbv zeta.
  - apply skipn_nil_inv in Hsk.
    rewrite readVarint_step.
    destruct (Nat.ltb_spec (vs_offset st) (length keyBuffer)); [lia|].
    simpl. rewrite app_nil_r. repeat split; lia.
  - apply skipn_cons_inv in Hsk. destruct Hsk as (Hnth & Hsk & Hlt).
    rewrite readVarint_step.
    destruct (Nat.ltb_spec (vs_offset st) (length keyBuffer)); [|lia].
    unfold varintBody, buffer_get. rewrite Hnth. cbn [elemToInt].
    rewrite and_0x80. cbn [varintOf].
    destruct (byteZ b <? 128).
    + cbn. repeat split; lia.
    + specialize (IH (mkVarint (S (vs_offset st))
          (JsInt.or (vs_value st) (JsInt.shl (JsInt.and (byteZ b) 127) (vs_shift st)))
          (vs_shift st + 7) (vs_reads st ++ [vs_offset st])) Hsk).
      cbv zeta in IH. cbn [vs_value vs_shift vs_offset vs_reads] in IH.
      destruct (varintOf suffix _ _) as [v n]. cbn [fst snd] in *.
      destruct IH as (H1 & H2 & H3). repeat split; auto.
      * lia.
      * rewrite H3, <- app_assoc. reflexivity.
Qed.

Lemma varintOf_length bytes : forall v s, (snd (varintOf bytes v s) <= length bytes)%nat.
Proof.
  induction bytes as [|b bytes IH]; intros v s; simpl; [lia|].
  destruct (byteZ b <? 128); simpl; [lia|].
  specialize (IH (JsInt.or v (JsInt.shl (JsInt.and (byteZ b) 127) s)) (s + 7)).
  destruct (varintOf bytes _ _); simpl in *. lia.
Qed.

Lemma varintAt_varintOf keyBuffer offset reads :
  let r := varintAt keyBuffer offset reads in
  let vn := varintOf (skipn offset keyBuffer) 0 0 in
  vs_value r = fst vn /\ vs_offset r = (offset + snd vn)%nat /\
  vs_reads r = reads ++ seq offset (snd vn).
Proof.
  exact (readVarint_varintOf keyBuffer _ (mkVarint offset 0 0 reads) eq_refl).
Qed.

Lemma readKeyPrefix_prefixOf keyBuffer :
  let '(r1, r2, r3) := readKeyPrefix keyBuffer in
  let '(v1, v2, v3, n) := prefixOf keyBuffer in
  vs_value r1 = v1 /\ vs_value r2 = v2 /\ vs_value r3 = v3 /\
  vs_offset r3 = n /\ vs_reads r3 = seq 0 n /\ (n <= length keyBuffer)%nat.
Proof.
  unfold readKeyPrefix, prefixOf.
  destruct (varintAt_varintOf keyBuffer 0 []) as (A1 & B1 & C1).
  simpl skipn in *. simpl Nat.add in *. simpl app in C1.
  rewrite B1, C1.
  pose proof (varintOf_length keyBuffer 0 0) as L1.
  destruct (varintOf keyBuffer 0 0) as [v1 n1]. cbn [fst snd] in *.
  destruct (varintAt_varintOf keyBuffer n1 (seq 0 n1)) as (A2 & B2 & C2).
  rewrite B2, C2.
  pose proof (varintOf_length (skipn n1 keyBuffer) 0 0) as L2.
  destruct (varintOf (skipn n1 keyBuffer) 0 0) as [v2 n2]. cbn [fst snd] in *.
  destruct (varintAt_varintOf keyBuffer (n1 + n2) (seq 0 n1 ++ seq n1 n2)) as (A3 & B3 & C3).
  pose proof (varintOf_length (skipn (n1 + n2) keyBuffer) 0 0) as L3.
  destruct (varintOf (skipn (n1 + n2) keyBuffer) 0 0) as [v3 n3]. cbn [fst snd] in *.
  rewrite !length_skipn in *.
  repeat split; auto.
  - rewrite C3. rewrite !seq_app. reflexivity.
  - lia.
Qed.

Lemma lead_byte (x : byte) :
  match Utf8.lead (byteZ x) with
  | Utf8.Emit cp => (cp = 0 <-> byteZ x = 0) /\ 0 <= cp < 0x10000
  | Utf8.Continue st =>
    Utf8.needed st <> 0%nat /\ 0 <= Utf8.codePoint st /\
    (0 < Utf8.codePoint st \/ 0x80 < Utf8.lower st) /\
    Utf8.upper st <= 0xBF /\ byteZ x <> 0
  end.
Proof.
  destruct x; vm_compute; intuition (try discriminate; try congruence).
Qed.

Lemma continuation_bits cp b lower upper :
  0 <= cp -> (0 < cp \/ 0x80 < lower) -> upper <= 0xBF ->
  lower <= b <= upper -> 0 <= b ->
  0 < Z.lor (Z.shiftl cp 6) (Z.land b 0x3F).
Proof.
  intros Hcp Hpos Hup Hb Hb0.
  assert (0 <= Z.lor (Z.shiftl cp 6) (Z.land b 0x3F)) as Hnn.
  { apply Z.lor_nonneg. split; [apply Z.shiftl_nonneg; lia | apply Z.land_nonneg; lia]. }
  assert (Z.lor (Z.shiftl cp 6) (Z.land b 0x3F) <> 0); [|lia].
  rewrite Z.lor_eq_0_iff. intros [H1 H2].
  rewrite Z.shiftl_mul_pow2 in H1 by lia.
  change 63 with (Z.ones 6) in H2. rewrite Z.land_ones in H2 by lia.
  change (2 ^ 6) with 64 in *.
  destruct Hpos as [Hpos|Hpos]; [lia|].
  assert (b = 64 * (b / 64) + b mod 64) by (apply Z.div_mod; lia).
  lia.
Qed.

Lemma decode_open_head : forall bytes st,
  Utf8.needed st <> 0%nat -> 0 <= Utf8.codePoint st ->
  (0 < Utf8.codePoint st \/ 0x80 < Utf8.lower st) -> Utf8.upper st <= 0xBF ->
  exists cp tl, Utf8.decode st bytes = cp :: tl /\ 0 < cp.
Proof.
  induction bytes as [|x bytes IH]; intros st Hn Hcp Hpos Hup.
  - simpl. destruct (Utf8.needed st); [congruence|]. exists 0xFFFD, []. split; [reflexivity|lia].
  - cbn [Utf8.decode]. destruct (Utf8.needed st) as [|n] eqn:En; [congruence|].
    destruct ((Utf8.lower st <=? byteZ x) && (byteZ x <=? Utf8.upper st)) eqn:Er.
    + apply andb_prop in Er. destruct Er as [E1 E2].
      apply Z.leb_le in E1, E2. pose proof (byteZ_range x).
      pose proof (continuation_bits (Utf8.codePoint st) (byteZ x) _ _ Hcp Hpos Hup (conj E1 E2) ltac:(lia)) as Hgt.
      destruct n as [|n].
      * eexists _, _. split; [reflexivity|exact Hgt].
      * apply IH; cbn [Utf8.needed Utf8.codePoint Utf8.lower Utf8.upper];
          [discriminate | lia | left; exact Hgt | lia].
    + eexists _, _. split; [reflexivity|lia].
Qed.

Lemma utf16_head cp : 0 < cp -> exists c tl, Utf8.utf16 cp = c :: tl /\ 0 < c.
Proof.
  intros H. unfold Utf8.utf16. destruct (Z.ltb_spec cp 0x10000).
  - eexists _, _. split; [reflexivity|lia].
  - eexists _, _. split; [reflexivity|].
    assert (0 <= (cp - 65536) / 1024) by (apply Z.div_pos; lia). lia.
Qed.

(** The first code unit of the text of a non-empty buffer is 0 exactly when
    the first byte is 0. *)
Lemma toString_head x rest :
  exists c tl, Utf8.toString (x :: rest) = c :: tl /\ (c = 0 <-> byteZ x = 0).
Proof.
  unfold Utf8.toString. cbn [Utf8.decode Utf8.needed Utf8.initial].
  pose proof (lead_byte x) as Hl.
  destruct (Utf8.lead (byteZ x)) as [cp|st].
  - destruct Hl as [Hz Hr]. cbn [flat_map]. unfold Utf8.utf16 at 1.
    destruct (Z.ltb_spec cp 0x10000); [|lia].
    eexists _, _. split; [reflexivity|exact Hz].
  - destruct Hl as (Hn & Hcp & Hpos & Hup & Hx).
    destruct (decode_open_head rest st Hn Hcp Hpos Hup) as (cp & tl & -> & Hgt).
    cbn [flat_map]. destruct (utf16_head cp Hgt) as (c & tl' & -> & Hc).
    eexists _, _. split; [reflexivity|]. split; intros; [lia|contradiction].
Qed.

Lemma readDoubleBE_0 (buf : Buffer) :
  readDoubleBE buf 0 =
  if (8 <=? length buf)%nat
  then Normal (DoubleOfBits (bigEndian (firstn 8 buf)))
  else Throw RangeError_OUT_OF_RANGE.
Proof.
  unfold readDoubleBE, buffer_get. change (0 + 7)%nat with 7%nat. cbn [skipn].
  pose proof (nth_error_Some buf 7) as S7. pose proof (nth_error_None buf 7) as N7.
  pose proof (nth_error_None buf 0) as N0.
  destruct (nth_error buf 0); destruct (nth_error buf 7);
    destruct (Nat.leb_spec 8 (length buf)); try reflexivity; exfalso.
  - assert (7 < length buf)%nat by (apply S7; discriminate). lia.
  - assert (length buf <= 7)%nat by (apply N7; reflexivity). lia.
  - assert (length buf <= 0)%nat by (apply N0; reflexivity). lia.
  - assert (length buf <= 0)%nat by (apply N0; reflexivity). lia.
Qed.

(** The user key the code derives from a non-empty remainder, with the
    inner [catch] applied. *)
Lemma decodeUserKey_caught (remainder : Buffer) :
  remainder <> [] ->
  try_catch (k <- decodeUserKey remainder ;; Normal (Some k))%js
            (fun _ => Normal (Some (KeyBuffer remainder)))
  = Normal (remainderKey remainder).
Proof.
  destruct remainder as [|b t]; [congruence|]. intros _.
  unfold decodeUserKey, remainderKey.
  destruct (toString_head b t) as (c & tl & Hstr & Hc). rewrite Hstr.
  assert ((0 <? length (c :: tl))%nat && notZero (charCodeAt (c :: tl) 0)
          = negb (c =? 0)) as -> by reflexivity.
  destruct (Z.eqb_spec (byteZ b) 0) as [Hb|Hb].
  - apply Hc in Hb. subst c. cbn [Z.eqb negb].
    rewrite readDoubleBE_0.
    destruct (Nat.leb_spec (length (b :: t)) 8) as [H8|H8].
    + destruct (Nat.leb_spec 8 (length (b :: t))) as [H8'|H8'].
      * assert (length (b :: t) = 8%nat) as E by lia.
        rewrite (proj2 (Nat.eqb_eq _ _) E).
        rewrite firstn_all2 by lia. reflexivity.
      * destruct (Nat.eqb_spec (length (b :: t)) 8); [lia|]. reflexivity.
    + destruct (Nat.eqb_spec (length (b :: t)) 8); [lia|]. reflexivity.
  - destruct (Z.eqb_spec c 0) as [Hc0|Hc0]; [apply Hc in Hc0; contradiction|].
    reflexivity.
Qed.

Lemma parseIndexedDbKey_try_eq keyBuffer :
  let '(v1, v2, v3, n) := prefixOf keyBuffer in
  userKeyBuffer keyBuffer = skipn n keyBuffer /\
  parseIndexedDbKey_reads keyBuffer = seq 0 n /\
  (n <= length keyBuffer)%nat /\
  parseIndexedDbKey_try keyBuffer =
    Normal (mkCompositeKey v1 v2 v3 (remainderKey (skipn n keyBuffer))).
Proof.
  pose proof (readKeyPrefix_prefixOf keyBuffer) as H.
  unfold userKeyBuffer, parseIndexedDbKey_reads, parseIndexedDbKey_try.
  destruct (readKeyPrefix keyBuffer) as [[r1 r2] r3].
  destruct (prefixOf keyBuffer) as [[[v1 v2] v3] n].
  destruct H as (A1 & A2 & A3 & B & C & L).
  unfold buffer_slice. rewrite A1, A2, A3, B, C.
  repeat split; auto.
  destruct (skipn n keyBuffer) as [|b t] eqn:E.
  - reflexivity.
  - change (0 <? length (b :: t))%nat with true. cbv iota.
    rewrite decodeUserKey_caught by discriminate. reflexivity.
Qed.

Lemma parseIndexedDbKey_eq keyBuffer :
  let '(v1, v2, v3, n) := prefixOf keyBuffer in
  parseIndexedDbKey keyBuffer =
    Normal (Some (mkCompositeKey v1 v2 v3 (remainderKey (skipn n keyBuffer)))).
Proof.
  pose proof (parseIndexedDbKey_try_eq keyBuffer) as H.
  destruct (prefixOf keyBuffer) as [[[v1 v2] v3] n].
  destruct H as (_ & _ & _ & H). unfold parseIndexedDbKey. rewrite H. reflexivity.
Qed.

Lemma byteZ_byteOfZ z : 0 <= z < 256 -> byteZ (byteOfZ z) = z.
Proof.
  intros Hz. unfold byteOfZ, byteZ.
  destruct (Byte.of_N (Z.to_N z)) as [b|] eqn:E.
  - apply Byte.to_of_N in E. rewrite E. lia.
  - apply Byte.of_N_None_iff in E. lia.
Qed.

Lemma varintOf_unterminated bytes : forall v s,
  Forall continues bytes ->
  varintOf bytes v s = (accumulate bytes v s, length bytes).
Proof.
  induction bytes as [|b bytes IH]; intros v s H; [reflexivity|].
  inversion H as [|? ? Hb Hrest]; subst. unfold continues in Hb.
  cbn [varintOf accumulate length].
  destruct (Z.ltb_spec (byteZ b) 128); [lia|].
  rewrite IH by assumption. reflexivity.
Qed.

Lemma varintOf_terminated body last post : forall v s,
  Forall continues body -> byteZ last < 128 ->
  varintOf (body ++ last :: post) v s =
  (accumulate (body ++ [last]) v s, S (length body)).
Proof.
  induction body as [|b body IH]; intros v s H Hlast.
  - cbn [app varintOf accumulate length].
    destruct (Z.ltb_spec (byteZ last) 128); [reflexivity|lia].
  - inversion H as [|? ? Hb Hrest]; subst. unfold continues in Hb.
    cbn [app varintOf accumulate length].
    destruct (Z.ltb_spec (byteZ b) 128); [lia|].
    rewrite IH by assumption. reflexivity.
Qed.

Lemma base128_nonneg bytes : 0 <= base128 bytes.
Proof.
  induction bytes as [|b bytes IH]; cbn [base128]; [lia|].
  pose proof (Z.mod_pos_bound (byteZ b) 128 ltac:(lia)). lia.
Qed.

(** While no shift reaches 32 and the sum stays below 2^31, the loop adds
    up the base-128 digits. *)
Lemma accumulate_base128 bytes : forall acc s,
  0 <= s -> 0 <= acc < 2 ^ s ->
  s + 7 * (Z.of_nat (length bytes) - 1) < 32 ->
  acc + base128 bytes * 2 ^ s < 2 ^ 31 ->
  accumulate bytes acc s = acc + base128 bytes * 2 ^ s.
Proof.
  induction bytes as [|b bytes IH]; intros acc s Hs Hacc Hlen Hsum.
  - simpl. lia.
  - cbn [accumulate base128] in *. cbn [length] in Hlen.
    pose proof (base128_nonneg bytes) as Hnn.
    pose proof (Z.mod_pos_bound (byteZ b) 128 ltac:(lia)) as Hm.
    assert (0 < 2 ^ s) as Hp by (apply Z.pow_pos_nonneg; lia).
    assert (2 ^ (s + 7) = 128 * 2 ^ s) as Hp7
      by (rewrite Z.pow_add_r by lia; change (2 ^ 7) with 128; lia).
    rewrite and_0x7F.
    rewrite or_shl_add; [|lia|lia|lia|nia].
    rewrite IH; [nia| lia| nia| lia| nia].
Qed.

Lemma encodeVarint_go_shape : forall fuel n,
  (1 <= fuel)%nat -> 0 <= n < 2 ^ (7 * Z.of_nat fuel) ->
  exists body last,
    encodeVarint_go fuel n = body ++ [last] /\
    Forall continues body /\ byteZ last < 128 /\
    base128 (body ++ [last]) = n.
Proof.
  induction fuel as [|fuel IH]; intros n Hf Hn; [lia|].
  cbn [encodeVarint_go]. destruct (Z.ltb_spec n 128) as [Hlt|Hge].
  - exists [], (byteOfZ n). cbn [app base128].
    rewrite byteZ_byteOfZ by lia. repeat split; auto; try lia.
    rewrite Z.mod_small by lia. lia.
  - assert (1 <= fuel)%nat as Hf'.
    { destruct fuel; [|lia]. simpl in Hn. lia. }
    assert (0 <= n / 128 < 2 ^ (7 * Z.of_nat fuel)) as Hq.
    { split; [apply Z.div_pos; lia|].
      apply Z.div_lt_upper_bound; [lia|].
      replace (7 * Z.of_nat (S fuel)) with (7 + 7 * Z.of_nat fuel) in Hn by lia.
      rewrite Z.pow_add_r in Hn by lia. change (2 ^ 7) with 128 in Hn. lia. }
    destruct (IH (n / 128) Hf' Hq) as (body & last & E & Hc & Hl & Hb).
    pose proof (Z.mod_pos_bound n 128 ltac:(lia)) as Hm.
    exists (byteOfZ (n mod 128 + 128) :: body), last.
    rewrite E. repeat split; auto.
    + constructor; auto. unfold continues. rewrite byteZ_byteOfZ by lia. lia.
    + cbn [app base128]. rewrite Hb, byteZ_byteOfZ by lia.
      replace ((n mod 128 + 128) mod 128) with (n mod 128).
      * pose proof (Z.div_mod n 128 ltac:(lia)). lia.
      * symmetry. replace (n mod 128 + 128) with (n mod 128 + 1 * 128) by lia.
        rewrite Z.mod_add by lia. apply Z.mod_mod. lia.
Qed.

Lemma encodeVarint_go_length : forall fuel k n,
  1 <= k -> 0 <= n < 2 ^ (7 * k) ->
  Z.of_nat (length (encodeVarint_go fuel n)) <= k.
Proof.
  induction fuel as [|fuel IH]; intros k n Hk Hn; [simpl; lia|].
  cbn [encodeVarint_go]. destruct (Z.ltb_spec n 128) as [Hlt|Hge].
  - simpl. lia.
  - assert (2 <= k) as Hk2.
    { destruct (Z.eq_dec k 1) as [->|]; [|lia]. simpl in Hn. lia. }
    cbn [length]. rewrite Nat2Z.inj_succ.
    assert (Z.of_nat (length (encodeVarint_go fuel (n / 128))) <= k - 1); [|lia].
    apply IH; [lia|]. split; [apply Z.div_pos; lia|].
    apply Z.div_lt_upper_bound; [lia|].
    replace (7 * k) with (7 + 7 * (k - 1)) in Hn by lia.
    rewrite Z.pow_add_r in Hn by lia. change (2 ^ 7) with 128 in Hn. lia.
Qed.

Lemma encodeVarint_shape n :
  0 <= n ->
  exists body last,
    encodeVarint n = body ++ [last] /\
    Forall continues body /\ byteZ last < 128 /\
    base128 (body ++ [last]) = n.
Proof.
  intros Hn. unfold encodeVarint. apply encodeVarint_go_shape; [lia|].
  split; [lia|].
  destruct (Z.eq_dec n 0) as [->|Hne].
  - apply Z.pow_pos_nonneg; lia.
  - pose proof (Z.log2_spec n ltac:(lia)) as [_ Hu].
    pose proof (Z.log2_nonneg n).
    eapply Z.lt_le_trans; [exact Hu|].
    apply Z.pow_le_mono_r; lia.
Qed.

(** A field below 2^31 is read back from its encoding, whatever follows. *)
Lemma varintOf_encodeVarint n post :
  0 <= n < 2 ^ 31 ->
  varintOf (encodeVarint n ++ post) 0 0 = (n, length (encodeVarint n)).
Proof.
  intros Hn.
  destruct (encodeVarint_shape n ltac:(lia)) as (body & last & E & Hc & Hl & Hb).
  pose proof (encodeVarint_go_length (S (Z.to_nat (Z.log2 n))) 5 n ltac:(lia) ltac:(simpl; lia)) as Hlen.
  fold (encodeVarint n) in Hlen.
  rewrite E in *. rewrite <- app_assoc. cbn [app].
  rewrite varintOf_terminated by assumption.
  rewrite accumulate_base128; rewrite ?Hb; try lia.
  rewrite length_app. cbn [length]. f_equal; lia.
Qed.

(** ** C1: varint round trip *)

Lemma skipn_length_app {A} (l l' : list A) : skipn (length l) (l ++ l') = l'.
Proof. induction l; simpl; auto. Qed.

Lemma prefixOf_three a b c rest :
  0 <= a < 2 ^ 31 -> 0 <= b < 2 ^ 31 -> 0 <= c < 2 ^ 31 ->
  let buf := encodeVarint a ++ encodeVarint b ++ encodeVarint c ++ rest in
  exists n, prefixOf buf = (a, b, c, n) /\ skipn n buf = rest.
Proof.
  intros Ha Hb Hc buf. subst buf. unfold prefixOf.
  rewrite varintOf_encodeVarint by assumption.
  rewrite skipn_length_app.
  rewrite varintOf_encodeVarint by assumption.
  rewrite (app_assoc (encodeVarint a)), <- length_app, skipn_length_app.
  rewrite varintOf_encodeVarint by assumption.
  eexists. split; [reflexivity|].
  rewrite (app_assoc (encodeVarint a ++ encodeVarint b)), <- length_app.
  apply skipn_length_app.
Qed.

Lemma varintOf_encodeVarint_end n :
  0 <= n < 2 ^ 31 ->
  varintOf (encodeVarint n) 0 0 = (n, length (encodeVarint n)).
Proof.
  intros Hn. pose proof (varintOf_encodeVarint n [] Hn) as H.
  rewrite app_nil_r in H. exact H.
Qed.

Lemma prefixOf_two a b :
  0 <= a < 2 ^ 31 -> 0 <= b < 2 ^ 31 ->
  let buf := encodeVarint a ++ encodeVarint b in
  exists n, prefixOf buf = (a, b, 0, n) /\ skipn n buf = [].
Proof.
  intros Ha Hb buf. subst buf. unfold prefixOf.
  rewrite varintOf_encodeVarint by assumption.
  rewrite skipn_length_app.
  rewrite varintOf_encodeVarint_end by assumption.
  rewrite <- length_app, skipn_all. cbn [varintOf].
  eexists. split; [reflexivity|].
  rewrite Nat.add_0_r. apply skipn_all.
Qed.

Lemma prefixOf_one a :
  0 <= a < 2 ^ 31 ->
  let buf := encodeVarint a in
  exists n, prefixOf buf = (a, 0, 0, n) /\ skipn n buf = [].
Proof.
  intros Ha buf. subst buf. unfold prefixOf.
  rewrite varintOf_encodeVarint_end by assumption.
  rewrite skipn_all. cbn [varintOf].
  rewrite Nat.add_0_r, skipn_all. cbn [varintOf].
  eexists. split; [reflexivity|].
  rewrite Nat.add_0_r. apply skipn_all.
Qed.

(** C1 (as amended).  Varint round trip below 2^31: for at most three
    fields, each a non-negative integer below 2^31, encoded in base 128 and
    put one after the other (followed by any user-key bytes when all three
    are there), parseIndexedDbKey returns a record whose databaseId,
    objectStoreId and indexId are the fields, in order, with 0 for a field
    that was not encoded; what follows the fields is the user-key region. *)
Theorem C1_varint_round_trip_int32 (fields : list Z) (rest : Buffer) :
  (length fields <= 3)%nat ->
  ((length fields < 3)%nat -> rest = []) ->
  Forall (fun n => 0 <= n < 2 ^ 31) fields ->
  exists r,
    parseIndexedDbKey (encodeFields fields ++ rest) = Normal (Some r) /\
    ids r = fields ++ repeat 0 (3 - length fields) /\
    userKeyBuffer (encodeFields fields ++ rest) = rest.
Proof.
  intros Hlen Hrest Hall.
  pose proof (parseIndexedDbKey_eq (encodeFields fields ++ rest)) as Hp.
  pose proof (parseIndexedDbKey_try_eq (encodeFields fields ++ rest)) as Ht.
  destruct fields as [|a [|b [|c [|d fields]]]]; cbn [length] in *; try lia.
  - rewrite (Hrest ltac:(lia)) in *. cbn in Hp, Ht |- *.
    destruct Ht as (Hu & _). eexists. split; [exact Hp|]. split; [reflexivity|exact Hu].
  - rewrite (Hrest ltac:(lia)) in *. inversion Hall; subst.
    unfold encodeFields in *. cbn [flat_map] in *. rewrite !app_nil_r in *.
    destruct (prefixOf_one a ltac:(assumption)) as (n & E & Hs).
    rewrite E in Hp, Ht. destruct Ht as (Hu & _). rewrite Hs in *.
    eexists. split; [exact Hp|]. split; [reflexivity|exact Hu].
  - rewrite (Hrest ltac:(lia)) in *.
    inversion Hall as [|? ? Ha Hall']; subst. inversion Hall' as [|? ? Hb ?]; subst.
    unfold encodeFields in *. cbn [flat_map] in *. rewrite !app_nil_r in *.
    destruct (prefixOf_two a b Ha Hb) as (n & E & Hs).
    rewrite E in Hp, Ht. destruct Ht as (Hu & _). rewrite Hs in *.
    eexists. split; [exact Hp|]. split; [reflexivity|exact Hu].
  - inversion Hall as [|? ? Ha Hall']; subst. inversion Hall' as [|? ? Hb Hall'']; subst.
    inversion Hall'' as [|? ? Hc ?]; subst.
    unfold encodeFields in *. cbn [flat_map] in *. rewrite !app_nil_r in *.
    rewrite <- !app_assoc in *.
    destruct (prefixOf_three a b c rest Ha Hb Hc) as (n & E & Hs).
    rewrite E in Hp, Ht. destruct Ht as (Hu & _). rewrite Hs in *.
    eexists. split; [exact Hp|]. split; [reflexivity|exact Hu].
Qed.

Lemma C1_varint_round_trip_int32_witness :
  exists r,
    parseIndexedDbKey (encodeFields [300; 2; 2 ^ 31 - 1] ++ [x74; x31])
      = Normal (Some r) /\
    ids r = [300; 2; 2 ^ 31 - 1] ++ repeat 0 (3 - 3) /\
    userKeyBuffer (encodeFields [300; 2; 2 ^ 31 - 1] ++ [x74; x31]) = [x74; x31].
Proof.
  apply (C1_varint_round_trip_int32 [300; 2; 2 ^ 31 - 1] [x74; x31]).
  - simpl; lia.
  - simpl; lia.
  - repeat constructor; lia.
Defined.

(** C1 as the design document states it fails: 2^31 is below 2^35, its
    encoding is 80 80 80 80 08, and the fifth byte is shifted into the sign
    bit of a 32-bit integer, so the decoded databaseId is -2^31. *)
Lemma C1_counterexample :
  let fields := [2 ^ 31] in
  (length fields <= 3)%nat /\
  Forall (fun n => 0 <= n < 2 ^ 35) fields /\
  encodeFields fields = [x80; x80; x80; x80; x08] /\
  exists r,
    parseIndexedDbKey (encodeFields fields) = Normal (Some r) /\
    databaseId r = - 2 ^ 31 /\
    ids r <> fields ++ repeat 0 (3 - length fields).
Proof.
  cbv zeta. split; [simpl; lia|]. split; [repeat constructor; lia|].
  split; [reflexivity|].
  eexists. split; [vm_compute; reflexivity|]. split; [reflexivity|].
  vm_compute. discriminate.
Qed.

(** ** C2: the decode is bounded and total *)

Lemma varintOf_field f post :
  completeField f ->
  varintOf (f ++ post) 0 0 = (accumulate f 0 0, length f).
Proof.
  intros (body & last & -> & Hc & Hl).
  rewrite <- app_assoc. cbn [app].
  rewrite varintOf_terminated by assumption.
  rewrite length_app. cbn [length]. f_equal. lia.
Qed.

Lemma base128_bound bytes : base128 bytes < 2 ^ (7 * Z.of_nat (length bytes)).
Proof.
  induction bytes as [|b bytes IH]; [simpl; lia|].
  cbn [base128 length]. rewrite Nat2Z.inj_succ.
  replace (7 * Z.succ (Z.of_nat (length bytes))) with (7 + 7 * Z.of_nat (length bytes)) by lia.
  rewrite Z.pow_add_r by lia. change (2 ^ 7) with 128.
  pose proof (Z.mod_pos_bound (byteZ b) 128 ltac:(lia)). lia.
Qed.

Lemma accumulate_short bytes :
  (length bytes <= 4)%nat -> accumulate bytes 0 0 = base128 bytes.
Proof.
  intros Hlen.
  pose proof (base128_bound bytes) as Hb.
  assert (2 ^ (7 * Z.of_nat (length bytes)) <= 2 ^ 28) as Hp
    by (apply Z.pow_le_mono_r; lia).
  rewrite accumulate_base128; simpl (2 ^ 0); try lia.
Qed.

(** C2.  parseIndexedDbKey is total and bounded.  For every buffer it
    returns a record (it does not throw and does not return null).  Every
    turn of one of its three loops indexes the buffer once, and the offsets
    indexed are 0, 1, ..., n-1 for some n that is at most the length: so the
    loops take at most length-many turns together and never index past the
    end.  When the bytes run out before a field is ended (every byte from
    the start of the field on has its continuation bit set, or there is no
    byte left), the field is what the loop had accumulated, the later
    fields are 0 and the user-key region is empty (userKey is null).  Up to
    four accumulated bytes, the accumulated value is the number with their
    low seven bits as base-128 digits. *)
Theorem C2_bounded_total_decode (keyBuffer : Buffer) :
  (exists r, parseIndexedDbKey keyBuffer = Normal (Some r)) /\
  (exists n, parseIndexedDbKey_reads keyBuffer = seq 0 n /\
             (n <= length keyBuffer)%nat) /\
  (length (parseIndexedDbKey_reads keyBuffer) <= length keyBuffer)%nat /\
  Forall (fun i => (i < length keyBuffer)%nat) (parseIndexedDbKey_reads keyBuffer) /\
  (Forall continues keyBuffer ->
     userKeyBuffer keyBuffer = [] /\
     parseIndexedDbKey keyBuffer =
       Normal (Some (mkCompositeKey (accumulate keyBuffer 0 0) 0 0 None))) /\
  (forall f1 tail,
     keyBuffer = f1 ++ tail -> completeField f1 -> Forall continues tail ->
     userKeyBuffer keyBuffer = [] /\
     parseIndexedDbKey keyBuffer =
       Normal (Some (mkCompositeKey (accumulate f1 0 0) (accumulate tail 0 0) 0 None))) /\
  (forall f1 f2 tail,
     keyBuffer = f1 ++ f2 ++ tail -> completeField f1 -> completeField f2 ->
     Forall continues tail ->
     userKeyBuffer keyBuffer = [] /\
     parseIndexedDbKey keyBuffer =
       Normal (Some (mkCompositeKey (accumulate f1 0 0) (accumulate f2 0 0)
                                    (accumulate tail 0 0) None))) /\
  (forall bytes, (length bytes <= 4)%nat -> accumulate bytes 0 0 = base128 bytes).
Proof.
  pose proof (parseIndexedDbKey_eq keyBuffer) as Hp.
  pose proof (parseIndexedDbKey_try_eq keyBuffer) as Ht.
  destruct (prefixOf keyBuffer) as [[[v1 v2] v3] n] eqn:E.
  destruct Ht as (Hu & Hr & Hn & _).
  split; [eexists; exact Hp|].
  split; [exists n; split; assumption|].
  split; [rewrite Hr, length_seq; exact Hn|].
  split.
  { rewrite Hr. apply Forall_forall. intros i Hi. apply in_seq in Hi. lia. }
  split.
  { intros Hc. unfold prefixOf in E.
    rewrite varintOf_unterminated in E by assumption.
    rewrite skipn_all in E. cbn [varintOf] in E.
    rewrite Nat.add_0_r, skipn_all in E. cbn [varintOf] in E.
    inversion E; subst. rewrite Hu, Hp.
    rewrite Nat.add_0_r, skipn_all. split; reflexivity. }
  split.
  { intros f1 tail -> Hf1 Hc. unfold prefixOf in E.
    rewrite varintOf_field in E by assumption.
    rewrite skipn_length_app in E.
    rewrite varintOf_unterminated in E by assumption.
    rewrite <- length_app, skipn_all in E. cbn [varintOf] in E.
    inversion E; subst. rewrite Hu, Hp.
    rewrite Nat.add_0_r, skipn_all. split; reflexivity. }
  split.
  { intros f1 f2 tail -> Hf1 Hf2 Hc. unfold prefixOf in E.
    rewrite varintOf_field in E by assumption.
    rewrite skipn_length_app in E.
    rewrite varintOf_field in E by assumption.
    rewrite (app_assoc f1), <- length_app, skipn_length_app in E.
    rewrite varintOf_unterminated in E by assumption.
    inversion E; subst. rewrite Hu, Hp.
    rewrite <- length_app, <- app_assoc, skipn_all. split; reflexivity. }
  apply accumulate_short.
Qed.

Lemma C2_bounded_total_decode_witness :
  userKeyBuffer [x01; x85; x82] = [] /\
  parseIndexedDbKey [x01; x85; x82] =
    Normal (Some (mkCompositeKey (accumulate [x01] 0 0)
                                 (accumulate [x85; x82] 0 0) 0 None)).
Proof.
  apply (proj1 (proj2 (proj2 (proj2 (proj2 (proj2
           (C2_bounded_total_decode [x01; x85; x82]))))))
         [x01] [x85; x82]).
  - reflexivity.
  - exists [], x01. split; [reflexivity|]. split; [constructor|]. vm_compute. reflexivity.
  - repeat constructor; vm_compute; discriminate.
Defined.

(** ** C3: the user key *)

(** C3 (as amended).  After the three varint fields, the bytes left are
    decoded as follows: no byte left gives a null userKey; a first byte that
    is not 0 gives the UTF-8 text of the remainder; a first byte 0 gives the
    big-endian IEEE-754 double read from the remainder when it is exactly 8
    bytes long, and the raw remainder bytes otherwise (when it is shorter
    the read of the double fails and the bytes are kept). *)
Theorem C3_user_key_priority (keyBuffer : Buffer) :
  let remainder := userKeyBuffer keyBuffer in
  exists r,
    parseIndexedDbKey keyBuffer = Normal (Some r) /\
    (remainder = [] -> userKey r = None) /\
    (forall b t, remainder = b :: t -> byteZ b <> 0 ->
       userKey r = Some (KeyString (Utf8.toString remainder))) /\
    (forall b t, remainder = b :: t -> byteZ b = 0 -> length remainder = 8%nat ->
       userKey r = Some (KeyNumber (DoubleOfBits (bigEndian remainder)))) /\
    (forall b t, remainder = b :: t -> byteZ b = 0 -> length remainder <> 8%nat ->
       userKey r = Some (KeyBuffer remainder)).
Proof.
  cbv zeta.
  pose proof (parseIndexedDbKey_eq keyBuffer) as Hp.
  pose proof (parseIndexedDbKey_try_eq keyBuffer) as Ht.
  destruct (prefixOf keyBuffer) as [[[v1 v2] v3] n].
  destruct Ht as (Hu & _). rewrite Hu.
  eexists. split; [exact Hp|]. cbn [userKey].
  split; [intros ->; reflexivity|].
  split; [|split]; intros b t -> Hb; unfold remainderKey.
  - destruct (Z.eqb_spec (byteZ b) 0); [contradiction|reflexivity].
  - intros H8. rewrite Hb. cbn [Z.eqb]. rewrite H8. reflexivity.
  - intros H8. rewrite Hb. cbn [Z.eqb].
    destruct (Nat.eqb_spec (length (b :: t)) 8); [contradiction|reflexivity].
Qed.

Lemma C3_user_key_priority_witness :
  exists r,
    parseIndexedDbKey [x00; x02; x00; x74; x31] = Normal (Some r) /\
    userKey r = Some (KeyString (Utf8.toString [x74; x31])).
Proof.
  destruct (C3_user_key_priority [x00; x02; x00; x74; x31]) as (r & Hp & _ & Hs & _).
  exists r. split; [exact Hp|].
  apply (Hs x74 [x31]); [reflexivity | vm_compute; discriminate].
Defined.

(** C3 as the design document states it fails: two bytes are left, the first
    is 0 and two is at most eight, yet the userKey is not a number, it is the
    two raw bytes; and with no byte left the userKey is null, not a number. *)
Lemma C3_counterexample :
  let keyBuffer := [x00; x00; x00; x00; x01] in
  userKeyBuffer keyBuffer = [x00; x01] /\
  (length (userKeyBuffer keyBuffer) <= 8)%nat /\
  parseIndexedDbKey keyBuffer =
    Normal (Some (mkCompositeKey 0 0 0 (Some (KeyBuffer [x00; x01])))) /\
  userKeyBuffer [x00; x00; x00] = [] /\
  parseIndexedDbKey [x00; x00; x00] = Normal (Some (mkCompositeKey 0 0 0 None)).
Proof.
  cbv zeta. split; [vm_compute; reflexivity|].
  split; [vm_compute; lia|].
  repeat split; vm_compute; reflexivity.
Qed.

(** ** C4, C5: the value codec *)

Section ValueCodecFacts.

Context {JSValue : Type}.
Variable JSON_parse : jsstring -> Completion JSValue.

Lemma decodeIndexedDbValue_eq (valueBuffer : Buffer) :
  decodeIndexedDbValue JSON_parse valueBuffer =
  Normal (if braced (Utf8.toString valueBuffer) then
            match JSON_parse (Utf8.toString valueBuffer) with
            | Normal v => Structured v
            | Throw _ => Opaque valueBuffer
            end
          else Opaque valueBuffer).
Proof.
  unfold decodeIndexedDbValue, decodeIndexedDbValue_try, braced.
  destruct (startsWithChar _ char_lbrace || startsWithChar _ char_lbracket);
    [|reflexivity].
  destruct (JSON_parse (Utf8.toString valueBuffer)); reflexivity.
Qed.

Lemma extractJson_eq (d : DecodedValue JSValue) :
  extractJson JSON_parse d =
  Normal (match d with
          | Structured _ => d
          | Opaque buf =>
            match Regex.search (Utf8.toString buf) with
            | Some m => match JSON_parse m with
                        | Normal v => Structured v
                        | Throw _ => d
                        end
            | None => d
            end
          end).
Proof.
  destruct d as [v|buf]; [reflexivity|]. unfold extractJson.
  destruct (Regex.search (Utf8.toString buf)) as [m|]; [|reflexivity].
  destruct (JSON_parse m); reflexivity.
Qed.

Lemma decodeEntryValue_normal (valueBuffer : Buffer) :
  exists d, decodeEntryValue JSON_parse valueBuffer = Normal d.
Proof.
  unfold decodeEntryValue. rewrite decodeIndexedDbValue_eq. cbn [bind].
  rewrite extractJson_eq. eexists. reflexivity.
Qed.

End ValueCodecFacts.

(** C4.  decodeIndexedDbValue reads the whole buffer as UTF-8 text.  When
    the text starts with an opening brace or bracket and JSON.parse accepts
    it, the result is the parsed value; when the text does not start so, or
    JSON.parse throws, the result is the buffer itself.  With the second
    attempt of the scan (the text matched by the regular expression) the
    same holds: when that attempt finds no match or its parse throws too,
    the value stays the buffer, unchanged.  Neither step throws, whatever
    JSON.parse does.  The bytes of the text of an object with the one member
    a : 1 give that object; the bytes FF 00 10 give the buffer of these three
    bytes. *)
Theorem C4_value_decode :
  (forall (JSValue : Type) (JSON_parse : jsstring -> Completion JSValue)
          (valueBuffer : Buffer),
     let str := Utf8.toString valueBuffer in
     (exists d, decodeIndexedDbValue JSON_parse valueBuffer = Normal d) /\
     (exists d, decodeEntryValue JSON_parse valueBuffer = Normal d) /\
     (forall v, braced str = true -> JSON_parse str = Normal v ->
        decodeIndexedDbValue JSON_parse valueBuffer = Normal (Structured v) /\
        decodeEntryValue JSON_parse valueBuffer = Normal (Structured v)) /\
     (braced str = false \/ (exists e, JSON_parse str = Throw e) ->
        decodeIndexedDbValue JSON_parse valueBuffer = Normal (Opaque valueBuffer) /\
        (Regex.search str = None \/
         (exists m e, Regex.search str = Some m /\ JSON_parse m = Throw e) ->
         decodeEntryValue JSON_parse valueBuffer = Normal (Opaque valueBuffer)))) /\
  Utf8.toString [x7b; x22; x61; x22; x3a; x31; x7d]
    = [0x7B; 0x22; 0x61; 0x22; 0x3A; 0x31; 0x7D] /\
  decodeIndexedDbValue Json.parse [x7b; x22; x61; x22; x3a; x31; x7d]
    = Normal (Structured (Json.JObject [([0x61], Json.JNumber false 1 0)])) /\
  decodeEntryValue Json.parse [x7b; x22; x61; x22; x3a; x31; x7d]
    = Normal (Structured (Json.JObject [([0x61], Json.JNumber false 1 0)])) /\
  (forall (JSValue : Type) (JSON_parse : jsstring -> Completion JSValue),
     decodeIndexedDbValue JSON_parse [xff; x00; x10] = Normal (Opaque [xff; x00; x10]) /\
     decodeEntryValue JSON_parse [xff; x00; x10] = Normal (Opaque [xff; x00; x10])).
Proof.
  split.
  { intros JSValue JSON_parse valueBuffer str. subst str.
    split; [rewrite decodeIndexedDbValue_eq; eexists; reflexivity|].
    split; [apply decodeEntryValue_normal|].
    split.
    - intros v Hb Hv. unfold decodeEntryValue.
      rewrite decodeIndexedDbValue_eq, Hb, Hv. split; reflexivity.
    - intros Hfail.
      assert (decodeIndexedDbValue JSON_parse valueBuffer = Normal (Opaque valueBuffer)) as Hd.
      { rewrite decodeIndexedDbValue_eq. destruct Hfail as [->|[e ->]]; [reflexivity|].
        destruct (braced _); reflexivity. }
      split; [exact Hd|]. intros Hsecond.
      unfold decodeEntryValue. rewrite Hd. cbn [bind]. rewrite extractJson_eq.
      destruct Hsecond as [->|(m & e & -> & ->)]; reflexivity. }
  split; [vm_compute; reflexivity|].
  split; [vm_compute; reflexivity|].
  split; [vm_compute; reflexivity|].
  intros JSValue JSON_parse. unfold decodeEntryValue.
  rewrite decodeIndexedDbValue_eq.
  change (Utf8.toString [xff; x00; x10]) with [0xFFFD; 0; 0x10].
  split; reflexivity.
Qed.

Lemma C4_value_decode_witness :
  decodeIndexedDbValue Json.parse [x5b; x31; x5d]
    = Normal (Structured (Json.JArray [Json.JNumber false 1 0])) /\
  decodeEntryValue Json.parse [x5b; x31; x5d]
    = Normal (Structured (Json.JArray [Json.JNumber false 1 0])).
Proof.
  apply (proj1 (proj2 (proj2 (proj1 C4_value_decode _ Json.parse [x5b; x31; x5d])))).
  - vm_compute. reflexivity.
  - vm_compute. reflexivity.
Defined.

(** *** The regular expression *)

Lemma upToLast_None close run :
  Regex.upToLast close run = None <-> ~ In close run.
Proof.
  induction run as [|c t IH]; cbn [Regex.upToLast In]; [tauto|].
  destruct (Regex.upToLast close t) as [m|].
  - split; [discriminate|]. intros H. exfalso.
    assert (~ In close t) as Hn by tauto. apply IH in Hn. discriminate.
  - destruct (Z.eqb_spec c close) as [->|Hne].
    + split; [discriminate|]. intros H. exfalso. apply H. left. reflexivity.
    + split; [|reflexivity]. intros _ [E|Hin]; [congruence|].
      apply (proj1 IH); [reflexivity|exact Hin].
Qed.

Lemma upToLast_Some close run m :
  Regex.upToLast close run = Some m ->
  exists body post,
    m = body ++ [close] /\ run = m ++ post /\ ~ In close post.
Proof.
  revert m. induction run as [|c t IH]; intros m H; cbn [Regex.upToLast] in H;
    [discriminate|].
  destruct (Regex.upToLast close t) as [m'|] eqn:E.
  - inversion H; subst. destruct (IH m' eq_refl) as (body & post & -> & -> & Hn).
    exists (c :: body), post. repeat split; auto.
  - destruct (Z.eqb_spec c close) as [->|Hne]; [|discriminate].
    inversion H; subst. exists [], t. repeat split.
    apply upToLast_None. exact E.
Qed.

Lemma dotRun_spec s :
  exists rest,
    s = Regex.dotRun s ++ rest /\
    Forall (fun c => Regex.isLineTerminator c = false) (Regex.dotRun s) /\
    stopsRun rest.
Proof.
  induction s as [|c t (rest & E & H & Hs)]; cbn [Regex.dotRun].
  - exists []. split; [reflexivity|]. split; [constructor|left; reflexivity].
  - destruct (Regex.isLineTerminator c) eqn:Ec.
    + exists (c :: t). split; [reflexivity|]. split; [constructor|].
      right. exists c, t. split; [reflexivity|exact Ec].
    + exists rest. split; [cbn [app]; congruence|].
      split; [constructor; assumption|exact Hs].
Qed.

Lemma dotRun_app_stop run rest :
  Forall (fun c => Regex.isLineTerminator c = false) run -> stopsRun rest ->
  Regex.dotRun (run ++ rest) = run.
Proof.
  intros Hrun Hs. induction Hrun as [|c run Hc _ IH]; cbn [app Regex.dotRun].
  - destruct Hs as [->|(c & r & -> & Hc)]; [reflexivity|].
    cbn [Regex.dotRun]. rewrite Hc. reflexivity.
  - rewrite Hc, IH. reflexivity.
Qed.

Lemma Forall_app_l {A} (P : A -> Prop) l l' : Forall P (l ++ l') -> Forall P l.
Proof. intros H. apply Forall_app in H. tauto. Qed.

Lemma Forall_app_r {A} (P : A -> Prop) l l' : Forall P (l ++ l') -> Forall P l'.
Proof. intros H. apply Forall_app in H. tauto. Qed.

Lemma bracketed_Some opening closing s m :
  Regex.bracketed opening closing s = Some m ->
  exists body post,
    m = opening :: body ++ [closing] /\ s = m ++ post /\
    Forall (fun c => Regex.isLineTerminator c = false) body /\
    ~ In closing (Regex.dotRun post).
Proof.
  unfold Regex.bracketed. destruct s as [|c t]; [discriminate|].
  destruct (Z.eqb_spec c opening) as [->|]; [|discriminate].
  destruct (Regex.upToLast closing (Regex.dotRun t)) as [m'|] eqn:E; [|discriminate].
  cbn [option_map]. intros H. inversion H; subst. clear H.
  destruct (upToLast_Some _ _ _ E) as (body & post' & -> & Hrun & Hn).
  destruct (dotRun_spec t) as (rest & Ht & Hf & Hs).
  exists body, (post' ++ rest). split; [reflexivity|].
  rewrite Hrun in Ht, Hf.
  split; [cbn [app]; f_equal; rewrite Ht at 1; rewrite <- !app_assoc; reflexivity|].
  split.
  - apply Forall_app_l in Hf. apply Forall_app_l in Hf. exact Hf.
  - apply Forall_app_r in Hf. rewrite dotRun_app_stop by assumption. exact Hn.
Qed.

Lemma matchHere_Some s m :
  Regex.matchHere s = Some m ->
  exists opening closing body post,
    ((opening = char_lbrace /\ closing = char_rbrace) \/
     (opening = char_lbracket /\ closing = char_rbracket)) /\
    m = opening :: body ++ [closing] /\ s = m ++ post /\
    Forall (fun c => Regex.isLineTerminator c = false) body /\
    ~ In closing (Regex.dotRun post).
Proof.
  unfold Regex.matchHere.
  destruct (Regex.bracketed char_lbrace char_rbrace s) as [m'|] eqn:E.
  - intros H. inversion H; subst.
    destruct (bracketed_Some _ _ _ _ E) as (body & post & H1 & H2 & H3 & H4).
    exists char_lbrace, char_rbrace, body, post. auto 10.
  - intros E'.
    destruct (bracketed_Some _ _ _ _ E') as (body & post & H1 & H2 & H3 & H4).
    exists char_lbracket, char_rbracket, body, post. auto 10.
Qed.

Lemma search_Some s : forall m,
  Regex.search s = Some m ->
  exists pre post,
    s = pre ++ m ++ post /\
    Regex.matchHere (m ++ post) = Some m /\
    (forall k, (k < length pre)%nat -> Regex.matchHere (skipn k s) = None).
Proof.
  induction s as [|c t IH]; intros m H.
  - cbn in H. discriminate.
  - cbn [Regex.search] in H.
    destruct (Regex.matchHere (c :: t)) as [m'|] eqn:E.
    + inversion H; subst.
      destruct (matchHere_Some _ _ E) as (o & cl & body & post & _ & _ & Hs & _).
      exists [], post. cbn [app length]. split; [exact Hs|].
      split; [rewrite <- Hs; exact E|]. intros k Hk. lia.
    + destruct (IH m H) as (pre & post & Hs & Hm & Hleft).
      exists (c :: pre), post. split; [cbn [app]; congruence|]. split; [exact Hm|].
      intros [|k] Hk; [exact E|]. cbn [skipn]. apply Hleft. cbn [length] in Hk. lia.
Qed.

(** C5 (as amended).  When decodeIndexedDbValue has kept the buffer (the whole text was
    not tried or its parse failed), the scan searches the text with the
    regular expression.  What it finds is, at the first position from the
    left where the expression matches, the text from an opening brace to the
    last closing brace before the end of the line (or from an opening
    bracket to the last closing bracket, when no brace match starts there).
    If JSON.parse accepts this text, the stored value is the value of this
    text alone: what is before and after it in the buffer is dropped. *)
Theorem C5_substring_fallback (JSValue : Type)
        (JSON_parse : jsstring -> Completion JSValue)
        (valueBuffer : Buffer) (jsonMatch : jsstring) (v : JSValue) :
  let str := Utf8.toString valueBuffer in
  decodeIndexedDbValue JSON_parse valueBuffer = Normal (Opaque valueBuffer) ->
  Regex.search str = Some jsonMatch ->
  JSON_parse jsonMatch = Normal v ->
  decodeEntryValue JSON_parse valueBuffer = Normal (Structured v) /\
  exists pre post opening closing body,
    str = pre ++ jsonMatch ++ post /\
    jsonMatch = opening :: body ++ [closing] /\
    ((opening = char_lbrace /\ closing = char_rbrace) \/
     (opening = char_lbracket /\ closing = char_rbracket)) /\
    Forall (fun c => Regex.isLineTerminator c = false) body /\
    ~ In closing (Regex.dotRun post) /\
    (forall k, (k < length pre)%nat -> Regex.matchHere (skipn k str) = None).
Proof.
  intros str Hd Hs Hv. split.
  - unfold decodeEntryValue. rewrite Hd. cbn [bind].
    rewrite extractJson_eq. fold str. rewrite Hs, Hv. reflexivity.
  - destruct (search_Some _ _ Hs) as (pre & post & E & Hm & Hleft).
    destruct (matchHere_Some _ _ Hm) as (o & cl & body & post' & Hoc & Hshape & Hpost & Hbody & Hlast).
    apply app_inv_head in Hpost. subst post'.
    exists pre, post, o, cl, body. auto 10.
Qed.

(** The envelope bytes FF 0F before and 00 after the text of an object with
    the one member a : 1. *)
Lemma C5_substring_fallback_witness :
  decodeEntryValue Json.parse [xff; x0f; x7b; x22; x61; x22; x3a; x31; x7d; x00]
  = Normal (Structured (Json.JObject [([0x61], Json.JNumber false 1 0)])).
Proof.
  apply (C5_substring_fallback _ Json.parse
           [xff; x0f; x7b; x22; x61; x22; x3a; x31; x7d; x00]
           [0x7B; 0x22; 0x61; 0x22; 0x3A; 0x31; 0x7D]).
  - vm_compute. reflexivity.
  - vm_compute. reflexivity.
  - vm_compute. reflexivity.
Defined.

(** C5 as the design document states it fails.  The first text is the text
    of the object with the one member a : 1, the letter x, and the text of
    the object with the one member b : 2: it is no JSON as a whole, and it
    contains a JSON object, its first balanced substring.  The regular
    expression is greedy: what it selects runs to the last closing brace,
    which is the whole text; JSON.parse rejects that, and the value stays
    the raw bytes.  The second text is the letter x and the text of the
    object with the member a : 1, with a line feed after its opening brace:
    it contains a JSON object, but the expression does not match across the
    end of a line, nothing is selected, and the value stays the raw bytes. *)
Lemma C5_counterexample :
  let valueBuffer :=
    [x7b; x22; x61; x22; x3a; x31; x7d; x78; x7b; x22; x62; x22; x3a; x32; x7d] in
  let str := Utf8.toString valueBuffer in
  let first := [0x7B; 0x22; 0x61; 0x22; 0x3A; 0x31; 0x7D] in
  let broken := [x78; x7b; x0a; x22; x61; x22; x3a; x31; x7d] in
  (exists e, Json.parse str = Throw e) /\
  str = first ++ skipn 7 str /\
  Json.parse first = Normal (Json.JObject [([0x61], Json.JNumber false 1 0)]) /\
  Regex.search str = Some str /\
  decodeEntryValue Json.parse valueBuffer = Normal (Opaque valueBuffer) /\
  (exists e, Json.parse (Utf8.toString broken) = Throw e) /\
  Json.parse (skipn 1 (Utf8.toString broken))
    = Normal (Json.JObject [([0x61], Json.JNumber false 1 0)]) /\
  Regex.search (Utf8.toString broken) = None /\
  decodeEntryValue Json.parse broken = Normal (Opaque broken).
Proof.
  cbv zeta.
  split; [eexists; vm_compute; reflexivity|].
  repeat split; vm_compute; try reflexivity.
  eexists; reflexivity.
Qed.

(** ** C6, C8: the schema map and the scan *)

Lemma getObjectStoreName_Some id name :
  getObjectStoreName id = Some name -> 1 <= id <= 7.
Proof.
  intros H. destruct (Z_le_dec 1 id), (Z_le_dec id 7); try lia;
    exfalso; revert H; unfold getObjectStoreName, mapping; cbn [assoc];
    repeat match goal with
           | |- context [id =? ?k] => destruct (Z.eqb_spec id k); [lia|]
           end; discriminate.
Qed.

Lemma getObjectStoreName_None id :
  ~ (1 <= id <= 7) -> getObjectStoreName id = None.
Proof.
  intros H. destruct (getObjectStoreName id) as [name|] eqn:E; [|reflexivity].
  apply getObjectStoreName_Some in E. contradiction.
Qed.

Section ScanFacts.

Context {JSValue : Type}.
Variable JSON_parse : jsstring -> Completion JSValue.

(** The body of the scan loop for an entry of an unmapped store. *)
Lemma scanEntry_unmapped (st : ScanState JSValue) keyBuffer valueBuffer parsed :
  parseIndexedDbKey keyBuffer = Normal (Some parsed) ->
  getObjectStoreName (objectStoreId parsed) = None ->
  scanEntry JSON_parse st (keyBuffer, valueBuffer) =
  Normal (mkScan (entriesByStore st) (S (totalEntries st)) (parsedEntries st)
                 (console st ++
                  if negb (objectStoreId parsed =? 0) && (S (totalEntries st) <=? 10)%nat
                  then [LogUnmapped (objectStoreId parsed) (databaseId parsed) (indexId parsed)]
                  else [])).
Proof.
  intros Hp Hn. unfold scanEntry. rewrite Hp. cbn [bind]. rewrite Hn.
  cbn [option_map].
  destruct (negb (objectStoreId parsed =? 0) && (S (totalEntries st) <=? 10)%nat);
    rewrite ?app_nil_r; reflexivity.
Qed.

Lemma scanEntry_normal (st : ScanState JSValue) kv :
  exists st', scanEntry JSON_parse st kv = Normal st'.
Proof.
  destruct kv as [keyBuffer valueBuffer]. unfold scanEntry.
  pose proof (parseIndexedDbKey_eq keyBuffer) as Hp.
  destruct (prefixOf keyBuffer) as [[[v1 v2] v3] n]. rewrite Hp. cbn [bind].
  destruct (getObjectStoreName _) as [name|]; cbn [option_map].
  - destruct (assoc String.eqb name (entriesByStore st)).
    + destruct (decodeEntryValue_normal JSON_parse valueBuffer) as [d ->].
      cbn [bind]. eexists. reflexivity.
    + destruct (negb _ && _); eexists; reflexivity.
  - destruct (negb _ && _); eexists; reflexivity.
Qed.

Lemma scanEntries_normal entries : forall (st : ScanState JSValue),
  exists st', scanEntries JSON_parse st entries = Normal st'.
Proof.
  induction entries as [|kv entries IH]; intros st; cbn [scanEntries].
  - eexists. reflexivity.
  - destruct (scanEntry_normal st kv) as [st1 ->]. cbn [bind]. apply IH.
Qed.

Lemma scanEntries_app pre post : forall (st : ScanState JSValue),
  scanEntries JSON_parse st (pre ++ post) =
  (st' <- scanEntries JSON_parse st pre ;; scanEntries JSON_parse st' post)%js.
Proof.
  induction pre as [|kv pre IH]; intros st; cbn [app scanEntries bind]; [reflexivity|].
  destruct (scanEntry JSON_parse st kv); cbn [bind]; [apply IH|reflexivity].
Qed.

(** The buffers and the count of buffered entries do not depend on
    totalEntries or on the console. *)
Lemma scanEntry_sameBuffers (st1 st2 : ScanState JSValue) kv st1' st2' :
  sameBuffers st1 st2 ->
  scanEntry JSON_parse st1 kv = Normal st1' ->
  scanEntry JSON_parse st2 kv = Normal st2' ->
  sameBuffers st1' st2'.
Proof.
  intros [He Hc]. destruct kv as [keyBuffer valueBuffer]. unfold scanEntry.
  destruct (parseIndexedDbKey keyBuffer) as [[parsed|]|]; cbn [bind].
  - rewrite He.
    destruct (getObjectStoreName _) as [name|]; cbn [option_map].
    + destruct (assoc String.eqb name (entriesByStore st2)).
      * destruct (decodeEntryValue JSON_parse valueBuffer); cbn [bind]; [|discriminate].
        intros H1 H2. inversion H1; inversion H2; subst. split; cbn; congruence.
      * destruct (negb _ && _); destruct (negb _ && _); intros H1 H2;
          inversion H1; inversion H2; subst; split; cbn; congruence.
    + destruct (negb _ && _); destruct (negb _ && _); intros H1 H2;
        inversion H1; inversion H2; subst; split; cbn; congruence.
  - destruct (_ <=? _)%nat; destruct (_ <=? _)%nat; intros H1 H2;
      inversion H1; inversion H2; subst; split; cbn; congruence.
  - discriminate.
Qed.

Lemma scanEntries_sameBuffers entries : forall (st1 st2 st1' st2' : ScanState JSValue),
  sameBuffers st1 st2 ->
  scanEntries JSON_parse st1 entries = Normal st1' ->
  scanEntries JSON_parse st2 entries = Normal st2' ->
  sameBuffers st1' st2'.
Proof.
  induction entries as [|kv entries IH]; intros st1 st2 st1' st2' Hs; cbn [scanEntries].
  - intros H1 H2. inversion H1; inversion H2; subst. exact Hs.
  - destruct (scanEntry_normal st1 kv) as [a Ha].
    destruct (scanEntry_normal st2 kv) as [b Hb].
    rewrite Ha, Hb. cbn [bind]. apply IH.
    eapply scanEntry_sameBuffers; eassumption.
Qed.

End ScanFacts.

(** C6.  getObjectStoreName gives a name exactly for the ids 1 to 7:
    dictionaries, terms, kanji, termMeta, kanjiMeta, tagMeta, media; for
    every other integer it gives nothing.  An entry for which it gives
    nothing is no error for the scan: the loop body ends normally, no
    buffer and no count of buffered entries changes, and the scan goes on
    with the entries that follow. *)
Theorem C6_schema_map :
  getObjectStoreName 1 = Some "dictionaries"%string /\
  getObjectStoreName 2 = Some "terms"%string /\
  getObjectStoreName 3 = Some "kanji"%string /\
  getObjectStoreName 4 = Some "termMeta"%string /\
  getObjectStoreName 5 = Some "kanjiMeta"%string /\
  getObjectStoreName 6 = Some "tagMeta"%string /\
  getObjectStoreName 7 = Some "media"%string /\
  (forall id, (exists name, getObjectStoreName id = Some name) <-> 1 <= id <= 7) /\
  (forall id, ~ (1 <= id <= 7) -> getObjectStoreName id = None) /\
  (forall (JSValue : Type) (JSON_parse : jsstring -> Completion JSValue)
          (st : ScanState JSValue) keyBuffer valueBuffer parsed rest,
     parseIndexedDbKey keyBuffer = Normal (Some parsed) ->
     getObjectStoreName (objectStoreId parsed) = None ->
     exists st',
       scanEntry JSON_parse st (keyBuffer, valueBuffer) = Normal st' /\
       entriesByStore st' = entriesByStore st /\
       parsedEntries st' = parsedEntries st /\
       scanEntries JSON_parse st ((keyBuffer, valueBuffer) :: rest)
         = scanEntries JSON_parse st' rest).
Proof.
  repeat (split; [reflexivity|]).
  split.
  { intros id. split.
    - intros [name H]. eapply getObjectStoreName_Some; eassumption.
    - intros H. assert (id = 1 \/ id = 2 \/ id = 3 \/ id = 4 \/ id = 5 \/ id = 6 \/ id = 7)
        as Hid by lia.
      repeat (destruct Hid as [->|Hid]; [eexists; reflexivity|]).
      subst. eexists; reflexivity. }
  split; [exact getObjectStoreName_None|].
  intros JSValue JSON_parse st keyBuffer valueBuffer parsed rest Hp Hn.
  eexists. split; [apply scanEntry_unmapped; eassumption|].
  split; [reflexivity|]. split; [reflexivity|].
  cbn [scanEntries]. rewrite (scanEntry_unmapped JSON_parse st _ valueBuffer _ Hp Hn).
  reflexivity.
Qed.

Lemma C6_schema_map_witness :
  exists st',
    scanEntry Json.parse initialScan ([x00; x63; x00], [x7b; x7d]) = Normal st' /\
    entriesByStore st' = entriesByStore (@initialScan Json.value) /\
    parsedEntries st' = parsedEntries (@initialScan Json.value) /\
    scanEntries Json.parse initialScan [([x00; x63; x00], [x7b; x7d])]
      = scanEntries Json.parse st' [].
Proof.
  destruct C6_schema_map as (_ & _ & _ & _ & _ & _ & _ & _ & _ & H).
  apply (H _ Json.parse initialScan [x00; x63; x00] [x7b; x7d]
           (mkCompositeKey 0 99 0 None) []).
  - vm_compute. reflexivity.
  - vm_compute. reflexivity.
Defined.

(** ** C7, C8, C9, C10: the migration *)

Section MigratorFacts.

Context {JSValue : Type}.
Variable JSON_parse : jsstring -> Completion JSValue.
Context {Idb : Type}.
Variable indexedDB_open : Idb -> Idb * Completion OpenOutcome.
Variable idb_transaction : Idb -> string -> Idb * Completion unit.
Variable store_put : Idb -> string -> DecodedValue JSValue -> UserKey -> Idb * Completion unit.
Variable store_add : Idb -> string -> DecodedValue JSValue -> Idb * Completion unit.
Variable tx_settled : Idb -> string -> Idb * TxOutcome.


Lemma writeEntries_app storeName pre post (ws : WriteState Idb) :
  writeEntries store_put store_add storeName ws (pre ++ post) =
  writeEntries store_put store_add storeName (writeEntries store_put store_add storeName ws pre) post.
Proof. unfold writeEntries. apply fold_left_app. Qed.

Lemma writeEntry_count storeName (ws : WriteState Idb) entry :
  (syncedCount ws <= syncedCount (writeEntry store_put store_add storeName ws entry)
   <= S (syncedCount ws))%nat.
Proof.
  unfold writeEntry. destruct (putOrAdd store_put store_add storeName (idb ws) entry) as [db [u|e]];
    cbn [syncedCount]; lia.
Qed.

Lemma writeEntries_count storeName entries : forall (ws : WriteState Idb),
  (syncedCount ws <= syncedCount (writeEntries store_put store_add storeName ws entries)
   <= syncedCount ws + length entries)%nat.
Proof.
  induction entries as [|entry entries IH]; intros ws; cbn [fold_left length writeEntries].
  - lia.
  - pose proof (writeEntry_count storeName ws entry).
    pose proof (IH (writeEntry store_put store_add storeName ws entry)) as H'.
    unfold writeEntries in H'. lia.
Qed.

(** The database and the count after a write do not depend on the
    warnings collected so far. *)
Lemma writeEntry_sameWrites storeName (ws1 ws2 : WriteState Idb) entry :
  sameWrites ws1 ws2 ->
  sameWrites (writeEntry store_put store_add storeName ws1 entry) (writeEntry store_put store_add storeName ws2 entry).
Proof.
  intros [Hd Hc]. unfold writeEntry. rewrite Hd.
  destruct (putOrAdd store_put store_add storeName (idb ws2) entry) as [db [u|e]];
    split; cbn; congruence.
Qed.

Lemma writeEntries_sameWrites storeName entries : forall (ws1 ws2 : WriteState Idb),
  sameWrites ws1 ws2 ->
  sameWrites (writeEntries store_put store_add storeName ws1 entries) (writeEntries store_put store_add storeName ws2 entries).
Proof.
  induction entries as [|entry entries IH]; intros ws1 ws2 H; [exact H|].
  cbn [fold_left writeEntries]. apply IH. apply writeEntry_sameWrites. exact H.
Qed.

Lemma syncStore_sameWrites (ws1 ws2 : WriteState Idb) store :
  sameWrites ws1 ws2 ->
  sameWrites (fst (syncStore idb_transaction store_put store_add tx_settled ws1 store))
             (fst (syncStore idb_transaction store_put store_add tx_settled ws2 store)) /\
  snd (syncStore idb_transaction store_put store_add tx_settled ws1 store)
  = snd (syncStore idb_transaction store_put store_add tx_settled ws2 store).
Proof.
  intros H. pose proof H as [Hd Hc]. destruct store as [storeName entries].
  unfold syncStore.
  destruct (length entries =? 0)%nat; [split; [exact H|reflexivity]|]. rewrite Hd.
  destruct (idb_transaction (idb ws2) storeName) as [idb1 [u|e]].
  - pose proof (writeEntries_sameWrites storeName entries
                  (mkWrite idb1 (syncedCount ws1) (warnings ws1))
                  (mkWrite idb1 (syncedCount ws2) (warnings ws2))
                  ltac:(split; cbn; congruence)) as [Hd' Hc'].
    rewrite Hd'.
    destruct (tx_settled _ storeName) as [idb3 [|[e'|]|]];
      (split; [split; cbn; congruence|reflexivity]).
  - split; [split; cbn; congruence|reflexivity].
Qed.

Lemma syncStores_sameWrites stores : forall (ws1 ws2 : WriteState Idb),
  sameWrites ws1 ws2 ->
  sameWrites (fst (syncStores idb_transaction store_put store_add tx_settled ws1 stores))
             (fst (syncStores idb_transaction store_put store_add tx_settled ws2 stores)) /\
  snd (syncStores idb_transaction store_put store_add tx_settled ws1 stores)
  = snd (syncStores idb_transaction store_put store_add tx_settled ws2 stores).
Proof.
  induction stores as [|store stores IH]; intros ws1 ws2 H;
    [split; [exact H|reflexivity]|].
  cbn [syncStores].
  destruct (syncStore_sameWrites ws1 ws2 store H) as [Hs Hf].
  destruct (syncStore idb_transaction store_put store_add tx_settled ws1 store) as [a fa].
  destruct (syncStore idb_transaction store_put store_add tx_settled ws2 store) as [b fb].
  cbn [fst snd] in Hs, Hf. subst fb.
  destruct fa; [apply IH; exact Hs | split; [exact Hs|reflexivity] ..].
Qed.

(** The loop over the stores when only one store has entries: it is the
    turn of that store. *)
Lemma syncStores_one pre name entries post : forall (ws : WriteState Idb),
  Forall (fun store : string * list (Entry JSValue) => snd store = []) pre ->
  Forall (fun store : string * list (Entry JSValue) => snd store = []) post ->
  syncStores idb_transaction store_put store_add tx_settled ws (pre ++ (name, entries) :: post)
  = syncStore idb_transaction store_put store_add tx_settled ws (name, entries).
Proof.
  assert (Hempty : forall stores (ws : WriteState Idb),
             Forall (fun store : string * list (Entry JSValue) => snd store = []) stores ->
             syncStores idb_transaction store_put store_add tx_settled ws stores = (ws, GoOn)).
  { induction stores as [|[n es] stores IH]; intros ws H; [reflexivity|].
    inversion H as [|? ? Hes Hrest]; subst. cbn [snd] in Hes. subst es.
    cbn [syncStores syncStore length Nat.eqb]. apply IH. exact Hrest. }
  induction pre as [|[n es] pre IH]; intros ws Hpre Hpost.
  - cbn [app syncStores].
    destruct (syncStore idb_transaction store_put store_add tx_settled ws (name, entries))
      as [ws' flow].
    destruct flow; [apply Hempty; exact Hpost | reflexivity ..].
  - inversion Hpre as [|? ? Hes Hrest]; subst. cbn [snd] in Hes. subst es.
    cbn [app syncStores syncStore length Nat.eqb]. apply IH; assumption.
Qed.


(** C7.  A missing source is a normal outcome: when the path of the source
    store is null, or names nothing that exists, syncEdgeIndexedDb settles
    with [false] (it does not throw) and the target database is left as it
    was: nothing is synced. *)
Theorem C7_missing_source (env : Env) (idb0 : Idb) :
  env_indexedDbPath env = Normal None \/
  (exists p, env_indexedDbPath env = Normal (Some p) /\ env_existsSync env p = false) ->
  syncEdgeIndexedDb JSON_parse indexedDB_open idb_transaction store_put store_add tx_settled
                    env idb0
  = (idb0, Fulfilled false).
Proof.
  intros H. unfold syncEdgeIndexedDb, pathExists.
  destruct H as [->|(p & -> & ->)].
  - reflexivity.
  - rewrite orb_true_r. reflexivity.
Qed.

(** C8 (as amended).  An entry whose objectStoreId has no name in the schema
    map is put into no buffer; it is counted in totalEntries and not in
    parsedEntries (the scan keeps no counter of unmapped entries of its
    own), and the only other trace is a console line, written when the id
    is not 0 and the entry is among the first ten.  The migration goes on:
    the scan and the writes that follow end with the same target database,
    the same number of synced entries and the same result as without the
    entry. *)
Theorem C8_unmapped_store (st : ScanState JSValue) keyBuffer valueBuffer parsed :
  parseIndexedDbKey keyBuffer = Normal (Some parsed) ->
  getObjectStoreName (objectStoreId parsed) = None ->
  (exists st',
     scanEntry JSON_parse st (keyBuffer, valueBuffer) = Normal st' /\
     entriesByStore st' = entriesByStore st /\
     totalEntries st' = S (totalEntries st) /\
     parsedEntries st' = parsedEntries st /\
     console st' = console st ++
       (if negb (objectStoreId parsed =? 0) && (S (totalEntries st) <=? 10)%nat
        then [LogUnmapped (objectStoreId parsed) (databaseId parsed) (indexId parsed)]
        else [])) /\
  (forall pre post err idb0,
     let withEntry :=
       onTargetOpen JSON_parse idb_transaction store_put store_add tx_settled (mkSource (pre ++ (keyBuffer, valueBuffer) :: post) err) idb0 in
     let without := onTargetOpen JSON_parse idb_transaction store_put store_add tx_settled (mkSource (pre ++ post) err) idb0 in
     sameWrites (fst withEntry) (fst without) /\ snd withEntry = snd without).
Proof.
  intros Hp Hn. split.
  { eexists. split; [apply scanEntry_unmapped; eassumption|]. repeat split. }
  intros pre post err idb0. cbv zeta. unfold onTargetOpen, scanSource.
  cbn [src_entries src_error]. rewrite !scanEntries_app.
  destruct (scanEntries_normal JSON_parse pre initialScan) as [st1 ->]. cbn [bind].
  cbn [scanEntries]. rewrite (scanEntry_unmapped JSON_parse st1 _ valueBuffer _ Hp Hn).
  cbn [bind].
  match goal with |- context [scanEntries JSON_parse ?s post] =>
    destruct (scanEntries_normal JSON_parse post s) as [stA HA] end.
  destruct (scanEntries_normal JSON_parse post st1) as [stB HB].
  rewrite HA, HB. cbn [bind].
  assert (sameBuffers stA stB) as [He Hc].
  { eapply scanEntries_sameBuffers; [|exact HA|exact HB]. split; reflexivity. }
  destruct err as [e|].
  - split; [split|]; reflexivity.
  - rewrite He.
    pose proof (syncStores_sameWrites (entriesByStore stB)
                  (mkWrite idb0 0 (console stA)) (mkWrite idb0 0 (console stB))
                  ltac:(split; reflexivity)) as [Hs Hf].
    destruct (syncStores idb_transaction store_put store_add tx_settled
                (mkWrite idb0 0 (console stA)) (entriesByStore stB)) as [a fa].
    destruct (syncStores idb_transaction store_put store_add tx_settled
                (mkWrite idb0 0 (console stB)) (entriesByStore stB)) as [b fb].
    cbn [fst snd] in Hs, Hf. subst fb.
    destruct fa; cbn [fst snd]; (split; [exact Hs|]); try reflexivity.
    destruct Hs as [_ ->]. reflexivity.
Qed.

(** C9 (as amended).  A write that fails for one entry: once the
    transaction of a store is open, if the call of put (or add) throws for
    an entry, the exception is caught in the loop body, which leaves the
    count of synced entries as it was and notes a warning; the loop goes on
    with the entries that follow, in the same transaction; after the last
    entry the end of the transaction is awaited, from the state the loop
    ended in; and the count the store ends with is the count of the loop,
    however the transaction ends.  An entry whose call throws is never
    counted; an entry whose call returns is counted at once, whatever
    becomes of the request that the call returned. *)
Theorem C9_write_failure_tolerance storeName (ws0 : WriteState Idb) idb1 pre entry post e :
  idb_transaction (idb ws0) storeName = (idb1, Normal tt) ->
  let start := mkWrite idb1 (syncedCount ws0) (warnings ws0) in
  let ws1 := writeEntries store_put store_add storeName start pre in
  snd (putOrAdd store_put store_add storeName (idb ws1) entry) = Throw e ->
  let ws2 := writeEntry store_put store_add storeName ws1 entry in
  let ws3 := writeEntries store_put store_add storeName ws2 post in
  let entries := pre ++ entry :: post in
  let after :=
    fst (syncStore idb_transaction store_put store_add tx_settled ws0 (storeName, entries)) in
  syncedCount ws2 = syncedCount ws1 /\
  warnings ws2 = warnings ws1 ++ [WarnEntry storeName e] /\
  writeEntries store_put store_add storeName start entries = ws3 /\
  (syncedCount ws3 <= syncedCount ws0 + length pre + length post)%nat /\
  idb after = fst (tx_settled (idb ws3) storeName) /\
  syncedCount after = syncedCount ws3 /\
  (forall (ws : WriteState Idb) returned,
     snd (putOrAdd store_put store_add storeName (idb ws) returned) = Normal tt ->
     syncedCount (writeEntry store_put store_add storeName ws returned) = S (syncedCount ws) /\
     warnings (writeEntry store_put store_add storeName ws returned) = warnings ws).
Proof.
  intros Htx start ws1 Hfail ws2 ws3 entries after.
  assert (syncedCount ws2 = syncedCount ws1 /\
          warnings ws2 = warnings ws1 ++ [WarnEntry storeName e]) as [Hc Hw].
  { subst ws2. unfold writeEntry.
    destruct (putOrAdd store_put store_add storeName (idb ws1) entry) as [db r].
    cbn [snd] in Hfail. subst r. split; reflexivity. }
  assert (writeEntries store_put store_add storeName start entries = ws3) as Hloop.
  { subst entries ws3 ws2 ws1. rewrite writeEntries_app. reflexivity. }
  split; [exact Hc|]. split; [exact Hw|]. split; [exact Hloop|].
  split.
  { pose proof (writeEntries_count storeName post ws2) as H3.
    pose proof (writeEntries_count storeName pre start) as H1.
    fold ws3 in H3. fold ws1 in H1. subst start. cbn [syncedCount] in H1. lia. }
  assert (Hafter : idb after = fst (tx_settled (idb ws3) storeName) /\
                   syncedCount after = syncedCount ws3).
  { subst after. unfold syncStore.
    assert ((length entries =? 0)%nat = false) as ->.
    { apply Nat.eqb_neq. subst entries. rewrite length_app. cbn [length]. lia. }
    rewrite Htx. fold start. rewrite Hloop.
    destruct (tx_settled (idb ws3) storeName) as [idb3 [|[e'|]|]]; split; reflexivity. }
  split; [exact (proj1 Hafter)|]. split; [exact (proj2 Hafter)|].
  intros ws returned Hret. unfold writeEntry.
  destruct (putOrAdd store_put store_add storeName (idb ws) returned) as [db r].
  cbn [snd] in Hret. subst r. split; reflexivity.
Qed.

End MigratorFacts.

Lemma C7_missing_source_witness :
  syncEdgeIndexedDb Json.parse
    (fun (db : nat) => (db, Normal OpenSuccess))
    (fun (db : nat) (_ : string) => (db, Normal tt))
    (fun db _ _ _ => (S db, Normal tt))
    (fun db _ _ => (S db, Normal tt))
    (fun db _ => (db, TxComplete))
    (mkEnv (Normal None) (fun _ => true) (Normal true)
           (Normal (mkSource [] None)) (Normal (mkSource [] None)))
    0%nat
  = (0%nat, Fulfilled false).
Proof.
  apply C7_missing_source. left. reflexivity.
Defined.

Lemma C8_unmapped_store_witness :
  exists st',
    scanEntry Json.parse initialScan ([x00; x63; x00], [x7b; x7d]) = Normal st' /\
    entriesByStore st' = entriesByStore (@initialScan Json.value) /\
    totalEntries st' = 1%nat /\
    parsedEntries st' = 0%nat /\
    console st' = [LogUnmapped 99 0 0].
Proof.
  apply (proj1 (C8_unmapped_store Json.parse
                  (fun (db : nat) (_ : string) => (db, Normal tt))
                  (fun db _ _ _ => (S db, Normal tt))
                  (fun db _ _ => (S db, Normal tt))
                  (fun db _ => (db, TxComplete))
                  initialScan [x00; x63; x00] [x7b; x7d]
                  (mkCompositeKey 0 99 0 None)
                  ltac:(vm_compute; reflexivity) ltac:(vm_compute; reflexivity))).
Defined.

(** C8 as the design document states it fails.  After ten entries the
    eleventh has objectStoreId 99: of all that the scan keeps, only
    totalEntries changes, and it changes in the same way for an entry of a
    mapped store; no counter of unmapped entries is incremented. *)
Lemma C8_counterexample :
  let unmapped : Buffer * Buffer := ([x00; x63; x00], [x7b; x7d]) in
  let mapped : Buffer * Buffer := ([x00; x02; x00; x74; x31], [x7b; x7d]) in
  parseIndexedDbKey (fst unmapped) = Normal (Some (mkCompositeKey 0 99 0 None)) /\
  getObjectStoreName 99 = None /\
  exists st10 st11 st11',
    scanEntries Json.parse initialScan (repeat unmapped 10) = Normal st10 /\
    scanEntry Json.parse st10 unmapped = Normal st11 /\
    scanEntry Json.parse st10 mapped = Normal st11' /\
    entriesByStore st11 = entriesByStore st10 /\
    parsedEntries st11 = parsedEntries st10 /\
    console st11 = console st10 /\
    totalEntries st11 = S (totalEntries st10) /\
    totalEntries st11' = S (totalEntries st10).
Proof.
  cbv zeta. split; [vm_compute; reflexivity|]. split; [reflexivity|].
  eexists _, _, _.
  split; [vm_compute; reflexivity|].
  split; [vm_compute; reflexivity|].
  split; [vm_compute; reflexivity|].
  repeat split.
Qed.

(** A target that logs its calls; put throws a DataError for a buffer key. *)
Lemma C9_write_failure_tolerance_witness :
  let transaction := fun (log : list string) (_ : string) => (log ++ ["transaction"%string], Normal tt) in
  let put := fun (log : list string) (_ : string) (_ : DecodedValue Json.value) (key : UserKey) =>
    match key with
    | KeyBuffer _ => (log ++ ["put throws"%string], Throw (DOMException "DataError"))
    | _ => (log ++ ["put"%string], Normal tt)
    end in
  let add := fun (log : list string) (_ : string) (_ : DecodedValue Json.value) =>
    (log ++ ["add"%string], Normal tt) in
  let settled := fun (log : list string) (_ : string) => (log ++ ["complete"%string], TxComplete) in
  let good := mkEntry (Some (KeyString [0x74])) (Opaque (JSValue := Json.value) []) in
  let bad := mkEntry (Some (KeyBuffer [x00])) (Opaque (JSValue := Json.value) []) in
  let keyless := mkEntry None (Opaque (JSValue := Json.value) []) in
  let final := fst (syncStore transaction put add settled (mkWrite [] 0 [])
                              ("terms"%string, [good; bad; keyless])) in
  idb final = ["transaction"; "put"; "put throws"; "add"; "complete"]%string /\
  syncedCount final = 2%nat.
Proof.
  cbv zeta.
  pose proof (C9_write_failure_tolerance
    (fun (log : list string) (_ : string) => (log ++ ["transaction"%string], Normal tt))
    (fun (log : list string) (_ : string) (_ : DecodedValue Json.value) (key : UserKey) =>
       match key with
       | KeyBuffer _ => (log ++ ["put throws"%string], Throw (DOMException "DataError"))
       | _ => (log ++ ["put"%string], Normal tt)
       end)
    (fun (log : list string) (_ : string) (_ : DecodedValue Json.value) =>
       (log ++ ["add"%string], Normal tt))
    (fun (log : list string) (_ : string) => (log ++ ["complete"%string], TxComplete))
    "terms"%string (mkWrite [] 0 []) ["transaction"%string]
    [mkEntry (Some (KeyString [0x74])) (Opaque [])]
    (mkEntry (Some (KeyBuffer [x00])) (Opaque []))
    [mkEntry None (Opaque [])]
    (DOMException "DataError") eq_refl eq_refl) as H.
  cbv zeta in H. destruct H as (_ & _ & _ & _ & Hidb & Hcount & _).
  split.
  - etransitivity; [exact Hidb | reflexivity].
  - etransitivity; [exact Hcount | reflexivity].
Defined.

(** C9 as the design document states it fails.  On this target the call
    of put returns for every key, and the request it returned fails later
    for a buffer key: the error event of the request reaches the
    transaction, which is aborted.  Nothing is thrown, so the loop catches
    nothing: it notes no warning and counts the failed entry with the two
    others, and the writes of the two others are lost with the
    transaction. *)
Lemma C9_counterexample :
  let transaction := fun (db : list string * list string) (_ : string) =>
    (fst db, @nil string, Normal tt) in
  let put := fun (db : list string * list string) (_ : string)
                 (_ : DecodedValue Json.value) (key : UserKey) =>
    match key with
    | KeyBuffer _ => (fst db, snd db ++ ["request fails"%string], Normal tt)
    | _ => (fst db, snd db ++ ["put"%string], Normal tt)
    end in
  let add := fun (db : list string * list string) (_ : string)
                 (_ : DecodedValue Json.value) =>
    (fst db, snd db ++ ["add"%string], Normal tt) in
  let settled := fun (db : list string * list string) (_ : string) =>
    if existsb (String.eqb "request fails") (snd db)
    then (fst db, @nil string, TxError None)
    else (fst db ++ snd db, @nil string, TxComplete) in
  let good := mkEntry (Some (KeyString [0x74])) (Opaque (JSValue := Json.value) []) in
  let bad := mkEntry (Some (KeyBuffer [x00])) (Opaque (JSValue := Json.value) []) in
  let keyless := mkEntry None (Opaque (JSValue := Json.value) []) in
  let loop := writeEntries put add "terms" (mkWrite ([], []) 0 []) [good; bad; keyless] in
  let final := fst (syncStore transaction put add settled (mkWrite ([], []) 0 [])
                              ("terms"%string, [good; bad; keyless])) in
  let alone := fst (syncStore transaction put add settled (mkWrite ([], []) 0 [])
                              ("terms"%string, [good; keyless])) in
  snd (putOrAdd put add "terms" ([], ["put"%string]) bad) = Normal tt /\
  warnings loop = [] /\
  syncedCount loop = 3%nat /\
  syncedCount final = 3%nat /\
  idb final = ([], []) /\
  idb alone = (["put"; "add"]%string, []).
Proof.
  cbv zeta. repeat split.
Qed.

(** ** C10: the key is never null *)

Lemma assoc_pushEntry {JSValue : Type} name (e : Entry JSValue) m name' :
  assoc String.eqb name' (pushEntry name e m) =
  if String.eqb name' name
  then option_map (fun es => es ++ [e]) (assoc String.eqb name' m)
  else assoc String.eqb name' m.
Proof.
  induction m as [|[n es] m IH]; cbn [pushEntry assoc].
  - destruct (String.eqb name' name); reflexivity.
  - destruct (String.eqb_spec name n) as [Heq|Hne]; cbn [assoc].
    + subst n. destruct (String.eqb name' name); reflexivity.
    + destruct (String.eqb_spec name' n) as [Heq'|Hne'].
      * subst n. destruct (String.eqb_spec name' name); [congruence|reflexivity].
      * exact IH.
Qed.

Lemma pushEntry_initial {JSValue : Type} id name (e : Entry JSValue) :
  getObjectStoreName id = Some name ->
  exists pre post,
    pushEntry name e (entriesByStore initialScan) = pre ++ (name, [e]) :: post /\
    Forall (fun store : string * list (Entry JSValue) => snd store = []) pre /\
    Forall (fun store : string * list (Entry JSValue) => snd store = []) post.
Proof.
  intros Hname. pose proof (getObjectStoreName_Some _ _ Hname) as Hid.
  assert (id = 1 \/ id = 2 \/ id = 3 \/ id = 4 \/ id = 5 \/ id = 6 \/ id = 7)
    as Hcases by lia.
  destruct Hcases as [->|[->|[->|[->|[->|[->| ->]]]]]];
    cbv in Hname; injection Hname as <-.
  - exists (firstn 0 (entriesByStore initialScan)), (skipn 1 (entriesByStore initialScan)).
    split; [reflexivity|]. split; repeat constructor.
  - exists (firstn 1 (entriesByStore initialScan)), (skipn 2 (entriesByStore initialScan)).
    split; [reflexivity|]. split; repeat constructor.
  - exists (firstn 2 (entriesByStore initialScan)), (skipn 3 (entriesByStore initialScan)).
    split; [reflexivity|]. split; repeat constructor.
  - exists (firstn 3 (entriesByStore initialScan)), (skipn 4 (entriesByStore initialScan)).
    split; [reflexivity|]. split; repeat constructor.
  - exists (firstn 4 (entriesByStore initialScan)), (skipn 5 (entriesByStore initialScan)).
    split; [reflexivity|]. split; repeat constructor.
  - exists (firstn 5 (entriesByStore initialScan)), (skipn 6 (entriesByStore initialScan)).
    split; [reflexivity|]. split; repeat constructor.
  - exists (firstn 6 (entriesByStore initialScan)), (skipn 7 (entriesByStore initialScan)).
    split; [reflexivity|]. split; repeat constructor.
Qed.

(** C10.  parseIndexedDbKey never returns null: the body of its outer [try]
    never throws, so the [catch] that returns null is not reached.  When
    the three varint fields take the whole buffer the userKey is null; the
    scan puts the entry, with this null key and the decoded value, at the
    end of the buffer of its store; and the write loop calls add
    (auto-keyed) for it, not put: for a source with this one entry the
    target database ends as add and the end of the transaction leave it,
    whatever put would do, and the entry is counted when add returns. *)
Theorem C10_key_never_null (keyBuffer : Buffer) :
  (exists r, parseIndexedDbKey_try keyBuffer = Normal r /\
             parseIndexedDbKey keyBuffer = Normal (Some r)) /\
  parseIndexedDbKey keyBuffer <> Normal None /\
  (userKeyBuffer keyBuffer = [] ->
   forall r, parseIndexedDbKey keyBuffer = Normal (Some r) ->
     userKey r = None /\
     forall (JSValue : Type) (JSON_parse : jsstring -> Completion JSValue)
            valueBuffer name,
       getObjectStoreName (objectStoreId r) = Some name ->
       exists d,
         decodeEntryValue JSON_parse valueBuffer = Normal d /\
         (forall (st : ScanState JSValue) buffered,
            assoc String.eqb name (entriesByStore st) = Some buffered ->
            exists st',
              scanEntry JSON_parse st (keyBuffer, valueBuffer) = Normal st' /\
              entriesByStore st' = pushEntry name (mkEntry None d) (entriesByStore st) /\
              assoc String.eqb name (entriesByStore st')
              = Some (buffered ++ [mkEntry None d])) /\
         (forall (Idb : Type)
                 (idb_transaction : Idb -> string -> Idb * Completion unit)
                 (store_put : Idb -> string -> DecodedValue JSValue -> UserKey
                              -> Idb * Completion unit)
                 (store_add : Idb -> string -> DecodedValue JSValue -> Idb * Completion unit)
                 (tx_settled : Idb -> string -> Idb * TxOutcome)
                 (idb0 : Idb),
            snd (idb_transaction idb0 name) = Normal tt ->
            let written :=
              fst (onTargetOpen JSON_parse idb_transaction store_put store_add tx_settled
                                (mkSource [(keyBuffer, valueBuffer)] None) idb0) in
            let added := store_add (fst (idb_transaction idb0 name)) name d in
            idb written = fst (tx_settled (fst added) name) /\
            syncedCount written = match snd added with
                                  | Normal _ => 1%nat
                                  | Throw _ => 0%nat
                                  end)) /\
  (forall (JSValue Idb : Type)
          (store_put : Idb -> string -> DecodedValue JSValue -> UserKey -> Idb * Completion unit)
          (store_add : Idb -> string -> DecodedValue JSValue -> Idb * Completion unit)
          storeName (db : Idb) value,
     putOrAdd store_put store_add storeName db (mkEntry None value)
     = store_add db storeName value).
Proof.
  pose proof (parseIndexedDbKey_eq keyBuffer) as Hp.
  pose proof (parseIndexedDbKey_try_eq keyBuffer) as Ht.
  destruct (prefixOf keyBuffer) as [[[v1 v2] v3] n].
  destruct Ht as (Hu & _ & _ & Ht).
  split; [eexists; split; [exact Ht|exact Hp]|].
  split; [rewrite Hp; discriminate|].
  split; [|reflexivity].
  intros Hempty r Hr. rewrite Hp in Hr. inversion Hr; subst r. clear Hr.
  rewrite Hu in Hempty. rewrite Hempty. cbn [userKey remainderKey objectStoreId].
  split; [reflexivity|].
  intros JSValue JSON_parse valueBuffer name Hname.
  destruct (decodeEntryValue_normal JSON_parse valueBuffer) as [d Hd].
  exists d. split; [exact Hd|].
  assert (Hscan : forall (st : ScanState JSValue) buffered,
             assoc String.eqb name (entriesByStore st) = Some buffered ->
             scanEntry JSON_parse st (keyBuffer, valueBuffer)
             = Normal (mkScan (pushEntry name (mkEntry None d) (entriesByStore st))
                              (S (totalEntries st)) (S (parsedEntries st)) (console st))).
  { intros st buffered Hbuf. unfold scanEntry. rewrite Hp. cbn [bind objectStoreId].
    rewrite Hname. cbn [option_map]. rewrite Hbuf, Hd.
    cbn [bind userKey]. rewrite Hempty. reflexivity. }
  split.
  - intros st buffered Hbuf. eexists. split; [exact (Hscan st buffered Hbuf)|].
    cbn [entriesByStore]. split; [reflexivity|].
    rewrite assoc_pushEntry, String.eqb_refl, Hbuf. reflexivity.
  - intros Idb idb_transaction store_put store_add tx_settled idb0 Hopen. cbv zeta.
    destruct (pushEntry_initial _ _ (mkEntry None d) Hname)
      as (pre & post & Hpush & Hpre & Hpost).
    assert (Hinit : assoc String.eqb name (entriesByStore (@initialScan JSValue)) = Some []).
    { pose proof (assoc_pushEntry name (mkEntry None d)
                    (entriesByStore (@initialScan JSValue)) name) as Ha.
      rewrite String.eqb_refl, Hpush in Ha.
      destruct (assoc String.eqb name (entriesByStore (@initialScan JSValue)))
        as [es|] eqn:Hes.
      - clear - Hes. revert Hes. unfold initialScan, objectStores. cbn.
        repeat match goal with
               | |- context [String.eqb name ?k] => destruct (String.eqb name k)
               end; congruence.
      - exfalso. clear - Ha Hpre. cbn [option_map] in Ha.
        induction pre as [|[n0 es0] pre IH]; cbn [app assoc] in Ha.
        + rewrite String.eqb_refl in Ha. discriminate.
        + inversion Hpre; subst.
          destruct (String.eqb name n0); [discriminate|]. apply IH; assumption. }
    unfold onTargetOpen, scanSource. cbn [src_entries src_error scanEntries].
    rewrite (Hscan initialScan [] Hinit). cbn [bind entriesByStore console].
    rewrite Hpush, syncStores_one by assumption.
    unfold syncStore. cbn [length Nat.eqb idb syncedCount warnings].
    destruct (idb_transaction idb0 name) as [idb1 opened]. cbn [snd fst] in *.
    subst opened. unfold writeEntries. cbn [fold_left].
    unfold writeEntry, putOrAdd. cbn [entry_key entry_value idb syncedCount warnings].
    destruct (store_add idb1 name d) as [idb2 [[]|e]]; cbn [idb syncedCount warnings fst snd];
      destruct (tx_settled idb2 name) as [idb3 [|[e'|]|]]; split; reflexivity.
Qed.

Lemma C10_key_never_null_witness :
  exists d,
    decodeEntryValue Json.parse [x7b; x7d] = Normal d /\
    forall (st : ScanState Json.value) buffered,
      assoc String.eqb "terms"%string (entriesByStore st) = Some buffered ->
      exists st',
        scanEntry Json.parse st ([x00; x02; x00], [x7b; x7d]) = Normal st' /\
        entriesByStore st' = pushEntry "terms"%string (mkEntry None d) (entriesByStore st) /\
        assoc String.eqb "terms"%string (entriesByStore st') = Some (buffered ++ [mkEntry None d]).
Proof.
  destruct (proj2 (proj1 (proj2 (proj2 (C10_key_never_null [x00; x02; x00])))
                     ltac:(vm_compute; reflexivity)
                     (mkCompositeKey 0 2 0 None)
                     ltac:(vm_compute; reflexivity))
                  Json.value Json.parse [x7b; x7d] "terms"%string
                  ltac:(vm_compute; reflexivity)) as (d & Hd & Hscan & _).
  exists d. split; [exact Hd | exact Hscan].
Defined.

(* ===================================================================== *)
(** * Further properties of the code *)
(* ===================================================================== *)

(** ** parseIndexedDbKey *)

(** Layout of a key.  When the buffer starts with three ended fields, the
    loops index exactly the bytes of these fields, each id is the value
    accumulated over its own field, and the user key is decided by the
    bytes after the fields alone: the ids do not depend on the user-key
    bytes, nor the user key on the fields. *)
Theorem key_layout (f1 f2 f3 rest : list byte) :
  completeField f1 -> completeField f2 -> completeField f3 ->
  let keyBuffer := f1 ++ f2 ++ f3 ++ rest in
  userKeyBuffer keyBuffer = rest /\
  parseIndexedDbKey_reads keyBuffer = seq 0 (length f1 + length f2 + length f3) /\
  parseIndexedDbKey keyBuffer =
    Normal (Some (mkCompositeKey (accumulate f1 0 0) (accumulate f2 0 0)
                                 (accumulate f3 0 0) (remainderKey rest))).
Proof.
  intros H1 H2 H3 keyBuffer. subst keyBuffer.
  pose proof (parseIndexedDbKey_eq (f1 ++ f2 ++ f3 ++ rest)) as Hp.
  pose proof (parseIndexedDbKey_try_eq (f1 ++ f2 ++ f3 ++ rest)) as Ht.
  unfold prefixOf in Hp, Ht.
  rewrite varintOf_field in Hp, Ht by assumption.
  rewrite skipn_length_app in Hp, Ht.
  rewrite varintOf_field in Hp, Ht by assumption.
  rewrite (app_assoc f1), <- length_app, skipn_length_app in Hp, Ht.
  rewrite varintOf_field in Hp, Ht by assumption.
  rewrite (app_assoc (f1 ++ f2)), <- !length_app, skipn_length_app in Hp, Ht.
  destruct Ht as (Hu & Hr & _ & _).
  rewrite !app_assoc.
  split; [exact Hu|]. split; [|exact Hp].
  rewrite Hr, !length_app. reflexivity.
Qed.

Lemma key_layout_witness :
  userKeyBuffer ([x81; x01] ++ [x02] ++ [x00] ++ [x74; x31]) = [x74; x31] /\
  parseIndexedDbKey_reads ([x81; x01] ++ [x02] ++ [x00] ++ [x74; x31])
    = seq 0 (2 + 1 + 1) /\
  parseIndexedDbKey ([x81; x01] ++ [x02] ++ [x00] ++ [x74; x31]) =
    Normal (Some (mkCompositeKey (accumulate [x81; x01] 0 0) (accumulate [x02] 0 0)
                                 (accumulate [x00] 0 0) (remainderKey [x74; x31]))).
Proof.
  apply (key_layout [x81; x01] [x02] [x00] [x74; x31]).
  - exists [x81], x01. split; [reflexivity|].
    split; [repeat constructor; vm_compute; discriminate | vm_compute; reflexivity].
  - exists [], x02. split; [reflexivity|]. split; [constructor | vm_compute; reflexivity].
  - exists [], x00. split; [reflexivity|]. split; [constructor | vm_compute; reflexivity].
Defined.

Lemma toInt32_range z : - 2 ^ 31 <= JsInt.toInt32 z < 2 ^ 31.
Proof.
  unfold JsInt.toInt32.
  pose proof (Z.mod_pos_bound (z + 2 ^ 31) (2 ^ 32) ltac:(lia)). lia.
Qed.

Lemma varintOf_int32 bytes : forall v s,
  - 2 ^ 31 <= v < 2 ^ 31 -> - 2 ^ 31 <= fst (varintOf bytes v s) < 2 ^ 31.
Proof.
  induction bytes as [|b bytes IH]; intros v s Hv; cbn [varintOf fst]; [exact Hv|].
  destruct (byteZ b <? 128); cbn [fst].
  - apply toInt32_range.
  - specialize (IH (JsInt.or v (JsInt.shl (JsInt.and (byteZ b) 127) s)) (s + 7)
                   (toInt32_range _)).
    destruct (varintOf bytes _ _). exact IH.
Qed.

(** The ids are 32-bit signed integers, whatever the buffer holds: they
    never leave the range of int32 (and, as a fifth byte of a field can
    reach the sign bit, they can be negative). *)
Theorem ids_are_int32 (keyBuffer : Buffer) :
  exists r,
    parseIndexedDbKey keyBuffer = Normal (Some r) /\
    Forall (fun id => - 2 ^ 31 <= id < 2 ^ 31) (ids r).
Proof.
  pose proof (parseIndexedDbKey_eq keyBuffer) as Hp.
  unfold prefixOf in Hp.
  pose proof (varintOf_int32 keyBuffer 0 0 ltac:(lia)) as H1.
  destruct (varintOf keyBuffer 0 0) as [v1 n1].
  pose proof (varintOf_int32 (skipn n1 keyBuffer) 0 0 ltac:(lia)) as H2.
  destruct (varintOf (skipn n1 keyBuffer) 0 0) as [v2 n2].
  pose proof (varintOf_int32 (skipn (n1 + n2) keyBuffer) 0 0 ltac:(lia)) as H3.
  destruct (varintOf (skipn (n1 + n2) keyBuffer) 0 0) as [v3 n3].
  eexists. split; [exact Hp|]. unfold ids. cbn [databaseId objectStoreId indexId fst] in *.
  constructor; [exact H1|]. constructor; [exact H2|].
  constructor; [exact H3|constructor].
Qed.

Lemma byteZ_inj b1 b2 : byteZ b1 = byteZ b2 -> b1 = b2.
Proof.
  unfold byteZ. intros H. apply N2Z.inj in H.
  pose proof (Byte.of_to_N b1) as E1. pose proof (Byte.of_to_N b2) as E2.
  rewrite H in E1. congruence.
Qed.

Lemma bigEndian_snoc l b : bigEndian (l ++ [b]) = bigEndian l * 256 + byteZ b.
Proof. unfold bigEndian. rewrite fold_left_app. reflexivity. Qed.

Lemma bigEndian_bound l : 0 <= bigEndian l < 256 ^ Z.of_nat (length l).
Proof.
  induction l as [|b l IH] using rev_ind;
    [change (0 <= 0 < 1); lia|].
  rewrite bigEndian_snoc, length_app. cbn [length].
  rewrite Nat2Z.inj_add. change (Z.of_nat 1) with 1.
  rewrite Z.pow_add_r by lia. change (256 ^ 1) with 256.
  pose proof (byteZ_range b). nia.
Qed.

Lemma bigEndian_inj : forall l1 l2,
  length l1 = length l2 -> bigEndian l1 = bigEndian l2 -> l1 = l2.
Proof.
  induction l1 as [|b1 l1 IH] using rev_ind; intros l2 Hlen Heq.
  - destruct l2; [reflexivity|discriminate].
  - destruct l2 as [|b2 l2] using rev_ind.
    + rewrite length_app in Hlen. cbn in Hlen. lia.
    + clear IHl2. rewrite !length_app in Hlen. cbn [length] in Hlen.
      rewrite !bigEndian_snoc in Heq.
      pose proof (byteZ_range b1). pose proof (byteZ_range b2).
      assert (byteZ b1 = byteZ b2 /\ bigEndian l1 = bigEndian l2) as [Hb Hl] by lia.
      apply byteZ_inj in Hb. subst b2. f_equal. apply IH; [lia|exact Hl].
Qed.

Lemma bigEndian_leading_zero b t :
  byteZ b = 0 -> bigEndian (b :: t) = bigEndian t.
Proof.
  intros Hb. unfold bigEndian. cbn [fold_left]. rewrite Hb. reflexivity.
Qed.

(** Which user key for which remainder.  The variant of the userKey tells
    the shape of the bytes after the fields, and a key that is not a string
    keeps them whole: a buffer key is the remainder itself; a number key
    comes from a remainder of exactly eight bytes starting with 0, so its
    sign bit and the seven high bits of its exponent are 0, and two
    remainders that give the same number are the same bytes; a string key
    comes from a remainder whose first byte is not 0; a null key from the
    empty remainder. *)
Theorem userKey_inversion (keyBuffer : Buffer) :
  let remainder := userKeyBuffer keyBuffer in
  exists r,
    parseIndexedDbKey keyBuffer = Normal (Some r) /\
    (userKey r = None <-> remainder = []) /\
    (forall raw, userKey r = Some (KeyBuffer raw) ->
       raw = remainder /\ length remainder <> 8%nat /\
       exists b t, remainder = b :: t /\ byteZ b = 0) /\
    (forall bits, userKey r = Some (KeyNumber (DoubleOfBits bits)) ->
       length remainder = 8%nat /\ bits = bigEndian remainder /\ 0 <= bits < 2 ^ 56 /\
       forall other, length other = 8%nat -> bigEndian other = bits -> other = remainder) /\
    (forall str, userKey r = Some (KeyString str) ->
       str = Utf8.toString remainder /\ str <> [] /\
       exists b t, remainder = b :: t /\ byteZ b <> 0).
Proof.
  cbv zeta.
  pose proof (parseIndexedDbKey_eq keyBuffer) as Hp.
  pose proof (parseIndexedDbKey_try_eq keyBuffer) as Ht.
  destruct (prefixOf keyBuffer) as [[[v1 v2] v3] n].
  destruct Ht as (Hu & _). rewrite Hu.
  eexists. split; [exact Hp|]. cbn [userKey].
  destruct (skipn n keyBuffer) as [|b t] eqn:E; cbn [remainderKey].
  - split; [tauto|]. repeat split; intros; discriminate.
  - destruct (Z.eqb_spec (byteZ b) 0) as [Hb|Hb].
    + destruct (Nat.eqb_spec (length (b :: t)) 8) as [H8|H8].
      * split; [split; discriminate|]. split; [discriminate|].
        split; [|discriminate].
        intros bits Hk. inversion Hk; subst bits. clear Hk.
        split; [exact H8|]. split; [reflexivity|]. split.
        -- rewrite bigEndian_leading_zero by assumption.
           pose proof (bigEndian_bound t) as Hbnd. cbn [length] in H8.
           assert (length t = 7%nat) as E7 by lia. rewrite E7 in Hbnd.
           change (2 ^ 56) with (256 ^ Z.of_nat 7). exact Hbnd.
        -- intros other Ho Heq. apply bigEndian_inj; congruence.
      * split; [split; discriminate|]. split; [|split; discriminate].
        intros raw Hk. inversion Hk; subst raw.
        split; [reflexivity|]. split; [exact H8|]. eauto.
    + split; [split; discriminate|]. split; [discriminate|]. split; [discriminate|].
      intros str Hk. inversion Hk; subst str. split; [reflexivity|].
      destruct (toString_head b t) as (c & tl & -> & _).
      split; [discriminate|eauto].
Qed.

(** ** The value codec and the regular expression *)

Lemma matchHere_not_opening c t :
  c <> char_lbrace -> c <> char_lbracket -> Regex.matchHere (c :: t) = None.
Proof.
  intros H1 H2. unfold Regex.matchHere, Regex.bracketed.
  destruct (Z.eqb_spec c char_lbrace); [contradiction|].
  destruct (Z.eqb_spec c char_lbracket); [contradiction|]. reflexivity.
Qed.

Lemma search_no_opening s :
  (forall c, In c s -> c <> char_lbrace /\ c <> char_lbracket) ->
  Regex.search s = None.
Proof.
  induction s as [|c t IH]; intros H; [reflexivity|].
  cbn [Regex.search]. destruct (H c (or_introl eq_refl)) as [H1 H2].
  rewrite matchHere_not_opening by assumption.
  apply IH. intros c' Hc'. apply H. right. exact Hc'.
Qed.

(** What is stored for a value.  It is either the buffer itself, with its
    bytes as they were, or a value that JSON.parse returned, for the whole
    text or for the text matched by the regular expression.  A buffer whose
    text holds neither an opening brace nor an opening bracket is never
    given to JSON.parse: it is stored as its bytes whatever JSON.parse would
    answer. *)
Theorem stored_value_origin (JSValue : Type)
        (JSON_parse : jsstring -> Completion JSValue) (valueBuffer : Buffer) :
  let str := Utf8.toString valueBuffer in
  (forall raw, decodeEntryValue JSON_parse valueBuffer = Normal (Opaque raw) ->
     raw = valueBuffer) /\
  (forall v, decodeEntryValue JSON_parse valueBuffer = Normal (Structured v) ->
     (braced str = true /\ JSON_parse str = Normal v) \/
     (exists m, Regex.search str = Some m /\ JSON_parse m = Normal v)) /\
  ((forall c, In c str -> c <> char_lbrace /\ c <> char_lbracket) ->
     decodeEntryValue JSON_parse valueBuffer = Normal (Opaque valueBuffer)).
Proof.
  intros str. unfold decodeEntryValue.
  rewrite decodeIndexedDbValue_eq. fold str. cbn [bind].
  rewrite extractJson_eq.
  split; [|split].
  - intros raw. destruct (braced str).
    + destruct (JSON_parse str) as [v|e]; [discriminate|].
      fold str. destruct (Regex.search str) as [m|];
        [destruct (JSON_parse m)|]; intros H; inversion H; reflexivity.
    + fold str. destruct (Regex.search str) as [m|];
        [destruct (JSON_parse m)|]; intros H; inversion H; reflexivity.
  - intros v. destruct (braced str) eqn:Eb.
    + destruct (JSON_parse str) as [v'|e] eqn:Ep.
      * intros H. inversion H; subst. left. split; reflexivity.
      * fold str. destruct (Regex.search str) as [m|]; [|discriminate].
        destruct (JSON_parse m) as [v'|e'] eqn:Em; [|discriminate].
        intros H. inversion H; subst. right. exists m. split; [reflexivity|exact Em].
    + fold str. destruct (Regex.search str) as [m|]; [|discriminate].
      destruct (JSON_parse m) as [v'|e'] eqn:Em; [|discriminate].
      intros H. inversion H; subst. right. exists m. split; [reflexivity|exact Em].
  - intros Hno.
    assert (braced str = false) as ->.
    { unfold braced, startsWithChar. destruct str as [|c t]; [reflexivity|].
      destruct (Hno c (or_introl eq_refl)) as [H1 H2].
      destruct (Z.eqb_spec c char_lbrace); [contradiction|].
      destruct (Z.eqb_spec c char_lbracket); [contradiction|]. reflexivity. }
    fold str. rewrite (search_no_opening str Hno). reflexivity.
Qed.

Lemma dotRun_app_plain run rest :
  Forall (fun c => Regex.isLineTerminator c = false) run ->
  Regex.dotRun (run ++ rest) = run ++ Regex.dotRun rest.
Proof.
  intros H. induction H as [|c run Hc _ IH]; cbn [app Regex.dotRun]; [reflexivity|].
  rewrite Hc, IH. reflexivity.
Qed.

Lemma bracketed_finds opening closing body post :
  Regex.isLineTerminator closing = false ->
  Forall (fun c => Regex.isLineTerminator c = false) body ->
  exists m, Regex.bracketed opening closing (opening :: body ++ closing :: post) = Some m.
Proof.
  intros Hcl Hbody. unfold Regex.bracketed. rewrite Z.eqb_refl.
  destruct (Regex.upToLast closing (Regex.dotRun (body ++ closing :: post))) as [m|] eqn:E.
  - eexists. reflexivity.
  - exfalso. apply upToLast_None in E. apply E.
    rewrite dotRun_app_plain by assumption. apply in_or_app. right.
    cbn [Regex.dotRun]. rewrite Hcl. left. reflexivity.
Qed.

Lemma search_reaches pre : forall s m,
  Regex.matchHere s = Some m -> exists m', Regex.search (pre ++ s) = Some m'.
Proof.
  induction pre as [|c pre IH]; intros s m H; cbn [app].
  - destruct s as [|c t]; cbn [Regex.search]; rewrite H; eexists; reflexivity.
  - cbn [Regex.search]. destruct (Regex.matchHere (c :: pre ++ s));
      [eexists; reflexivity|]. eapply IH. exact H.
Qed.

(** The search finds what is there.  When the text holds an opening brace
    and, later on the same line, a closing brace (or an opening and a
    closing bracket), the regular expression matches, and the match starts
    at that opening character or before it. *)
Theorem search_finds_bracketed (pre body post : jsstring) (opening closing : Z) :
  (opening = char_lbrace /\ closing = char_rbrace) \/
  (opening = char_lbracket /\ closing = char_rbracket) ->
  Forall (fun c => Regex.isLineTerminator c = false) body ->
  let str := pre ++ opening :: body ++ closing :: post in
  exists m before after,
    Regex.search str = Some m /\ str = before ++ m ++ after /\
    (length before <= length pre)%nat.
Proof.
  intros Hoc Hbody str.
  assert (Regex.isLineTerminator closing = false) as Hcl
    by (destruct Hoc as [[_ ->]|[_ ->]]; reflexivity).
  assert (exists m, Regex.matchHere (opening :: body ++ closing :: post) = Some m) as [m0 Hm0].
  { unfold Regex.matchHere. destruct Hoc as [[-> ->]|[-> ->]].
    - destruct (bracketed_finds char_lbrace char_rbrace body post Hcl Hbody) as [m ->].
      eexists. reflexivity.
    - destruct (Regex.bracketed char_lbrace char_rbrace _); [eexists; reflexivity|].
      apply bracketed_finds; assumption. }
  destruct (search_reaches pre _ _ Hm0) as [m Hs]. fold str in Hs.
  destruct (search_Some _ _ Hs) as (before & after & E & _ & Hleft).
  exists m, before, after. split; [exact Hs|]. split; [exact E|].
  destruct (Nat.le_gt_cases (length before) (length pre)) as [Hle|Hgt]; [exact Hle|].
  exfalso. specialize (Hleft (length pre) Hgt).
  unfold str in Hleft. rewrite skipn_length_app in Hleft. congruence.
Qed.

Lemma search_finds_bracketed_witness :
  exists m before after,
    Regex.search ([0x0F] ++ char_lbrace :: [0x61] ++ char_rbrace :: [0x00]) = Some m /\
    [0x0F] ++ char_lbrace :: [0x61] ++ char_rbrace :: [0x00] = before ++ m ++ after /\
    (length before <= length [0x0F])%nat.
Proof.
  apply (search_finds_bracketed [0x0F] [0x61] [0x00] char_lbrace char_rbrace).
  - left. split; reflexivity.
  - repeat constructor.
Defined.

(** ** The scan *)

Lemma getObjectStoreName_in id name :
  getObjectStoreName id = Some name -> In name objectStores.
Proof.
  intros H. pose proof (getObjectStoreName_Some _ _ H) as Hr.
  assert (id = 1 \/ id = 2 \/ id = 3 \/ id = 4 \/ id = 5 \/ id = 6 \/ id = 7) as Hid by lia.
  repeat (destruct Hid as [->|Hid];
          [vm_compute in H; inversion H; subst; cbn; tauto|]).
  subst. vm_compute in H. inversion H; subst. cbn. tauto.
Qed.

Section BufferFacts.

Context {E : Type}.

Lemma assoc_in_names (m : list (string * list E)) name :
  In name (map fst m) -> exists es, assoc String.eqb name m = Some es.
Proof.
  induction m as [|[n es] m IH]; cbn [map fst In assoc]; [tauto|].
  intros [->|H].
  - rewrite String.eqb_refl. eexists. reflexivity.
  - destruct (String.eqb name n); [eexists; reflexivity|]. apply IH. exact H.
Qed.

Lemma assoc_not_in_names (m : list (string * list E)) name :
  ~ In name (map fst m) -> assoc String.eqb name m = None.
Proof.
  induction m as [|[n es] m IH]; cbn [map fst In assoc]; [reflexivity|].
  intros H. destruct (String.eqb_spec name n) as [->|Hne]; [tauto|].
  apply IH. tauto.
Qed.

End BufferFacts.

Section PushFacts.

Context {JSValue : Type}.
Variable JSON_parse : jsstring -> Completion JSValue.

Lemma map_fst_pushEntry name (e : Entry JSValue) m :
  map fst (pushEntry name e m) = map fst m.
Proof.
  induction m as [|[n es] m IH]; cbn [pushEntry map fst]; [reflexivity|].
  destruct (String.eqb name n); cbn [map fst]; [reflexivity|]. f_equal. exact IH.
Qed.

Lemma entryCount_pushEntry name (e : Entry JSValue) m es :
  assoc String.eqb name m = Some es ->
  entryCount (pushEntry name e m) = S (entryCount m).
Proof.
  unfold entryCount.
  induction m as [|[n es'] m IH];
    cbn [pushEntry assoc map list_sum fold_right snd]; [discriminate|].
  destruct (String.eqb name n).
  - intros _. cbn [map list_sum fold_right snd]. rewrite length_app. cbn [length]. lia.
  - intros H. cbn [map list_sum fold_right snd]. unfold list_sum in IH.
    rewrite (IH H). lia.
Qed.

Lemma bufferedEntry_isMapped kv :
  (exists name e, bufferedEntry JSON_parse kv = Some (name, e)) <-> isMapped kv = true.
Proof.
  unfold bufferedEntry, isMapped.
  destruct (parseIndexedDbKey (fst kv)) as [[parsed|]|];
    try (split; [intros (? & ? & ?); discriminate|discriminate]).
  destruct (getObjectStoreName (objectStoreId parsed)) as [name|];
    [|split; [intros (? & ? & ?); discriminate|discriminate]].
  destruct (decodeEntryValue_normal JSON_parse (snd kv)) as [d ->].
  split; [reflexivity|]. intros _. eexists _, _. reflexivity.
Qed.

(** The loop body for a pair the scan buffers. *)
Lemma scanEntry_buffered (st : ScanState JSValue) kv name e :
  map fst (entriesByStore st) = objectStores ->
  bufferedEntry JSON_parse kv = Some (name, e) ->
  scanEntry JSON_parse st kv =
  Normal (mkScan (pushEntry name e (entriesByStore st))
                 (S (totalEntries st)) (S (parsedEntries st)) (console st)) /\
  exists es, assoc String.eqb name (entriesByStore st) = Some es.
Proof.
  intros Hnames Hb. destruct kv as [keyBuffer valueBuffer].
  unfold bufferedEntry in Hb. cbn [fst snd] in Hb. unfold scanEntry.
  destruct (parseIndexedDbKey keyBuffer) as [[parsed|]|]; try discriminate.
  cbn [bind].
  destruct (getObjectStoreName (objectStoreId parsed)) as [n|] eqn:En; [|discriminate].
  destruct (decodeEntryValue JSON_parse valueBuffer) as [d|]; [|discriminate].
  inversion Hb; subst. cbn [option_map].
  destruct (assoc_in_names (entriesByStore st) name) as [es Hes].
  { rewrite Hnames. eapply getObjectStoreName_in. exact En. }
  rewrite Hes. cbn [bind]. split; [reflexivity|]. eexists. reflexivity.
Qed.

(** The loop body for a pair the scan does not buffer. *)
Lemma scanEntry_skipped (st : ScanState JSValue) kv :
  bufferedEntry JSON_parse kv = None ->
  exists notice,
    scanEntry JSON_parse st kv =
    Normal (mkScan (entriesByStore st) (S (totalEntries st)) (parsedEntries st)
                   (console st ++ notice)) /\
    (length notice <= 1)%nat /\
    ((10 <= totalEntries st)%nat -> notice = []).
Proof.
  intros Hb. destruct kv as [keyBuffer valueBuffer].
  unfold bufferedEntry in Hb. cbn [fst snd] in Hb.
  pose proof (parseIndexedDbKey_eq keyBuffer) as Hp.
  destruct (prefixOf keyBuffer) as [[[v1 v2] v3] n]. rewrite Hp in Hb.
  destruct (getObjectStoreName _) as [name|] eqn:En.
  - destruct (decodeEntryValue_normal JSON_parse valueBuffer) as [d Hd].
    rewrite Hd in Hb. discriminate.
  - rewrite (scanEntry_unmapped JSON_parse st _ valueBuffer _ Hp En).
    eexists. split; [reflexivity|].
    destruct (Nat.leb_spec (S (totalEntries st)) 10);
      destruct (negb _); cbn [andb length]; split; try lia; try reflexivity;
      intros; try reflexivity; lia.
Qed.

(** What the scan of a list of pairs does to a state that has a buffer for
    every store. *)
Lemma scanEntries_inv entries : forall (st : ScanState JSValue),
  map fst (entriesByStore st) = objectStores ->
  exists st',
    scanEntries JSON_parse st entries = Normal st' /\
    map fst (entriesByStore st') = objectStores /\
    totalEntries st' = (totalEntries st + length entries)%nat /\
    parsedEntries st' = (parsedEntries st + length (filter isMapped entries))%nat /\
    entryCount (entriesByStore st') =
      (entryCount (entriesByStore st) + length (filter isMapped entries))%nat /\
    (forall name,
       assoc String.eqb name (entriesByStore st') =
       option_map (fun es => es ++ entriesFor JSON_parse name entries)
                  (assoc String.eqb name (entriesByStore st))) /\
    (length (console st') + (10 - totalEntries st')
     <= length (console st) + (10 - totalEntries st))%nat /\
    (length (console st')
     <= length (console st) + (length entries - length (filter isMapped entries)))%nat.
Proof.
  induction entries as [|kv entries IH]; intros st Hnames.
  - exists st. cbn [scanEntries length filter entriesFor flat_map].
    repeat split; try lia; auto.
    intros name. destruct (assoc String.eqb name (entriesByStore st));
      cbn [option_map]; rewrite ?app_nil_r; reflexivity.
  - cbn [scanEntries filter entriesFor flat_map length].
    destruct (bufferedEntry JSON_parse kv) as [[name e]|] eqn:Eb.
    + assert (isMapped kv = true) as ->
        by (apply bufferedEntry_isMapped; eauto).
      destruct (scanEntry_buffered st kv name e Hnames Eb) as (-> & es & Hes).
      cbn [bind].
      destruct (IH (mkScan (pushEntry name e (entriesByStore st)) (S (totalEntries st))
                           (S (parsedEntries st)) (console st)))
        as (st' & Hs & Hn & Ht & Hp & Hc & Ha & Hl & Hu).
      { cbn [entriesByStore]. rewrite map_fst_pushEntry. exact Hnames. }
      cbn [entriesByStore totalEntries parsedEntries console] in *.
      exists st'. split; [exact Hs|]. split; [exact Hn|].
      split; [lia|]. split; [cbn [length]; lia|].
      split; [rewrite Hc, (entryCount_pushEntry name e _ es Hes); cbn [length]; lia|].
      split; [|split; [lia|cbn [length]; lia]].
      intros name'. rewrite Ha, assoc_pushEntry. fold (entriesFor JSON_parse name' entries).
      destruct (String.eqb name' name);
        destruct (assoc String.eqb name' (entriesByStore st)); cbn [option_map app];
        rewrite <- ?app_assoc; reflexivity.
    + assert (isMapped kv = false) as ->.
      { destruct (isMapped kv) eqn:Em; [|reflexivity].
        apply bufferedEntry_isMapped in Em. destruct Em as (? & ? & Em). congruence. }
      destruct (scanEntry_skipped st kv Eb) as (notice & -> & Hlen & Hlate).
      cbn [bind].
      destruct (IH (mkScan (entriesByStore st) (S (totalEntries st))
                           (parsedEntries st) (console st ++ notice)))
        as (st' & Hs & Hn & Ht & Hp & Hc & Ha & Hl & Hu); [exact Hnames|].
      cbn [entriesByStore totalEntries parsedEntries console] in *.
      exists st'. split; [exact Hs|]. split; [exact Hn|].
      split; [lia|]. split; [exact Hp|]. split; [exact Hc|].
      split; [intros name'; rewrite Ha; cbn [app]; reflexivity|].
      rewrite length_app in Hl, Hu.
      pose proof (filter_length_le isMapped entries) as Hf.
      split; [|lia].
      destruct (Nat.le_gt_cases 10 (totalEntries st)) as [Hge|Hlt].
      * rewrite (Hlate Hge) in Hl. cbn [length] in Hl. lia.
      * lia.
Qed.

End PushFacts.

Lemma scan_accounting_lemma {JSValue : Type}
      (JSON_parse : jsstring -> Completion JSValue) (entries : list (Buffer * Buffer)) :
  exists st,
    scanEntries JSON_parse initialScan entries = Normal st /\
    map fst (entriesByStore st) = objectStores /\
    totalEntries st = length entries /\
    parsedEntries st = length (filter isMapped entries) /\
    entryCount (entriesByStore st) = parsedEntries st.
Proof.
  destruct (scanEntries_inv JSON_parse entries initialScan eq_refl)
    as (st & Hs & Hn & Ht & Hp & Hc & _ & _ & _).
  cbn in Ht, Hp, Hc. exists st. repeat split; auto; lia.
Qed.

Lemma scan_groups_lemma {JSValue : Type}
      (JSON_parse : jsstring -> Completion JSValue) (entries : list (Buffer * Buffer)) :
  exists st,
    scanEntries JSON_parse initialScan entries = Normal st /\
    map fst (entriesByStore st) = objectStores /\
    (forall name, In name objectStores ->
       assoc String.eqb name (entriesByStore st)
       = Some (entriesFor JSON_parse name entries)).
Proof.
  destruct (scanEntries_inv JSON_parse entries initialScan eq_refl)
    as (st & Hs & Hn & _ & _ & _ & Ha & _ & _).
  exists st. split; [exact Hs|]. split; [exact Hn|].
  intros name Hin. rewrite Ha.
  destruct (assoc_in_names (entriesByStore (@initialScan JSValue)) name) as [es Hes];
    [exact Hin|].
  rewrite Hes. cbn [option_map]. f_equal.
  assert (es = []) as ->; [|reflexivity].
  revert Hes. cbn. repeat (destruct (String.eqb name _); [congruence|]). discriminate.
Qed.

(** Accounting of the scan.  After the scan of any source, started from the
    empty buffers: the buffers are those of the seven stores, in their
    order; totalEntries is the number of pairs read; parsedEntries is the
    number of pairs whose key names a mapped store, which is also the number
    of entries in all the buffers together; so the pairs of unmapped stores
    are totalEntries minus parsedEntries many. *)
Theorem scan_accounting (JSValue : Type) (JSON_parse : jsstring -> Completion JSValue)
        (entries : list (Buffer * Buffer)) :
  exists st,
    scanEntries JSON_parse initialScan entries = Normal st /\
    map fst (entriesByStore st) = objectStores /\
    totalEntries st = length entries /\
    parsedEntries st = length (filter isMapped entries) /\
    entryCount (entriesByStore st) = parsedEntries st /\
    (totalEntries st - parsedEntries st)%nat
      = length (filter (fun kv => negb (isMapped kv)) entries).
Proof.
  destruct (scanEntries_inv JSON_parse entries initialScan eq_refl)
    as (st & Hs & Hn & Ht & Hp & Hc & _ & _ & _).
  cbn in Ht, Hp, Hc. exists st. repeat split; auto; try lia.
  rewrite Ht, Hp. pose proof (filter_length isMapped entries) as Hf.
  unfold negb in *. lia.
Qed.

(** Grouping of the scan.  After the scan of any source, the buffer of each
    of the seven stores holds exactly the entries of the pairs whose key
    names this store, in the order of the source, each with the user key of
    its key and the decoded value of its value; no other name has a
    buffer. *)
Theorem scan_groups_by_store (JSValue : Type)
        (JSON_parse : jsstring -> Completion JSValue)
        (entries : list (Buffer * Buffer)) :
  exists st,
    scanEntries JSON_parse initialScan entries = Normal st /\
    (forall name, In name objectStores ->
       assoc String.eqb name (entriesByStore st)
       = Some (entriesFor JSON_parse name entries)) /\
    (forall name, ~ In name objectStores ->
       assoc String.eqb name (entriesByStore st) = None).
Proof.
  destruct (scanEntries_inv JSON_parse entries initialScan eq_refl)
    as (st & Hs & Hn & _ & _ & _ & Ha & _ & _).
  exists st. split; [exact Hs|]. split.
  - intros name Hin. rewrite Ha.
    destruct (assoc_in_names (entriesByStore (@initialScan JSValue)) name) as [es Hes];
      [exact Hin|].
    rewrite Hes. cbn [option_map]. f_equal.
    assert (es = []) as ->; [|reflexivity].
    revert Hes. cbn. repeat (destruct (String.eqb name _); [congruence|]). discriminate.
  - intros name Hout. apply assoc_not_in_names. rewrite Hn. exact Hout.
Qed.

(** While it reads the pairs, the loop of the scan writes at most ten
    notices about pairs it leaves out, however many pairs the source
    holds: the notices of unmapped stores stop after the tenth pair, and no
    pair of a mapped store gives one. *)
Theorem scan_console_bounded (JSValue : Type)
        (JSON_parse : jsstring -> Completion JSValue)
        (entries : list (Buffer * Buffer)) :
  exists st,
    scanEntries JSON_parse initialScan entries = Normal st /\
    (length (console st) <= 10)%nat /\
    (length (console st) <= length entries - length (filter isMapped entries))%nat.
Proof.
  destruct (scanEntries_inv JSON_parse entries initialScan eq_refl)
    as (st & Hs & _ & _ & _ & _ & _ & Hl & Hu).
  exists st. split; [exact Hs|]. cbn in Hl, Hu. split; lia.
Qed.

(** ** The writes and the whole operation *)

Section WriteFacts.

Context {JSValue : Type}.
Variable JSON_parse : jsstring -> Completion JSValue.
Context {Idb : Type}.
Variable indexedDB_open : Idb -> Idb * Completion OpenOutcome.
Variable idb_transaction : Idb -> string -> Idb * Completion unit.
Variable store_put : Idb -> string -> DecodedValue JSValue -> UserKey -> Idb * Completion unit.
Variable store_add : Idb -> string -> DecodedValue JSValue -> Idb * Completion unit.
Variable tx_settled : Idb -> string -> Idb * TxOutcome.

Lemma syncStore_count (ws : WriteState Idb) storeName entries :
  (syncedCount ws
   <= syncedCount (fst (syncStore idb_transaction store_put store_add tx_settled ws
                                  (storeName, entries)))
   <= syncedCount ws + length entries)%nat.
Proof.
  unfold syncStore. destruct (length entries =? 0)%nat; [cbn [fst]; lia|].
  destruct (idb_transaction (idb ws) storeName) as [idb1 [u|e]];
    cbn [fst syncedCount]; [|lia].
  pose proof (writeEntries_count store_put store_add storeName entries
                (mkWrite idb1 (syncedCount ws) (warnings ws))) as H.
  cbn [syncedCount] in H.
  destruct (tx_settled _ storeName) as [idb3 [|[e'|]|]]; cbn [fst syncedCount]; lia.
Qed.

Lemma syncStores_count stores : forall (ws : WriteState Idb),
  (syncedCount ws
   <= syncedCount (fst (syncStores idb_transaction store_put store_add tx_settled ws stores))
   <= syncedCount ws + entryCount stores)%nat.
Proof.
  unfold entryCount.
  induction stores as [|[storeName entries] stores IH]; intros ws;
    cbn [syncStores map list_sum fold_right snd fst]; [lia|].
  pose proof (syncStore_count ws storeName entries) as H1.
  destruct (syncStore idb_transaction store_put store_add tx_settled ws
                      (storeName, entries)) as [ws' flow].
  cbn [fst] in H1. pose proof (IH ws') as H2. unfold list_sum in H2.
  destruct flow; cbn [fst]; lia.
Qed.

(** Stores without entries are passed over: no transaction is opened. *)
Lemma syncStores_empty stores : forall (ws : WriteState Idb),
  Forall (fun store => snd store = []) stores ->
  syncStores idb_transaction store_put store_add tx_settled ws stores = (ws, GoOn).
Proof.
  induction stores as [|[storeName entries] stores IH]; intros ws H; [reflexivity|].
  inversion H as [|? ? He Hrest]; subst. cbn [snd] in He. subst entries.
  cbn [syncStores syncStore length Nat.eqb]. apply IH. exact Hrest.
Qed.

Section CallsReturn.

(** A target that opens every transaction and whose put and add return. *)
Hypothesis transaction_opens : forall db name, snd (idb_transaction db name) = Normal tt.
Hypothesis put_returns : forall db name v k, snd (store_put db name v k) = Normal tt.
Hypothesis add_returns : forall db name v, snd (store_add db name v) = Normal tt.

Lemma writeEntries_all_return storeName entries : forall (ws : WriteState Idb),
  syncedCount (writeEntries store_put store_add storeName ws entries)
  = (syncedCount ws + length entries)%nat.
Proof.
  induction entries as [|entry entries IH]; intros ws;
    cbn [writeEntries fold_left length]; [lia|].
  fold (writeEntries store_put store_add storeName
          (writeEntry store_put store_add storeName ws entry) entries).
  rewrite IH. unfold writeEntry.
  assert (snd (putOrAdd store_put store_add storeName (idb ws) entry) = Normal tt) as H
    by (unfold putOrAdd; destruct (entry_key entry); auto).
  destruct (putOrAdd store_put store_add storeName (idb ws) entry) as [db r].
  cbn [snd] in H. subst r. cbn [syncedCount]. lia.
Qed.

Section TransactionsSettle.

(** Every transaction ends with [oncomplete], or with [onerror] and an
    error object. *)
Hypothesis transaction_settles : forall db name,
  snd (tx_settled db name) = TxComplete \/
  exists e, snd (tx_settled db name) = TxError (Some e).

Lemma syncStores_all_return stores : forall (ws : WriteState Idb),
  exists ws',
    syncStores idb_transaction store_put store_add tx_settled ws stores = (ws', GoOn) /\
    syncedCount ws' = (syncedCount ws + entryCount stores)%nat.
Proof.
  unfold entryCount.
  induction stores as [|[storeName entries] stores IH]; intros ws;
    cbn [syncStores map list_sum fold_right snd].
  - exists ws. split; [reflexivity|lia].
  - assert (Hturn : exists ws1,
               syncStore idb_transaction store_put store_add tx_settled ws (storeName, entries)
               = (ws1, GoOn) /\
               syncedCount ws1 = (syncedCount ws + length entries)%nat).
    { unfold syncStore. destruct (Nat.eqb_spec (length entries) 0) as [E|E].
      - exists ws. split; [reflexivity|lia].
      - pose proof (transaction_opens (idb ws) storeName) as Ht.
        destruct (idb_transaction (idb ws) storeName) as [idb1 r]. cbn [snd] in Ht. subst r.
        pose proof (writeEntries_all_return storeName entries
                      (mkWrite idb1 (syncedCount ws) (warnings ws))) as Hw.
        cbn [syncedCount] in Hw.
        pose proof (transaction_settles
                      (idb (writeEntries store_put store_add storeName
                              (mkWrite idb1 (syncedCount ws) (warnings ws)) entries))
                      storeName) as Hs.
        destruct (tx_settled _ storeName) as [idb3 outcome]. cbn [snd] in Hs.
        destruct Hs as [->|[e ->]]; eexists; (split; [reflexivity|]);
          cbn [syncedCount]; exact Hw. }
    destruct Hturn as (ws1 & -> & Hc1).
    destruct (IH ws1) as (ws' & Hloop & Hc'). exists ws'. split; [exact Hloop|].
    unfold list_sum in Hc'. lia.
Qed.

(** When every call of put and add returns and every transaction ends with
    [oncomplete] or with an error object, every buffered entry is counted:
    for a source read to its end, the number of synced entries is the
    number of pairs whose key names a mapped store, also for the entries
    of a transaction that failed, and the promise is resolved with [true]
    exactly when there is such a pair. *)
Theorem all_accepted_all_synced (src : Source) (idb0 : Idb) :
  src_error src = None ->
  let out := onTargetOpen JSON_parse idb_transaction store_put store_add tx_settled
                          src idb0 in
  syncedCount (fst out) = length (filter isMapped (src_entries src)) /\
  snd out = Some (0 <? length (filter isMapped (src_entries src)))%nat /\
  (snd out = Some true <-> exists kv, In kv (src_entries src) /\ isMapped kv = true).
Proof.
  intros Herr out. subst out. unfold onTargetOpen, scanSource. rewrite Herr.
  destruct (scan_accounting_lemma JSON_parse (src_entries src))
    as (st & Hs & _ & _ & Hp & Hc). rewrite Hs. cbn [bind].
  destruct (syncStores_all_return (entriesByStore st) (mkWrite idb0 0 (console st)))
    as (ws' & -> & Hcount).
  cbn [syncedCount] in Hcount. rewrite Hc, Hp in Hcount. cbn [Nat.add] in Hcount.
  cbn [fst snd]. rewrite Hcount.
  split; [reflexivity|]. split; [reflexivity|].
  split.
  - intros Hpos. injection Hpos as Hpos. apply Nat.ltb_lt in Hpos.
    destruct (filter isMapped (src_entries src)) as [|kv l] eqn:Ef;
      [cbn in Hpos; lia|].
    assert (In kv (filter isMapped (src_entries src))) as Hin by (rewrite Ef; left; reflexivity).
    apply filter_In in Hin. exists kv. exact Hin.
  - intros (kv & Hin & Hm).
    assert (In kv (filter isMapped (src_entries src))) as Hf by (apply filter_In; auto).
    destruct (filter isMapped (src_entries src)); [contradiction|reflexivity].
Qed.

End TransactionsSettle.

Section TransactionFails.

(** The error event of a request reaches the transaction while
    transaction.error is still null. *)
Hypothesis transaction_fails : forall db name, snd (tx_settled db name) = TxError None.

Lemma syncStores_fail stores : forall (ws : WriteState Idb),
  (0 < entryCount stores)%nat ->
  snd (syncStores idb_transaction store_put store_add tx_settled ws stores) = ThrownOut /\
  (syncedCount ws
   < syncedCount (fst (syncStores idb_transaction store_put store_add tx_settled ws stores)))%nat.
Proof.
  unfold entryCount.
  induction stores as [|[storeName entries] stores IH]; intros ws;
    cbn [syncStores map list_sum fold_right snd]; [lia|].
  intros Hpos. unfold syncStore. destruct (Nat.eqb_spec (length entries) 0) as [E|E].
  - apply IH. unfold list_sum. lia.
  - pose proof (transaction_opens (idb ws) storeName) as Ht.
    destruct (idb_transaction (idb ws) storeName) as [idb1 r]. cbn [snd] in Ht. subst r.
    pose proof (writeEntries_all_return storeName entries
                  (mkWrite idb1 (syncedCount ws) (warnings ws))) as Hw.
    cbn [syncedCount] in Hw.
    pose proof (transaction_fails
                  (idb (writeEntries store_put store_add storeName
                          (mkWrite idb1 (syncedCount ws) (warnings ws)) entries))
                  storeName) as Hs.
    destruct (tx_settled _ storeName) as [idb3 outcome]. cbn [snd] in Hs. subst outcome.
    cbn [fst snd syncedCount]. split; [reflexivity|lia].
Qed.

(** A transaction that fails ends the sync.  When the calls of put and add
    return but every transaction then fails by an error event, so that its
    promise is rejected with [null] and reading the message of that in the
    [catch] throws, the promise of the sync is resolved with [false] for a
    source that holds a pair of a mapped store: although at least one entry
    was counted as synced. *)
Theorem failed_transaction_resolves_false (src : Source) (idb0 : Idb) :
  src_error src = None ->
  (exists kv, In kv (src_entries src) /\ isMapped kv = true) ->
  let out := onTargetOpen JSON_parse idb_transaction store_put store_add tx_settled
                          src idb0 in
  snd out = Some false /\
  (0 < syncedCount (fst out) <= length (filter isMapped (src_entries src)))%nat.
Proof.
  intros Herr (kv & Hin & Hm) out. subst out. unfold onTargetOpen, scanSource. rewrite Herr.
  destruct (scan_accounting_lemma JSON_parse (src_entries src))
    as (st & Hs & _ & _ & Hp & Hc). rewrite Hs. cbn [bind].
  assert (In kv (filter isMapped (src_entries src))) as Hf by (apply filter_In; auto).
  assert (0 < entryCount (entriesByStore st))%nat as Hpos.
  { rewrite Hc, Hp. destruct (filter isMapped (src_entries src)); [contradiction|cbn; lia]. }
  destruct (syncStores_fail (entriesByStore st) (mkWrite idb0 0 (console st)) Hpos)
    as [Hflow Hcount].
  pose proof (syncStores_count (entriesByStore st) (mkWrite idb0 0 (console st))) as Hb.
  destruct (syncStores idb_transaction store_put store_add tx_settled
              (mkWrite idb0 0 (console st)) (entriesByStore st)) as [ws flow].
  cbn [fst snd syncedCount] in *. subst flow. cbn [fst snd].
  split; [reflexivity|]. rewrite Hc, Hp in Hb. lia.
Qed.

End TransactionFails.

End CallsReturn.

Lemma writeEntries_all_throw storeName entries :
  (forall db name v k, exists e, snd (store_put db name v k) = Throw e) ->
  (forall db name v, exists e, snd (store_add db name v) = Throw e) ->
  forall ws : WriteState Idb,
    syncedCount (writeEntries store_put store_add storeName ws entries) = syncedCount ws.
Proof.
  intros Hput Hadd.
  induction entries as [|entry entries IH]; intros ws;
    cbn [writeEntries fold_left]; [reflexivity|].
  fold (writeEntries store_put store_add storeName
          (writeEntry store_put store_add storeName ws entry) entries).
  rewrite IH. unfold writeEntry.
  assert (exists e, snd (putOrAdd store_put store_add storeName (idb ws) entry) = Throw e)
    as [e H] by (unfold putOrAdd; destruct (entry_key entry); auto).
  destruct (putOrAdd store_put store_add storeName (idb ws) entry) as [db r].
  cbn [snd] in H. subst r. reflexivity.
Qed.

Lemma syncStores_all_throw stores :
  (forall db name v k, exists e, snd (store_put db name v k) = Throw e) ->
  (forall db name v, exists e, snd (store_add db name v) = Throw e) ->
  forall ws : WriteState Idb,
    syncedCount (fst (syncStores idb_transaction store_put store_add tx_settled ws stores))
    = syncedCount ws.
Proof.
  intros Hput Hadd.
  induction stores as [|[storeName entries] stores IH]; intros ws;
    cbn [syncStores]; [reflexivity|].
  assert (Hturn : syncedCount (fst (syncStore idb_transaction store_put store_add tx_settled
                                              ws (storeName, entries))) = syncedCount ws).
  { unfold syncStore. destruct (length entries =? 0)%nat; [reflexivity|].
    destruct (idb_transaction (idb ws) storeName) as [idb1 [u|e]]; [|reflexivity].
    pose proof (writeEntries_all_throw storeName entries Hput Hadd
                  (mkWrite idb1 (syncedCount ws) (warnings ws))) as Hw.
    cbn [syncedCount] in Hw.
    destruct (tx_settled _ storeName) as [idb3 [|[e'|]|]]; cbn [fst syncedCount]; exact Hw. }
  destruct (syncStore idb_transaction store_put store_add tx_settled ws (storeName, entries))
    as [ws' flow].
  cbn [fst] in Hturn. destruct flow; cbn [fst]; [rewrite IH|..]; exact Hturn.
Qed.

Lemma onTargetOpen_counts (src : Source) (idb0 : Idb) :
  let out := onTargetOpen JSON_parse idb_transaction store_put store_add tx_settled
                          src idb0 in
  (syncedCount (fst out) <= length (filter isMapped (src_entries src)))%nat /\
  (snd out = Some true ->
   src_error src = None /\
   (0 < syncedCount (fst out))%nat /\
   exists kv, In kv (src_entries src) /\ isMapped kv = true).
Proof.
  cbv zeta. unfold onTargetOpen, scanSource.
  destruct (scan_accounting_lemma JSON_parse (src_entries src))
    as (st & Hs & _ & _ & Hp & Hc). rewrite Hs. cbn [bind].
  destruct (src_error src) as [e|].
  - cbn [fst snd syncedCount]. split; [lia|discriminate].
  - pose proof (syncStores_count (entriesByStore st) (mkWrite idb0 0 (console st))) as Hb.
    destruct (syncStores idb_transaction store_put store_add tx_settled
                (mkWrite idb0 0 (console st)) (entriesByStore st)) as [ws flow].
    cbn [fst syncedCount] in Hb. rewrite Hc, Hp in Hb.
    destruct flow; cbn [fst snd]; (split; [lia|]); try discriminate.
    intros Hpos. injection Hpos as Hpos. apply Nat.ltb_lt in Hpos.
    split; [reflexivity|]. split; [exact Hpos|].
    destruct (filter isMapped (src_entries src)) as [|kv l] eqn:Ef; [cbn in Hb; lia|].
    assert (In kv (filter isMapped (src_entries src))) as Hin by (rewrite Ef; left; reflexivity).
    apply filter_In in Hin. exists kv. exact Hin.
Qed.

(** What counts as synced.  The number of synced entries never exceeds the
    number of pairs whose key names a mapped store.  A [true] result needs
    a source that was read to its end and holds a pair of a mapped store,
    and at least one counted entry.  An entry is counted only when its
    call of put or add returned: when every call of put and add throws,
    nothing is counted and the result is not [true], whatever the source
    holds. *)
Theorem synced_at_most_parsed (src : Source) (idb0 : Idb) :
  let out := onTargetOpen JSON_parse idb_transaction store_put store_add tx_settled
                          src idb0 in
  (syncedCount (fst out) <= length (filter isMapped (src_entries src)))%nat /\
  (snd out = Some true ->
   src_error src = None /\
   (0 < syncedCount (fst out))%nat /\
   exists kv, In kv (src_entries src) /\ isMapped kv = true) /\
  ((forall db name v k, exists e, snd (store_put db name v k) = Throw e) ->
   (forall db name v, exists e, snd (store_add db name v) = Throw e) ->
   syncedCount (fst out) = 0%nat /\ snd out <> Some true).
Proof.
  cbv zeta. pose proof (onTargetOpen_counts src idb0) as [Hle Htrue]. cbv zeta in Hle, Htrue.
  split; [exact Hle|]. split; [exact Htrue|].
  intros Hput Hadd.
  assert (Hzero : syncedCount (fst (onTargetOpen JSON_parse idb_transaction store_put
                                                 store_add tx_settled src idb0)) = 0%nat).
  { unfold onTargetOpen.
    destruct (scanSource JSON_parse src) as [st|e]; [|reflexivity].
    pose proof (syncStores_all_throw (entriesByStore st) Hput Hadd
                  (mkWrite idb0 0 (console st))) as H0.
    destruct (syncStores idb_transaction store_put store_add tx_settled
                (mkWrite idb0 0 (console st)) (entriesByStore st)) as [ws flow].
    cbn [fst syncedCount] in H0. destruct flow; exact H0. }
  split; [exact Hzero|].
  intros Ht. destruct (Htrue Ht) as (_ & Hpos & _). lia.
Qed.

Lemma entriesFor_unmapped name (entries : list (Buffer * Buffer)) :
  Forall (fun kv => isMapped kv = false) entries ->
  entriesFor JSON_parse name entries = [].
Proof.
  unfold entriesFor. induction 1 as [|kv l Hkv _ IH]; [reflexivity|].
  cbn [flat_map]. rewrite IH, app_nil_r.
  destruct (bufferedEntry JSON_parse kv) as [[n e]|] eqn:Eb; [|reflexivity].
  assert (isMapped kv = true) by (apply (bufferedEntry_isMapped JSON_parse); eauto).
  congruence.
Qed.

(** Nothing to write.  When no pair of the source names a mapped store (an
    empty source too), no transaction is opened: the target database is
    left as it was and the result is [false]. *)
Theorem nothing_mapped_nothing_written (src : Source) (idb0 : Idb) :
  Forall (fun kv => isMapped kv = false) (src_entries src) ->
  let out := onTargetOpen JSON_parse idb_transaction store_put store_add tx_settled
                          src idb0 in
  idb (fst out) = idb0 /\ syncedCount (fst out) = 0%nat /\ snd out = Some false.
Proof.
  intros Hnone. cbv zeta. unfold onTargetOpen, scanSource.
  destruct (scan_groups_lemma JSON_parse (src_entries src)) as (st & Hs & Hn & Hg).
  rewrite Hs. cbn [bind]. destruct (src_error src) as [e|]; [repeat split|].
  rewrite syncStores_empty; [repeat split|].
  pose proof (fun name => entriesFor_unmapped name _ Hnone) as Hempty.
  apply Forall_forall. intros [name es] Hin. cbn [snd].
  assert (In name objectStores) as Hname
    by (rewrite <- Hn; apply in_map_iff; exists (name, es); auto).
  pose proof (Hg name Hname) as Ha. rewrite Hempty in Ha.
  (* the first buffer under this name is empty, and the names do not repeat *)
  clear - Hn Hin Ha.
  assert (NoDup (map fst (entriesByStore st))) as Hnd.
  { rewrite Hn. repeat constructor; cbn; intuition discriminate. }
  revert Hnd Hin Ha. generalize (entriesByStore st) as m. clear.
  induction m as [|[n es'] m IH]; cbn [map fst In assoc]; [tauto|].
  intros Hnd [Heq|Hin] Ha.
  - inversion Heq; subst. rewrite String.eqb_refl in Ha. congruence.
  - inversion Hnd as [|? ? Hnotin Hnd']; subst.
    destruct (String.eqb_spec name n) as [->|Hne].
    + exfalso. apply Hnotin. apply in_map_iff. exists (n, es). auto.
    + apply IH; assumption.
Qed.


End WriteFacts.

Lemma all_accepted_all_synced_witness :
  let out := onTargetOpen Json.parse
               (fun (db : nat) (_ : string) => (db, Normal tt))
               (fun db _ _ _ => (S db, Normal tt))
               (fun db _ _ => (S db, Normal tt))
               (fun db _ => (db, TxComplete))
               (mkSource [([x00; x02; x00; x74; x31], [x7b; x7d]);
                          ([x00; x63; x00], [x7b; x7d])] None) 0%nat in
  syncedCount (fst out) = 1%nat /\
  snd out = Some true /\
  (snd out = Some true <->
   exists kv, In kv [([x00; x02; x00; x74; x31], [x7b; x7d]);
                     ([x00; x63; x00], [x7b; x7d])] /\ isMapped kv = true).
Proof.
  apply (all_accepted_all_synced Json.parse
           (fun (db : nat) (_ : string) => (db, Normal tt))
           (fun db _ _ _ => (S db, Normal tt))
           (fun db _ _ => (S db, Normal tt))
           (fun db _ => (db, TxComplete))
           (fun _ _ => eq_refl) (fun _ _ _ _ => eq_refl) (fun _ _ _ => eq_refl)
           (fun _ _ => or_introl eq_refl)
           (mkSource [([x00; x02; x00; x74; x31], [x7b; x7d]);
                      ([x00; x63; x00], [x7b; x7d])] None) 0%nat eq_refl).
Defined.

(** Two pairs of the store terms and one of the store kanji: the
    transaction of terms fails, and kanji is not written. *)
Lemma failed_transaction_resolves_false_witness :
  let out := onTargetOpen Json.parse
               (fun (db : nat) (_ : string) => (db, Normal tt))
               (fun db _ _ _ => (S db, Normal tt))
               (fun db _ _ => (S db, Normal tt))
               (fun db _ => (0%nat, TxError None))
               (mkSource [([x00; x02; x00; x74; x31], [x7b; x7d]);
                          ([x00; x03; x00; x74; x32], [x7b; x7d]);
                          ([x00; x02; x00; x74; x33], [x7b; x7d])] None) 0%nat in
  snd out = Some false /\ (0 < syncedCount (fst out) <= 3)%nat.
Proof.
  apply (failed_transaction_resolves_false Json.parse
           (fun (db : nat) (_ : string) => (db, Normal tt))
           (fun db _ _ _ => (S db, Normal tt))
           (fun db _ _ => (S db, Normal tt))
           (fun db _ => (0%nat, TxError None))
           (fun _ _ => eq_refl) (fun _ _ _ _ => eq_refl) (fun _ _ _ => eq_refl)
           (fun _ _ => eq_refl)
           (mkSource [([x00; x02; x00; x74; x31], [x7b; x7d]);
                      ([x00; x03; x00; x74; x32], [x7b; x7d]);
                      ([x00; x02; x00; x74; x33], [x7b; x7d])] None) 0%nat eq_refl).
  exists ([x00; x02; x00; x74; x31], [x7b; x7d]). split; [left; reflexivity|].
  vm_compute. reflexivity.
Defined.

Lemma nothing_mapped_nothing_written_witness :
  let out := onTargetOpen Json.parse
               (fun (db : nat) (_ : string) => (S db, Normal tt))
               (fun db _ _ _ => (S db, Normal tt))
               (fun db _ _ => (S db, Normal tt))
               (fun db _ => (S db, TxComplete))
               (mkSource [([x00; x63; x00], [x7b; x7d]); ([], [])] None) 0%nat in
  idb (fst out) = 0%nat /\ syncedCount (fst out) = 0%nat /\ snd out = Some false.
Proof.
  apply (nothing_mapped_nothing_written Json.parse
           (fun (db : nat) (_ : string) => (S db, Normal tt))
           (fun db _ _ _ => (S db, Normal tt))
           (fun db _ _ => (S db, Normal tt))
           (fun db _ => (S db, TxComplete))
           (mkSource [([x00; x63; x00], [x7b; x7d]); ([], [])] None) 0%nat).
  repeat constructor.
Defined.

(* ===================================================================== *)
(** ** EdgeStorageAccess *)
(* ===================================================================== *)

Section EdgeStorageFacts.

Variable join : list string -> string.
Variable toLowerCase : string -> string.
Variable m : EdgeStorage.Machine.

Lemma findIn_Some extensionDirs extId :
  EdgeStorage.findIn join toLowerCase m extensionDirs = Normal (Some extId) ->
  exists before after versions,
    extensionDirs = before ++ extId :: after /\
    Forall (EdgeStorage.passedBy join toLowerCase m) before /\
    let extPath := join [EdgeStorage.edgeExtensionsPath join m; extId] in
    EdgeStorage.existsSync m extPath = true /\
    EdgeStorage.startsWith "." extId = false /\
    EdgeStorage.readdirSync m extPath = Normal versions /\
    EdgeStorage.hasYomitanManifest join toLowerCase m extPath versions = true.
Proof.
  induction extensionDirs as [|d rest IH]; cbn [EdgeStorage.findIn]; intros H.
  - discriminate.
  - destruct (EdgeStorage.existsSync m (join [EdgeStorage.edgeExtensionsPath join m; d]))
      eqn:Hex; cbn [negb orb] in H.
    + destruct (EdgeStorage.startsWith "." d) eqn:Hdot.
      * destruct (IH H) as (before & after & versions & -> & Hb & Hrest).
        exists (d :: before), after, versions. split; [reflexivity|].
        split; [|exact Hrest].
        constructor; [|exact Hb]. right. left. exact Hdot.
      * destruct (EdgeStorage.readdirSync m (join [EdgeStorage.edgeExtensionsPath join m; d]))
          as [versions|e] eqn:Hrd; cbn [bind] in H; [|discriminate].
        destruct (EdgeStorage.hasYomitanManifest join toLowerCase m _ versions) eqn:Hm.
        -- injection H as <-. exists [], rest, versions.
           split; [reflexivity|]. split; [constructor|].
           cbv zeta. auto.
        -- destruct (IH H) as (before & after & versions' & -> & Hb & Hrest).
           exists (d :: before), after, versions'. split; [reflexivity|].
           split; [|exact Hrest].
           constructor; [|exact Hb]. right. right. exists versions. auto.
    + destruct (IH H) as (before & after & versions & -> & Hb & Hrest).
      exists (d :: before), after, versions. split; [reflexivity|].
      split; [|exact Hrest].
      constructor; [|exact Hb]. left. exact Hex.
Qed.

Lemma hasYomitanManifest_true extPath versions :
  EdgeStorage.hasYomitanManifest join toLowerCase m extPath versions = true ->
  exists version name,
    In version versions /\
    let manifestPath := join [extPath; version; "manifest.json"%string] in
    EdgeStorage.existsSync m manifestPath = true /\
    EdgeStorage.manifestName m manifestPath = Normal (Some name) /\
    name <> ""%string /\
    EdgeStorage.includes "yomitan" (toLowerCase name) = true.
Proof.
  unfold EdgeStorage.hasYomitanManifest. intros H.
  apply existsb_exists in H. destruct H as (version & Hin & H).
  apply andb_true_iff in H. destruct H as [Hex Hm].
  unfold EdgeStorage.isYomitanManifest in Hm.
  destruct (EdgeStorage.manifestName m _) as [[name|]|e] eqn:Hname; try discriminate.
  apply andb_true_iff in Hm. destruct Hm as [Ht Hinc].
  exists version, name. split; [exact Hin|]. cbv zeta.
  repeat split; auto.
  intros ->. discriminate.
Qed.

Lemma construct_fields es :
  EdgeStorage.construct join toLowerCase m = Normal es ->
  es = EdgeStorage.mkEdgeStorageAccess None None None \/
  exists extId,
    es = EdgeStorage.mkEdgeStorageAccess
           (Some extId) (Some (EdgeStorage.storagePathOf join m extId))
           (Some (EdgeStorage.indexedDbPathOf join m extId)) /\
    EdgeStorage.existsSync m (EdgeStorage.edgeExtensionsPath join m) = true /\
    exists extensionDirs,
      EdgeStorage.readdirSync m (EdgeStorage.edgeExtensionsPath join m)
      = Normal extensionDirs /\
      EdgeStorage.findIn join toLowerCase m extensionDirs = Normal (Some extId).
Proof.
  unfold EdgeStorage.construct. intros H.
  destruct (EdgeStorage.existsSync m (EdgeStorage.edgeExtensionsPath join m)) eqn:Hex;
    cbn [negb] in H.
  - destruct (EdgeStorage.readdirSync m (EdgeStorage.edgeExtensionsPath join m))
      as [dirs|e] eqn:Hrd; cbn [bind] in H; [|discriminate].
    destruct (EdgeStorage.findIn join toLowerCase m dirs) as [[extId|]|e] eqn:Hf;
      cbn [bind] in H; try discriminate.
    + injection H as <-. right. exists extId. split; [reflexivity|].
      split; [reflexivity|]. exists dirs. auto.
    + injection H as <-. left. reflexivity.
  - injection H as <-. left. reflexivity.
Qed.

(** The extension the constructor settles on is the first entry of the
    extensions directory that exists, does not start with a dot and has, in
    one of its version directories, a manifest.json that exists and whose
    name, in lower case, includes "yomitan"; every entry before it was
    passed by.  The three fields are then set together, and the stored
    path of the IndexedDB store is the one getIndexedDbPath computes. *)
Theorem found_extension_is_first_match es extId :
  EdgeStorage.construct join toLowerCase m = Normal es ->
  EdgeStorage._extensionId es = Some extId ->
  let extPath := join [EdgeStorage.edgeExtensionsPath join m; extId] in
  EdgeStorage._storagePath es = Some (EdgeStorage.storagePathOf join m extId) /\
  EdgeStorage._indexedDbPath es = Some (EdgeStorage.indexedDbPathOf join m extId) /\
  (extId <> ""%string ->
   EdgeStorage.getIndexedDbPath join m es = EdgeStorage._indexedDbPath es) /\
  EdgeStorage.existsSync m (EdgeStorage.edgeExtensionsPath join m) = true /\
  EdgeStorage.existsSync m extPath = true /\
  EdgeStorage.startsWith "." extId = false /\
  (exists before after,
     EdgeStorage.readdirSync m (EdgeStorage.edgeExtensionsPath join m)
     = Normal (before ++ extId :: after) /\
     Forall (EdgeStorage.passedBy join toLowerCase m) before) /\
  (exists versions version name,
     EdgeStorage.readdirSync m extPath = Normal versions /\
     In version versions /\
     let manifestPath := join [extPath; version; "manifest.json"%string] in
     EdgeStorage.existsSync m manifestPath = true /\
     EdgeStorage.manifestName m manifestPath = Normal (Some name) /\
     name <> ""%string /\
     EdgeStorage.includes "yomitan" (toLowerCase name) = true).
Proof.
  intros Hc Hid. cbv zeta.
  destruct (construct_fields es Hc) as [->|(extId' & -> & Hex & dirs & Hrd & Hf)].
  - discriminate.
  - cbn in Hid. injection Hid as ->.
    destruct (findIn_Some _ _ Hf) as (before & after & versions & -> & Hb & Hrest).
    cbv zeta in Hrest. destruct Hrest as (Hexp & Hdot & Hrdv & Hm).
    destruct (hasYomitanManifest_true _ _ Hm) as (version & name & Hin & Hman).
    cbv zeta in Hman.
    split; [reflexivity|]. split; [reflexivity|].
    split.
    { intros Hne. unfold EdgeStorage.getIndexedDbPath. cbn.
      destruct extId; [congruence|reflexivity]. }
    split; [exact Hex|]. split; [exact Hexp|]. split; [exact Hdot|].
    split.
    { exists before, after. auto. }
    exists versions, version, name. auto.
Qed.

Section SyncFrom.

Context {JSValue : Type}.
Variable JSON_parse : jsstring -> Completion JSValue.
Context {Idb : Type}.
Variable indexedDB_open : Idb -> Idb * Completion OpenOutcome.
Variable idb_transaction : Idb -> string -> Idb * Completion unit.
Variable store_put : Idb -> string -> DecodedValue JSValue -> UserKey -> Idb * Completion unit.
Variable store_add : Idb -> string -> DecodedValue JSValue -> Idb * Completion unit.
Variable tx_settled : Idb -> string -> Idb * TxOutcome.

(** Without the data of Edge nothing is synced and nothing is opened:
    when the extensions directory of Edge does not exist, when no extension
    was found, or when the directory of the IndexedDB store of the found
    extension does not exist, syncEdgeIndexedDb resolves with false and
    leaves the target database as it was, whatever the libraries and the
    databases would do.  An exception of the constructor (a directory that
    cannot be listed) rejects the promise, with the target untouched. *)
Theorem sync_without_edge_data importLevel openLevel openClassic (idb0 : Idb) :
  let sync :=
    EdgeStorage.syncEdgeIndexedDb_from join toLowerCase m JSON_parse indexedDB_open
      idb_transaction store_put store_add tx_settled importLevel openLevel openClassic idb0 in
  (EdgeStorage.existsSync m (EdgeStorage.edgeExtensionsPath join m) = false ->
   sync = (idb0, Fulfilled false)) /\
  (forall es,
     EdgeStorage.construct join toLowerCase m = Normal es ->
     EdgeStorage._extensionId es = None \/
     EdgeStorage.isIndexedDbAvailable join m es = false ->
     sync = (idb0, Fulfilled false)) /\
  (forall e,
     EdgeStorage.construct join toLowerCase m = Throw e ->
     sync = (idb0, Rejected e)).
Proof.
  cbv zeta. unfold EdgeStorage.syncEdgeIndexedDb_from, syncEdgeIndexedDb.
  cbn [env_indexedDbPath env_existsSync].
  split; [|split].
  - intros Hex. unfold EdgeStorage.construct. rewrite Hex. cbn [negb bind].
    reflexivity.
  - intros es -> H. cbn [bind].
    unfold pathExists, EdgeStorage.isIndexedDbAvailable in *.
    cbn [env_existsSync].
    destruct H as [H|H].
    + unfold EdgeStorage.getIndexedDbPath. rewrite H. reflexivity.
    + destruct (EdgeStorage.getIndexedDbPath join m es) as [p|]; [|reflexivity].
      rewrite H. rewrite orb_true_r. reflexivity.
  - intros e ->. reflexivity.
Qed.

End SyncFrom.

End EdgeStorageFacts.

Lemma found_extension_is_first_match_witness :
  EdgeStorage._storagePath
    (EdgeStorage.mkEdgeStorageAccess
       (Some "a-b"%string)
       (Some "L/Microsoft/Edge/User Data/Default/Local Extension Settings/a-b"%string)
       (Some "L/Microsoft/Edge/User Data/Default/IndexedDB/chrome-extension_a_b_0.indexeddb.leveldb"%string))
  = Some (EdgeStorage.storagePathOf EdgeStorage.slashJoin EdgeStorage.oneExtension "a-b").
Proof.
  exact (proj1 (found_extension_is_first_match EdgeStorage.slashJoin (fun s => s) EdgeStorage.oneExtension
                  _ "a-b"%string
                  ltac:(vm_compute; reflexivity) ltac:(reflexivity))).
Defined.

(* ===================================================================== *)
(** ** YomitanServer and its endpoints *)
(* ===================================================================== *)

Lemma handleRequest_initialised (h : Server.Handlers) (v : Json.value) :
  v <> Json.JNull ->
  exists resp,
    Server.handleRequest true h (Some v) = Server.Ok resp /\
    Server.jsonrpc resp = "2.0"%string /\
    Server.id resp = Server.property "id" v /\
    (Server.isString "2.0" (Server.property "jsonrpc" v) = false ->
     Server.body resp
     = Server.ErrorOf (Server.mkRpcError (-32600) "Invalid Request" None)) /\
    (Server.isString "2.0" (Server.property "jsonrpc" v) = true ->
     let called :=
       Server.dispatch h (Server.property "method" v) (Server.property "params" v) in
     match Server.body resp with
     | Server.ResultOf result => called = Some (Server.Ok result)
     | Server.ErrorOf err =>
       (err = Server.mkRpcError (-32601) "Method not found" None /\ called = None) \/
       (exists e, err = Server.mkRpcError (-32603) "Internal error"
                                          (Some (Server.messageOf e)) /\
                  called = Some (Server.Raise e))
     end).
Proof.
  intros Hv.
  assert (Hreq : Server.handleRequest true h (Some v)
                 = if negb (Server.isString "2.0" (Server.property "jsonrpc" v))
                   then Server.Ok (Server.mkResponse "2.0" (Server.property "id" v)
                          (Server.ErrorOf (Server.mkRpcError (-32600) "Invalid Request" None)))
                   else match Server.dispatch h (Server.property "method" v)
                                              (Server.property "params" v) with
                        | None => Server.Ok (Server.mkResponse "2.0" (Server.property "id" v)
                            (Server.ErrorOf (Server.mkRpcError (-32601) "Method not found" None)))
                        | Some (Server.Ok result) =>
                          Server.Ok (Server.mkResponse "2.0" (Server.property "id" v)
                                       (Server.ResultOf result))
                        | Some (Server.Raise error) =>
                          Server.Ok (Server.mkResponse "2.0" (Server.property "id" v)
                            (Server.ErrorOf (Server.mkRpcError (-32603) "Internal error"
                                               (Some (Server.messageOf error)))))
                        end).
  { destruct v; try reflexivity. congruence. }
  rewrite Hreq. clear Hreq.
  destruct (Server.isString "2.0" (Server.property "jsonrpc" v)) eqn:Hver; cbn [negb].
  - cbv zeta. destruct (Server.dispatch h _ _) as [[result|e]|] eqn:Hd.
    + eexists. split; [reflexivity|]. cbn.
      split; [reflexivity|]. split; [reflexivity|].
      split; [discriminate|]. intros _. reflexivity.
    + eexists. split; [reflexivity|]. cbn.
      split; [reflexivity|]. split; [reflexivity|].
      split; [discriminate|]. intros _. right. exists e. auto.
    + eexists. split; [reflexivity|]. cbn.
      split; [reflexivity|]. split; [reflexivity|].
      split; [discriminate|]. intros _. left. auto.
  - eexists. split; [reflexivity|]. cbn.
    split; [reflexivity|]. split; [reflexivity|].
    split; [reflexivity|]. discriminate.
Qed.

Lemma handleRequest_body_absent (b : bool) (h : Server.Handlers) (body : option Json.value) :
  body = None \/ body = Some Json.JNull ->
  exists e, Server.handleRequest b h body = Server.Raise e.
Proof.
  intros [->| ->]; destruct b; cbn; eauto.
Qed.

(** Once the backend is there, handleRequest answers every request that is
    not null and never throws, whatever the handlers do: the answer
    carries jsonrpc 2.0 and the id of the request as it was sent (undefined
    when there was none).  A request whose jsonrpc is not the string 2.0
    gets -32600 before its method is looked at; otherwise the answer is
    the result of the handler of the method, -32601 when the method is none
    of the eight, or -32603 with the message of what the handler threw. *)
Theorem request_always_answered (h : Server.Handlers) (v : Json.value) :
  v <> Json.JNull ->
  exists resp,
    Server.handleRequest true h (Some v) = Server.Ok resp /\
    Server.jsonrpc resp = "2.0"%string /\
    Server.id resp = Server.property "id" v /\
    (Server.isString "2.0" (Server.property "jsonrpc" v) = false ->
     Server.body resp
     = Server.ErrorOf (Server.mkRpcError (-32600) "Invalid Request" None)) /\
    (Server.isString "2.0" (Server.property "jsonrpc" v) = true ->
     let called :=
       Server.dispatch h (Server.property "method" v) (Server.property "params" v) in
     match Server.body resp with
     | Server.ResultOf result => called = Some (Server.Ok result)
     | Server.ErrorOf err =>
       (err = Server.mkRpcError (-32601) "Method not found" None /\ called = None) \/
       (exists e, err = Server.mkRpcError (-32603) "Internal error"
                                          (Some (Server.messageOf e)) /\
                  called = Some (Server.Raise e))
     end).
Proof.
  exact (handleRequest_initialised h v).
Qed.

(** The HTTP endpoint, which index.js sets up after initialize has
    resolved: every POST is answered with an object that carries jsonrpc
    2.0.  The status is 200 with the answer of handleRequest for every body
    that is not missing or null; it is 500, with -32603 and a null id, only
    for a body that is missing or null. *)
Theorem post_always_answered newBackend prepare hasIndexedDB importSync sync
        (hasBackend : bool) (h : Server.Handlers) (reqBody : option Json.value) :
  Server.initialize newBackend prepare hasIndexedDB importSync sync
  = (hasBackend, Server.Ok tt) ->
  let '(status, resp) := Server.postRoot hasBackend h reqBody in
  Server.jsonrpc resp = "2.0"%string /\
  ((status = 200 /\
    (exists v, reqBody = Some v /\ v <> Json.JNull) /\
    Server.handleRequest hasBackend h reqBody = Server.Ok resp) \/
   (status = 500 /\
    (reqBody = None \/ reqBody = Some Json.JNull) /\
    Server.id resp = Some Json.JNull /\
    exists msg,
      Server.body resp
      = Server.ErrorOf (Server.mkRpcError (-32603) "Internal error" (Some msg)))).
Proof.
  intros Hinit.
  assert (Hb : hasBackend = true).
  { unfold Server.initialize in Hinit.
    destruct newBackend; [|discriminate]. destruct prepare; [|discriminate].
    congruence. }
  subst hasBackend. clear Hinit.
  unfold Server.postRoot.
  destruct reqBody as [v|].
  - assert (Hnull : v = Json.JNull \/ v <> Json.JNull)
      by (destruct v; [left; reflexivity | right; discriminate ..]).
    destruct Hnull as [->|Hv].
    + cbn. split; [reflexivity|]. right. repeat split; eauto.
    + destruct (handleRequest_initialised h v Hv) as (resp & Hr & Hj & _).
      rewrite Hr. split; [exact Hj|]. left. repeat split. eauto.
  - cbn. split; [reflexivity|]. right. repeat split; eauto.
Qed.

(** The WebSocket endpoint answers every message with an object that
    carries jsonrpc 2.0.  With the backend there, the answer is the parse
    error -32700 with a null id exactly when the text of the message is no
    JSON or is the JSON null; every other message gets the answer of
    handleRequest, which is never a parse error. *)
Theorem message_always_answered (JSON_parse : jsstring -> Completion Json.value)
        (h : Server.Handlers) (text : jsstring) :
  let resp := Server.onMessage JSON_parse true h text in
  let parseError :=
    Server.mkResponse "2.0" (Some Json.JNull)
      (Server.ErrorOf (Server.mkRpcError (-32700) "Parse error" None)) in
  Server.jsonrpc resp = "2.0"%string /\
  (Server.body resp = Server.body parseError <->
   (exists e, JSON_parse text = Throw e) \/ JSON_parse text = Normal Json.JNull) /\
  ((exists e, JSON_parse text = Throw e) \/ JSON_parse text = Normal Json.JNull ->
   resp = parseError) /\
  (forall v, JSON_parse text = Normal v -> v <> Json.JNull ->
             Server.handleRequest true h (Some v) = Server.Ok resp).
Proof.
  cbv zeta. unfold Server.onMessage.
  destruct (JSON_parse text) as [v|e] eqn:Hp.
  - assert (Hnull : v = Json.JNull \/ v <> Json.JNull)
      by (destruct v; [left; reflexivity | right; discriminate ..]).
    destruct Hnull as [->|Hv].
    + cbn. split; [reflexivity|]. split; [|split].
      * split; [intros _; right; reflexivity | reflexivity].
      * reflexivity.
      * intros v Hv Hn. congruence.
    + destruct (handleRequest_initialised h v Hv) as (resp & Hr & Hj & _ & Hold & Hnew).
      rewrite Hr. split; [exact Hj|]. split; [|split].
      * split.
        -- intros Hb. exfalso.
           destruct (Server.isString "2.0" (Server.property "jsonrpc" v)).
           ++ specialize (Hnew eq_refl). cbv zeta in Hnew. rewrite Hb in Hnew. cbn in Hnew.
              destruct Hnew as [[He _]|(e & He & _)]; discriminate.
           ++ rewrite (Hold eq_refl) in Hb. discriminate.
        -- intros [(e & He)|He]; congruence.
      * intros [(e & He)|He]; congruence.
      * intros v' Hv' _. injection Hv' as <-. exact Hr.
  - cbn. split; [reflexivity|]. split; [|split].
    + split; [intros _; left; eauto | reflexivity].
    + reflexivity.
    + intros v Hv. discriminate.
Qed.

Lemma request_always_answered_witness :
  exists resp,
    Server.handleRequest true
      (Server.mkHandlers (fun _ => Server.Ok Json.JNull) (fun _ => Server.Ok Json.JNull)
                         (fun _ => Server.Ok Json.JNull) (Server.Ok Json.JNull)
                         (fun _ => Server.Ok Json.JNull) (fun _ => Server.Ok Json.JNull)
                         (fun _ => Server.Raise (Server.Error "no file")))
      (Some (Json.JObject [Server.member "jsonrpc" (Json.JString (Server.units "2.0"));
                           Server.member "id" (Json.JNumber false 7 0);
                           Server.member "method"
                             (Json.JString (Server.units "importDictionaryCollection"))]))
    = Server.Ok resp /\
    Server.id resp = Some (Json.JNumber false 7 0).
Proof.
  destruct (request_always_answered
              (Server.mkHandlers (fun _ => Server.Ok Json.JNull) (fun _ => Server.Ok Json.JNull)
                         (fun _ => Server.Ok Json.JNull) (Server.Ok Json.JNull)
                         (fun _ => Server.Ok Json.JNull) (fun _ => Server.Ok Json.JNull)
                         (fun _ => Server.Raise (Server.Error "no file")))
              (Json.JObject [Server.member "jsonrpc" (Json.JString (Server.units "2.0"));
                             Server.member "id" (Json.JNumber false 7 0);
                             Server.member "method"
                               (Json.JString (Server.units "importDictionaryCollection"))])
              ltac:(discriminate)) as (resp & Hr & _ & Hid & _).
  exists resp. split; [exact Hr | exact Hid].
Defined.

Lemma post_always_answered_witness :
  let '(status, resp) :=
    Server.postRoot true
      (Server.mkHandlers (fun _ => Server.Ok Json.JNull) (fun _ => Server.Ok Json.JNull)
                         (fun _ => Server.Ok Json.JNull) (Server.Ok Json.JNull)
                         (fun _ => Server.Ok Json.JNull) (fun _ => Server.Ok Json.JNull)
                         (fun _ => Server.Ok Json.JNull))
      None in
  Server.jsonrpc resp = "2.0"%string.
Proof.
  exact (proj1 (post_always_answered (Server.Ok tt) (Server.Ok tt) true (Server.Ok tt)
                  (Server.Raise (Server.Error "no source")) true
                  (Server.mkHandlers (fun _ => Server.Ok Json.JNull) (fun _ => Server.Ok Json.JNull)
                         (fun _ => Server.Ok Json.JNull) (Server.Ok Json.JNull)
                         (fun _ => Server.Ok Json.JNull) (fun _ => Server.Ok Json.JNull)
                         (fun _ => Server.Ok Json.JNull))
                  None ltac:(reflexivity))).
Defined.

(* ===================================================================== *)
(** ** handleImportDictionaryCollection *)
(* ===================================================================== *)

Section CollectionFacts.

Variable Db : Type.
Variable readFileSync : jsstring -> Server.Result jsstring.
Variable parseJson : jsstring -> Server.Result Json.value.
Variable isPrepared : Db -> bool.
Variable fetch : jsstring -> Server.Result Collection.FetchResponse.
Variable importDictionary :
  Db -> Buffer -> Collection.ImportDetails -> Db * Server.Result Collection.ImportResult.
Variable display : Json.value -> Server.Result string.

Lemma tryImport_cases importDetails (st st' : Collection.ImportState Db) url r :
  Collection.tryImport fetch importDictionary importDetails st url = (st', r) ->
  match r with
  | Server.Raise _ =>
    Collection.errors st' = Collection.errors st /\
    Collection.imported st' = Collection.imported st
  | Server.Ok _ =>
    (exists e es, Collection.errors st' = Collection.errors st ++ e :: es /\
                  Collection.imported st' = Collection.imported st) \/
    (Collection.errors st' = Collection.errors st /\
     (Collection.imported st' = Collection.imported st \/
      Collection.imported st' = S (Collection.imported st)))
  end.
Proof.
  unfold Collection.tryImport. intros H.
  destruct (fetch url) as [response|e].
  - destruct (Collection.ok response); cbn [negb] in H.
    + destruct (Collection.arrayBuffer response) as [archiveBuffer|e].
      * destruct (importDictionary (Collection.database st) archiveBuffer importDetails)
          as [db' [result|e]].
        -- destruct (Collection.result_errors result) as [[|e es]|].
           ++ destruct (Collection.result_result result);
                injection H as <- <-; cbn; right; auto.
           ++ injection H as <- <-. cbn. left. eauto.
           ++ destruct (Collection.result_result result);
                injection H as <- <-; cbn; right; auto.
        -- injection H as <- <-. cbn. auto.
      * injection H as <- <-. auto.
    + injection H as <- <-. auto.
  - injection H as <- <-. auto.
Qed.

(** What one turn of the loop that goes on does to the variables. *)
Lemma importOne_Ok importDetails (st st' : Collection.ImportState Db) dictInfo u :
  Collection.importOne fetch importDictionary display importDetails st dictInfo
  = (st', Server.Ok u) ->
  dictInfo <> Json.JNull /\
  ((exists e es, Collection.errors st' = Collection.errors st ++ e :: es /\
                 Collection.imported st' = Collection.imported st) \/
   (Collection.missingDownloadUrl dictInfo = false /\
    Collection.errors st' = Collection.errors st /\
    (Collection.imported st' = Collection.imported st \/
     Collection.imported st' = S (Collection.imported st)))).
Proof.
  intros H.
  assert (Hn : dictInfo <> Json.JNull) by (intros ->; discriminate).
  split; [exact Hn|].
  assert (Hone :
    Collection.importOne fetch importDictionary display importDetails st dictInfo
    = match Collection.usableUrl dictInfo with
      | None =>
        match Collection.dictName display dictInfo with
        | Server.Raise e => (st, Server.Raise e)
        | Server.Ok name =>
          (Collection.pushError st
             (Server.Error ("Dictionary " ++ Collection.quote ++ name ++ Collection.quote
                              ++ " missing downloadUrl")), Server.Ok tt)
        end
      | Some url =>
        let '(st', r) :=
          Collection.tryImport fetch importDictionary importDetails st url in
        match r with
        | Server.Ok _ => (st', Server.Ok tt)
        | Server.Raise error =>
          match Collection.dictName display dictInfo with
          | Server.Raise e => (st', Server.Raise e)
          | Server.Ok name =>
            (Collection.pushError st'
               (Server.Error ("Failed to import dictionary " ++ Collection.quote
                                ++ name ++ Collection.quote ++ ": "
                                ++ Server.messageOf error)), Server.Ok tt)
          end
        end
      end).
  { destruct dictInfo; try reflexivity. congruence. }
  rewrite Hone in H. clear Hone.
  unfold Collection.missingDownloadUrl.
  destruct (Collection.usableUrl dictInfo) as [url|].
  - destruct (Collection.tryImport fetch importDictionary importDetails st url)
      as [st1 r1] eqn:Ht.
    pose proof (tryImport_cases _ _ _ _ _ Ht) as Hc.
    destruct r1 as [[]|error].
    + injection H as <- <-.
      destruct Hc as [Hc|Hc]; [left; exact Hc | right; auto].
    + destruct (Collection.dictName display dictInfo) as [name|e]; [|discriminate].
      injection H as <- <-. left.
      destruct Hc as [He Hi]. cbn. rewrite He. eauto.
  - destruct (Collection.dictName display dictInfo) as [name|e]; [|discriminate].
    injection H as <- <-. left. cbn. eauto.
Qed.

(** The loop, when it comes to its end. *)
Lemma importLoop_Ok importDetails dictionaries :
  forall (st st' : Collection.ImportState Db),
  Collection.importLoop fetch importDictionary display importDetails st dictionaries
  = (st', Server.Ok tt) ->
  ~ In Json.JNull dictionaries /\
  exists new,
    Collection.errors st' = Collection.errors st ++ new /\
    (Collection.imported st <= Collection.imported st')%nat /\
    (Collection.imported st'
     + length (filter Collection.missingDownloadUrl dictionaries)
     <= Collection.imported st + length dictionaries)%nat /\
    (length (filter Collection.missingDownloadUrl dictionaries) <= length new)%nat /\
    (new <> [] ->
     (Collection.imported st' < Collection.imported st + length dictionaries)%nat).
Proof.
  induction dictionaries as [|d rest IH]; intros st st' H.
  - cbn in H. injection H as <-. split; [intros []|].
    exists []. rewrite app_nil_r. cbn. repeat split; try lia. congruence.
  - cbn [Collection.importLoop] in H.
    destruct (Collection.importOne fetch importDictionary display importDetails st d)
      as [st1 [u|e]] eqn:H1; [|discriminate].
    destruct (importOne_Ok _ _ _ _ _ H1) as [Hn Hc].
    destruct (IH _ _ H) as (Hnot & new & He & Hmono & Hcount & Hlack & Hstrict).
    split.
    { intros [Hd|Hd]; [congruence | exact (Hnot Hd)]. }
    cbn [filter length].
    destruct Hc as [(e & es & He1 & Hi1)|(Hm & He1 & Hi1)].
    + exists ((e :: es) ++ new). rewrite He, He1, <- app_assoc.
      split; [reflexivity|]. rewrite length_app. cbn [length].
      destruct (Collection.missingDownloadUrl d); cbn [length];
        repeat split; try lia.
    + exists new. rewrite He, He1. split; [reflexivity|]. rewrite Hm.
      repeat split; try lia.
      intros Hnew. specialize (Hstrict Hnew). lia.
Qed.

(** The loop over two lists, one after the other. *)
Lemma importLoop_app importDetails before rest :
  forall (st st1 : Collection.ImportState Db),
  Collection.importLoop fetch importDictionary display importDetails st before
  = (st1, Server.Ok tt) ->
  Collection.importLoop fetch importDictionary display importDetails st (before ++ rest)
  = Collection.importLoop fetch importDictionary display importDetails st1 rest.
Proof.
  induction before as [|d before IH]; intros st st1 H.
  - cbn in H. injection H as <-. reflexivity.
  - cbn [app Collection.importLoop] in *.
    destruct (Collection.importOne fetch importDictionary display importDetails st d)
      as [st' [u|e]]; [|discriminate].
    apply IH. exact H.
Qed.

Lemma dictionariesOf_valid collectionData dictionaries :
  Collection.dictionariesOf collectionData = Server.Ok dictionaries ->
  Collection.validCollection collectionData = true /\ dictionaries <> [].
Proof.
  unfold Collection.dictionariesOf.
  assert (Hne : forall v,
             match v with
             | Json.JArray (d :: ds) => Server.Ok (d :: ds)
             | _ => Server.Raise (Server.Error "No dictionaries found in collection file")
             end = Server.Ok dictionaries -> dictionaries <> []).
  { intros v Hv. destruct v as [| | | |[|d ds]|]; try discriminate.
    injection Hv as <-. discriminate. }
  destruct collectionData; try discriminate; intros H; (split; [reflexivity|]).
  - exact (Hne (Json.JArray items) H).
  - destruct (Server.truthy _); [|discriminate].
    destruct (Server.property _ _) as [v|]; [exact (Hne v H)|discriminate].
Qed.

(** When handleImportDictionaryCollection returns, the collection file was
    read and held an array of dictionaries that is not empty and has no
    null entry.  No more dictionaries are counted as imported than there
    are entries with a download URL; every entry without one has left at
    least one error; and whenever there is an error at all, the count stays
    below the number of entries. *)
Theorem collection_import_count _backend params database result :
  Collection.handleImportDictionaryCollection readFileSync parseJson isPrepared fetch
    importDictionary display _backend params
  = (database, Server.Ok result) ->
  exists request filePath collectionData dictionaries,
    params = Some request /\
    Server.property "filePath" request = Some (Json.JString filePath) /\
    Collection.readCollection readFileSync parseJson filePath = Server.Ok collectionData /\
    Collection.dictionariesOf collectionData = Server.Ok dictionaries /\
    dictionaries <> [] /\
    ~ In Json.JNull dictionaries /\
    (Collection.r_imported result
     + length (filter Collection.missingDownloadUrl dictionaries)
     <= length dictionaries)%nat /\
    (length (filter Collection.missingDownloadUrl dictionaries)
     <= length (Collection.r_errors result))%nat /\
    (Collection.r_errors result <> [] ->
     (Collection.r_imported result < length dictionaries)%nat).
Proof.
  unfold Collection.handleImportDictionaryCollection. intros H.
  destruct _backend as [backend|]; [|discriminate].
  destruct params as [request|]; [|discriminate].
  assert (Hreq : request <> Json.JNull) by (intros ->; discriminate).
  assert (Hbody :
    match Server.property "filePath" request with
    | Some (Json.JString filePath) =>
      if (length filePath =? 0)%nat
      then (Collection._dictionaryDatabase backend,
            Server.Raise (Server.Error "filePath is required"))
      else
        match Collection.readCollection readFileSync parseJson filePath with
        | Server.Raise e => (Collection._dictionaryDatabase backend, Server.Raise e)
        | Server.Ok collectionData =>
          if negb (Collection.validCollection collectionData)
          then (Collection._dictionaryDatabase backend,
                Server.Raise (Server.Error "Invalid collection file format"))
          else
            match Collection._dictionaryDatabase backend with
            | None => (Collection._dictionaryDatabase backend,
                       Server.Raise (Server.Error "Dictionary database not available"))
            | Some dictionaryDatabase =>
              if negb (isPrepared dictionaryDatabase)
              then (Collection._dictionaryDatabase backend,
                    Server.Raise (Server.Error "Dictionary database is not prepared"))
              else
                match Collection.dictionariesOf collectionData with
                | Server.Raise e => (Collection._dictionaryDatabase backend, Server.Raise e)
                | Server.Ok dictionaries =>
                  let importDetails :=
                    Collection.importDetailsOf (Server.property "details" request) in
                  let '(st, r) :=
                    Collection.importLoop fetch importDictionary display importDetails
                      (Collection.mkImportState dictionaryDatabase [] 0) dictionaries in
                  match r with
                  | Server.Raise e => (Some (Collection.database st), Server.Raise e)
                  | Server.Ok _ =>
                    (Some (Collection.database st),
                     Server.Ok (Collection.mkCollectionResult
                                  (Collection.imported st)
                                  (map (fun e => (Server.messageOf e, Collection.nameOf e))
                                       (Collection.errors st))))
                  end
                end
            end
        end
    | _ => (Collection._dictionaryDatabase backend,
            Server.Raise (Server.Error "filePath is required"))
    end = (database, Server.Ok result)).
  { destruct request; try exact H. congruence. }
  clear H.
  destruct (Server.property "filePath" request) as [[| | |filePath| |]|] eqn:Hfp;
    try discriminate.
  destruct (length filePath =? 0)%nat; [discriminate|].
  destruct (Collection.readCollection readFileSync parseJson filePath)
    as [collectionData|e] eqn:Hread; [|discriminate].
  destruct (Collection.validCollection collectionData); cbn [negb] in Hbody;
    [|discriminate].
  destruct (Collection._dictionaryDatabase backend) as [db0|]; [|discriminate].
  destruct (isPrepared db0); cbn [negb] in Hbody; [|discriminate].
  destruct (Collection.dictionariesOf collectionData) as [dictionaries|e] eqn:Hds;
    [|discriminate].
  cbv zeta in Hbody.
  destruct (Collection.importLoop _ _ _ _ _ dictionaries) as [st r] eqn:Hloop.
  destruct r as [[]|e]; [|discriminate].
  injection Hbody as <- <-.
  destruct (importLoop_Ok _ _ _ _ Hloop) as (Hnot & new & He & _ & Hcount & Hlack & Hstrict).
  cbn in He, Hcount, Hstrict. subst new.
  exists request, filePath, collectionData, dictionaries.
  cbn [Collection.r_imported Collection.r_errors]. rewrite length_map.
  repeat split; auto.
  - exact (proj2 (dictionariesOf_valid _ _ Hds)).
  - intros Hne. apply Hstrict. intros Hnil. apply Hne. rewrite Hnil. reflexivity.
Qed.

(** One null entry among the dictionaries of a collection makes the whole
    request fail with a TypeError, thrown outside the [try] of the loop:
    when the loop has come through the entries before the null entry, the
    errors collected and the count of the dictionaries imported there are
    not returned, and the database is left as the imports of those entries
    made it. *)
Theorem null_entry_rejects_collection db0 request filePath collectionData
        before after st :
  Server.property "filePath" request = Some (Json.JString filePath) ->
  filePath <> [] ->
  Collection.readCollection readFileSync parseJson filePath = Server.Ok collectionData ->
  Collection.dictionariesOf collectionData = Server.Ok (before ++ Json.JNull :: after) ->
  isPrepared db0 = true ->
  Collection.importLoop fetch importDictionary display
    (Collection.importDetailsOf (Server.property "details" request))
    (Collection.mkImportState db0 [] 0) before
  = (st, Server.Ok tt) ->
  Collection.handleImportDictionaryCollection readFileSync parseJson isPrepared fetch
    importDictionary display (Some (Collection.mkBackend (Some db0))) (Some request)
  = (Some (Collection.database st),
     Server.Raise
       (Server.TypeError "Cannot read properties of null (reading 'downloadUrl')")).
Proof.
  intros Hfp Hpath Hread Hds Hprep Hbefore.
  assert (Hreq : request <> Json.JNull) by (intros ->; discriminate).
  destruct (dictionariesOf_valid _ _ Hds) as [Hvalid _].
  pose proof (importLoop_app _ before (Json.JNull :: after) _ _ Hbefore) as Hloop.
  cbn [Collection.importLoop Collection.importOne] in Hloop.
  unfold Collection.handleImportDictionaryCollection.
  destruct request; try congruence;
    rewrite Hfp;
    (destruct filePath; [congruence|]); cbn [length Nat.eqb];
    rewrite Hread, Hvalid; cbn [negb Collection._dictionaryDatabase];
    rewrite Hprep; cbn [negb]; rewrite Hds; cbv zeta; rewrite Hloop; reflexivity.
Qed.

End CollectionFacts.

Lemma collection_import_count_witness :
  exists dictionaries,
    Collection.dictionariesOf
      (Json.JArray [Json.JObject [Server.member "downloadUrl"
                                    (Json.JString (Server.units "http://d/1.zip"))];
                    Json.JObject [Server.member "name" (Json.JString (Server.units "n"))]])
    = Server.Ok dictionaries /\
    (1 + length (filter Collection.missingDownloadUrl dictionaries)
     <= length dictionaries)%nat.
Proof.
  destruct (collection_import_count nat
              (fun _ => Server.Ok [])
              (fun _ => Server.Ok
                 (Json.JArray
                    [Json.JObject [Server.member "downloadUrl"
                                     (Json.JString (Server.units "http://d/1.zip"))];
                     Json.JObject [Server.member "name"
                                     (Json.JString (Server.units "n"))]]))
              (fun _ : nat => true)
              (fun _ => Server.Ok (Collection.mkFetchResponse true "200" "OK" (Server.Ok [])))
              (fun db _ _ => (S db, Server.Ok (Collection.mkImportResult (Some []) true)))
              (fun _ => Server.Ok "n"%string)
              (Some (Collection.mkBackend (Some 0%nat)))
              (Some (Json.JObject [Server.member "filePath"
                                     (Json.JString (Server.units "c.json"))]))
              (Some 1%nat)
              (Collection.mkCollectionResult 1
                 [(String.append "Dictionary "
                     (String.append Collection.quote
                        (String.append "n"
                           (String.append Collection.quote " missing downloadUrl"))),
                   "Error"%string)])
              ltac:(vm_compute; reflexivity))
    as (request & filePath & collectionData & dictionaries & _ & _ & Hread & Hds & _ & _
        & Hcount & _).
  exists dictionaries. split; [|exact Hcount].
  cbn in Hread. injection Hread as <-. exact Hds.
Defined.

Lemma null_entry_rejects_collection_witness :
  Collection.handleImportDictionaryCollection
    (fun _ => Server.Ok [])
    (fun _ => Server.Ok
       (Json.JArray
          [Json.JObject [Server.member "downloadUrl"
                           (Json.JString (Server.units "http://d/1.zip"))];
           Json.JNull]))
    (fun _ : nat => true)
    (fun _ => Server.Ok (Collection.mkFetchResponse true "200" "OK" (Server.Ok [])))
    (fun db _ _ => (S db, Server.Ok (Collection.mkImportResult (Some []) true)))
    (fun _ => Server.Ok "n"%string)
    (Some (Collection.mkBackend (Some 0%nat)))
    (Some (Json.JObject [Server.member "filePath"
                           (Json.JString (Server.units "c.json"))]))
  = (Some 1%nat,
     Server.Raise
       (Server.TypeError "Cannot read properties of null (reading 'downloadUrl')")).
Proof.
  apply (null_entry_rejects_collection nat
           (fun _ => Server.Ok [])
           (fun _ => Server.Ok
              (Json.JArray
                 [Json.JObject [Server.member "downloadUrl"
                                  (Json.JString (Server.units "http://d/1.zip"))];
                  Json.JNull]))
           (fun _ : nat => true)
           (fun _ => Server.Ok (Collection.mkFetchResponse true "200" "OK" (Server.Ok [])))
           (fun db _ _ => (S db, Server.Ok (Collection.mkImportResult (Some []) true)))
           (fun _ => Server.Ok "n"%string)
           0%nat
           (Json.JObject [Server.member "filePath" (Json.JString (Server.units "c.json"))])
           (Server.units "c.json")
           (Json.JArray
              [Json.JObject [Server.member "downloadUrl"
                               (Json.JString (Server.units "http://d/1.zip"))];
               Json.JNull])
           [Json.JObject [Server.member "downloadUrl"
                            (Json.JString (Server.units "http://d/1.zip"))]]
           []
           (Collection.mkImportState 1%nat [] 1)).
  - vm_compute; reflexivity.
  - vm_compute; discriminate.
  - reflexivity.
  - reflexivity.
  - reflexivity.
  - reflexivity.
Defined.
